(** * ProtoScript: the binary decoder and the generated serializers

    A shallow embedding of

    - the wire decoder [BinaryDecoder] (runtime, decoder source file):
      decoder state, instance cache, varint readers, zigzag, [readBytes];
    - the code emitter (autogenerate source file): the guards, dispatch
      and key chains of the binary and JSON serializers it prints, given
      the meaning the printed JavaScript has.

    JavaScript numbers that hold integers are [Z]; the 32-bit coercions of
    the bitwise operators are written out. *)

From Stdlib Require Import ZArith List String Ascii Bool Lia.
From stdpp Require Import base option list gmap strings.

Set Warnings "-register-all".
Local Open Scope Z_scope.

(* ===================================================================== *)
(** ** JavaScript integers *)
(* ===================================================================== *)

Module JS.

(** [ToUint32] and [ToInt32] of the language: reduction modulo 2^32. *)
Definition ToUint32 (z : Z) : Z := z mod 2 ^ 32.

Definition ToInt32 (z : Z) : Z :=
  let u := z mod 2 ^ 32 in if u <? 2 ^ 31 then u else u - 2 ^ 32.

(** [a & b], [a | b], [a ^ b], [~a]: operands to int32, result int32. *)
Definition and (a b : Z) : Z := ToInt32 (Z.land (ToInt32 a) (ToInt32 b)).
Definition or (a b : Z) : Z := ToInt32 (Z.lor (ToInt32 a) (ToInt32 b)).
Definition xor (a b : Z) : Z := ToInt32 (Z.lxor (ToInt32 a) (ToInt32 b)).
Definition not (a : Z) : Z := ToInt32 (Z.lnot (ToInt32 a)).

(** [a << n], [a >> n], [a >>> n]: the shift count is taken modulo 32. *)
Definition shl (a n : Z) : Z := ToInt32 (Z.shiftl (ToInt32 a) (n mod 32)).
Definition shr (a n : Z) : Z := Z.shiftr (ToInt32 a) (n mod 32).
Definition ushr (a n : Z) : Z := Z.shiftr (ToUint32 a) (n mod 32).

(** A value read from a typed array: [None] is [undefined] (index out of
    range).  In arithmetic [undefined] is NaN, so every comparison with
    it is false and the bitwise operators see 0. *)
Definition num (t : option Z) : Z := default 0 t.
Definition ge (t : option Z) (k : Z) : bool :=
  match t with Some b => k <=? b | None => false end.
Definition lt (t : option Z) (k : Z) : bool :=
  match t with Some b => b <? k | None => false end.

End JS.

(* ===================================================================== *)
(** ** JavaScript values and exceptions *)
(* ===================================================================== *)

(** *** Exceptions *)
Inductive Exn :=
| AssertionError (msg : string)
| TypeError (msg : string)
| OtherError (msg : string).

(** The outcome of a call: a value, or an exception in flight. *)
Inductive Outcome (A : Type) :=
| Ret (a : A)
| Throw (e : Exn).
Arguments Ret {A} a.
Arguments Throw {A} e.

(** *** Values

    The values the generated serializers handle.  A number is an integer
    or NaN here: a non-integral double is non-zero and not NaN, and no
    test below tells it from a non-zero integer.  Typed arrays, arrays
    and objects are modelled by their contents: an object by its own
    properties, its prototype being [Object.prototype].  What
    [Object.prototype] itself holds under a name (a method, or the
    prototype object for [__proto__]) is a value by that name. *)
Inductive Val :=
| VUndefined
| VNull
| VBool (b : bool)
| VNum (n : Z)
| VNaN
| VBigInt (n : Z)
| VStr (s : string)
| VBytes (bs : list Z)
| VArr (xs : list Val)
| VObj (props : gmap string Val)
| VBuiltin (name : string).

(** [ToBoolean] *)
Definition truthy (v : Val) : bool :=
  match v with
  | VUndefined | VNull | VNaN => false
  | VBool b => b
  | VNum n | VBigInt n => negb (n =? 0)
  | VStr s => negb (s =? "")%string
  | VBytes _ | VArr _ | VObj _ | VBuiltin _ => true
  end.

(** [v == undefined] (equivalently [v == null]) *)
Definition nullish (v : Val) : bool :=
  match v with VUndefined | VNull => true | _ => false end.

(** [a ?? b] *)
Definition coalesce (a b : Val) : Val := if nullish a then b else a.

(** [a === b] on primitives, as a [switch] compares its cases.  Objects
    compare by identity, which the cases of the generated code (number
    and string literals) never need. *)
Definition strictEq (a b : Val) : bool :=
  match a, b with
  | VUndefined, VUndefined | VNull, VNull => true
  | VBool x, VBool y => eqb x y
  | VNum x, VNum y | VBigInt x, VBigInt y => x =? y
  | VStr x, VStr y => (x =? y)%string
  | _, _ => false
  end.

(** The methods of [Object.prototype], each with its [length] (the
    number of its parameters); with the accessor [__proto__] they are
    the properties every object inherits. *)
Definition objectPrototypeMethods : list (string * Z) :=
  [("constructor", 1); ("__defineGetter__", 2); ("__defineSetter__", 2);
   ("hasOwnProperty", 1); ("__lookupGetter__", 1); ("__lookupSetter__", 1);
   ("isPrototypeOf", 1); ("propertyIsEnumerable", 1); ("toString", 0);
   ("valueOf", 0); ("toLocaleString", 0)]%string.

Definition isInherited (k : string) : bool :=
  (k =? "__proto__")%string
  || existsb (fun m => (fst m =? k)%string) objectPrototypeMethods.

(** [Object.prototype[k]] *)
Definition inherited (k : string) : Val :=
  if isInherited k then VBuiltin k else VUndefined.

(** [Object.prototype[k].length]: the prototype object has no
    [length]. *)
Definition builtinLength (k : string) : Val :=
  match List.find (fun m => (fst m =? k)%string) objectPrototypeMethods with
  | Some m => VNum (snd m)
  | None => VUndefined
  end.

(** [o[k]] and [o.k] on an object: the own property, or else the
    property [Object.prototype] holds under the name, or else
    [undefined]. *)
Definition prop (o : gmap string Val) (k : string) : Val :=
  match o !! k with
  | Some v => v
  | None => inherited k
  end.

(** [v?.length] *)
Definition optLength (v : Val) : Val :=
  match v with
  | VStr s => VNum (Z.of_nat (String.length s))
  | VBytes bs => VNum (Z.of_nat (List.length bs))
  | VArr xs => VNum (Z.of_nat (List.length xs))
  | VObj o => prop o "length"
  | VBuiltin k => builtinLength k
  | _ => VUndefined
  end.

Abbreviation Obj := (gmap string Val).

(** Sequencing of calls that may throw. *)
Definition bindO {A B} (m : Outcome A) (k : A -> Outcome B) : Outcome B :=
  match m with
  | Ret a => k a
  | Throw e => Throw e
  end.

Notation "'let!' p ':=' m 'in' k" := (bindO m (fun p => k))
  (at level 10, p pattern, m at level 100, k at level 200).

(* ===================================================================== *)
(** ** utils: joining the two 32-bit halves *)
(* ===================================================================== *)

Module Utils.

(** A JavaScript number is an IEEE double.  On integers the only effect
    is rounding to 53 significant bits, to nearest, ties to even; below
    2^53 in magnitude every integer is exact. *)
Definition roundToDouble (z : Z) : Z :=
  let a := Z.abs z in
  if a <? 2 ^ 53 then z
  else
    let e := Z.log2 a - 52 in
    let q := a / 2 ^ e in
    let r := a mod 2 ^ e in
    let h := 2 ^ (e - 1) in
    let q' := if r <? h then q
              else if h <? r then q + 1
              else if Z.even q then q else q + 1 in
    Z.sgn z * (q' * 2 ^ e).

(** Modelled from the spec: [joinUint64] of the utils module, which the
    decoder imports and which is not among the sources; the spec's
    join-to-unsigned-integer.  The halves are combined as
    [bitsHigh * 2^32 + (bitsLow >>> 0)] in JavaScript numbers: the
    product is exact, the sum is rounded once. *)
Definition joinUint64 (bitsLow bitsHigh : Z) : Z :=
  roundToDouble (bitsHigh * 4294967296 + JS.ushr bitsLow 0).

(** Modelled from the spec: [joinInt64], the spec's
    join-to-signed-integer: when the sign bit of the high half is set
    the pair is negated in two's complement, joined as unsigned, and the
    result negated. *)
Definition joinInt64 (bitsLow bitsHigh : Z) : Z :=
  let sign := JS.and bitsHigh 2147483648 in
  if sign =? 0 then joinUint64 bitsLow bitsHigh
  else
    let bitsLow' := JS.ushr (JS.not bitsLow + 1) 0 in
    let bitsHigh' := JS.ushr (JS.not bitsHigh) 0 in
    let bitsHigh'' :=
      if bitsLow' =? 0 then JS.ushr (bitsHigh' + 1) 0 else bitsHigh' in
    - joinUint64 bitsLow' bitsHigh''.

(** Modelled from the spec: the 64-bit zigzag decoding on the two-half
    representation, "analogous" to the 32-bit formula
    [(n >>> 1) ^ -(n & 1)]: the pair is shifted right by one bit across
    the halves and both halves are flipped by the sign mask. *)
Definition fromZigzag64 {T} (bitsLow bitsHigh : Z) (convert : Z -> Z -> T) : T :=
  let signFlipMask := - JS.and bitsLow 1 in
  let bitsLow' :=
    JS.xor (JS.or (JS.ushr bitsLow 1) (JS.shl bitsHigh 31)) signFlipMask in
  let bitsHigh' := JS.xor (JS.ushr bitsHigh 1) signFlipMask in
  convert bitsLow' bitsHigh'.

(** Modelled from the spec: [joinZigzag64], the spec's join-to-zigzag:
    zigzag decoding followed by the signed join. *)
Definition joinZigzag64 (bitsLow bitsHigh : Z) : Z :=
  fromZigzag64 bitsLow bitsHigh joinInt64.

(** The value a pair of halves stands for, as a two's complement 64-bit
    integer (no JavaScript number involved). *)
Definition int64OfHalves (bitsLow bitsHigh : Z) : Z :=
  JS.ToInt32 bitsHigh * 2 ^ 32 + JS.ToUint32 bitsLow.

End Utils.

(* ===================================================================== *)
(** ** The encoder side of zigzag *)
(* ===================================================================== *)

Module Zigzag.

(** Modelled from the spec: the zigzag encoding of a signed 32-bit
    integer (the encoder is not among the sources): the glossary's
    remapping of signed integers, [((s << 1) ^ (s >> 31)) >>> 0]. *)
Definition encode32 (s : Z) : Z :=
  JS.ushr (JS.xor (JS.shl s 1) (JS.shr s 31)) 0.

(** Modelled from the spec: the zigzag encoding of a signed 64-bit
    integer as an unsigned 64-bit integer, [2s] for [s >= 0] and
    [-2s - 1] for [s < 0], and its two 32-bit halves. *)
Definition encode64 (s : Z) : Z := if s <? 0 then - 2 * s - 1 else 2 * s.
Definition lowHalf (u : Z) : Z := u mod 2 ^ 32.
Definition highHalf (u : Z) : Z := (u / 2 ^ 32) mod 2 ^ 32.

(** The inverse of the encoding on unsigned integers: even numbers stand
    for the non-negative integers, odd numbers for the negative ones. *)
Definition unzigzag (u : Z) : Z := if Z.even u then u / 2 else - (u / 2) - 1.

End Zigzag.

(* ===================================================================== *)
(** ** The encoder side of varints *)
(* ===================================================================== *)

Module Varint.

(** Modelled from the spec: the varint encoding of an unsigned integer (the
    encoder is not among the sources), by the glossary: base 128, seven
    payload bits per byte, least significant group first, the high bit
    set on every byte but the last.  [fuel] bounds the number of bytes. *)
Fixpoint encode (fuel : nat) (n : Z) : list Z :=
  match fuel with
  | O => []
  | S fuel' =>
      if n <? 128 then [n] else (n mod 128 + 128) :: encode fuel' (n / 128)
  end.

(** Below 2^32 five bytes suffice. *)
Definition encode32 (n : Z) : list Z := encode 5 n.

(** The number the bytes of a varint stand for: the payloads, seven bits
    each, least significant group first. *)
Fixpoint value (enc : list Z) : Z :=
  match enc with
  | [] => 0
  | b :: rest => b mod 128 + 128 * value rest
  end.

(** The shape of a varint: bytes with the high bit set, then one byte
    without it. *)
Fixpoint terminated (enc : list Z) : bool :=
  match enc with
  | [] => false
  | b :: rest =>
      match rest with
      | [] => (0 <=? b) && (b <? 128)
      | _ :: _ => (128 <=? b) && (b <? 256) && terminated rest
      end
  end.

End Varint.

(* ===================================================================== *)
(** ** UTF-8 and UTF-16 *)
(* ===================================================================== *)

Module Utf8.

(** UTF-8: the bytes of a code point, one to four. *)
Definition encode (cp : Z) : list Z :=
  if cp <? 128 then [cp]
  else if cp <? 2048 then [192 + cp / 64; 128 + cp mod 64]
  else if cp <? 65536 then
    [224 + cp / 4096; 128 + cp / 64 mod 64; 128 + cp mod 64]
  else
    [240 + cp / 262144; 128 + cp / 4096 mod 64; 128 + cp / 64 mod 64;
     128 + cp mod 64].

(** UTF-16: the code units of a code point, a surrogate pair from
    U+10000 on. *)
Definition utf16 (cp : Z) : list Z :=
  if cp <? 65536 then [cp]
  else [55296 + (cp - 65536) / 1024; 56320 + (cp - 65536) mod 1024].

Definition encodeAll (cps : list Z) : list Z := concat (List.map encode cps).
Definition utf16All (cps : list Z) : list Z := concat (List.map utf16 cps).

(** The code points: U+0000 to U+10FFFF. *)
Definition codePoints (cps : list Z) : Prop :=
  Forall (fun cp => 0 <= cp < 1114112) cps.

End Utf8.

(* ===================================================================== *)
(** ** goog/asserts *)
(* ===================================================================== *)

(** The module [./goog/asserts] is imported by the decoder and is not part
    of the sources at hand.  Its two functions receive no reference to the
    decoder: a call either returns or throws.  Which of the two happens on
    a failed assertion is a parameter of the development. *)
Class Asserts := {
  assert_throws : bool;   (* [assert(false)] throws *)
  fail_throws : bool;     (* [fail(msg)] throws *)
}.

(* ===================================================================== *)
(** ** BinaryDecoder *)
(* ===================================================================== *)

Module BinaryDecoder.

(** The fields of the constructor; [bytes_] is [null] until [setBlock]. *)
Record Decoder := mkDecoder {
  bytes_ : option (list Z);
  start_ : Z;
  end_ : Z;
  cursor_ : Z;
  error_ : bool;
}.

(** [new BinaryDecoder()] without bytes. *)
Definition empty : Decoder := mkDecoder None 0 0 0 false.

(** Methods run on [this]: state passing with exceptions; the state
    reached when an exception is thrown is kept. *)
Definition M (A : Type) : Type := Decoder -> Outcome A * Decoder.

Definition ret {A} (a : A) : M A := fun d => (Ret a, d).
Definition throw {A} (e : Exn) : M A := fun d => (Throw e, d).
Definition bind {A B} (m : M A) (k : A -> M B) : M B :=
  fun d => match m d with
           | (Ret a, d') => k a d'
           | (Throw e, d') => (Throw e, d')
           end.

Declare Scope dec_scope.
Delimit Scope dec_scope with dec.
Notation "'let*' p ':=' m 'in' k" := (bind m (fun p => k))
  (at level 10, p pattern, m at level 100, k at level 200) : dec_scope.
Local Open Scope dec_scope.

(** Reading and assigning the fields of [this]. *)
Definition withCursor (d : Decoder) (c : Z) : Decoder :=
  mkDecoder (bytes_ d) (start_ d) (end_ d) c (error_ d).
Definition withError (d : Decoder) (e : bool) : Decoder :=
  mkDecoder (bytes_ d) (start_ d) (end_ d) (cursor_ d) e.

Definition get {A} (f : Decoder -> A) : M A := fun d => (Ret (f d), d).
Definition set_cursor (c : Z) : M unit := fun d => (Ret tt, withCursor d c).
Definition set_error (e : bool) : M unit := fun d => (Ret tt, withError d e).

(** [bytes[i]] on a Uint8Array: [undefined] outside [0, length). *)
Definition index (bytes : list Z) (i : Z) : option Z :=
  if i <? 0 then None else bytes !! Z.to_nat i.

(** [this.bytes_], dereferenced: a TypeError when it is [null]. *)
Definition theBytes : M (list Z) :=
  fun d => match bytes_ d with
           | Some bs => (Ret bs, d)
           | None => (Throw (TypeError "bytes_ is null"), d)
           end.

(** [this.bytes_[this.cursor_++]]: the cursor is incremented before the
    element is fetched, so also when [bytes_] is [null] and the fetch
    throws. *)
Definition nextByte : M (option Z) :=
  let* c := get cursor_ in
  let* _ := set_cursor (c + 1) in
  let* bs := theBytes in
  ret (index bs c).

Section WithAsserts.
Context `{Asserts}.

Definition assert (cond : bool) : M unit :=
  if cond then ret tt
  else if assert_throws then throw (AssertionError "Assertion failed")
  else ret tt.

Definition fail (msg : string) : M unit :=
  if fail_throws then throw (AssertionError msg) else ret tt.

(** [clear] *)
Definition clear (d : Decoder) : Decoder := mkDecoder None 0 0 0 false.

(** [setBlock(data, opt_start, opt_length)] *)
Definition setBlock (data : list Z) (opt_start opt_length : option Z)
    (d : Decoder) : Decoder :=
  let start := match opt_start with Some s => s | None => 0 end in
  let end' := match opt_length with
              | Some l => start + l
              | None => Z.of_nat (length data)
              end in
  mkDecoder (Some data) start end' start (error_ d).

(** [new BinaryDecoder(opt_bytes, opt_start, opt_length)] *)
Definition new (opt_bytes : option (list Z)) (opt_start opt_length : option Z)
    : Decoder :=
  match opt_bytes with
  | Some data => setBlock data opt_start opt_length empty
  | None => empty
  end.

Definition atEnd (d : Decoder) : bool := cursor_ d =? end_ d.
Definition pastEnd (d : Decoder) : bool := end_ d <? cursor_ d.

(** [getError] *)
Definition getError (d : Decoder) : bool :=
  error_ d || (cursor_ d <? 0) || (end_ d <? cursor_ d).

(** [advance(count)] *)
Definition advance (count : Z) : M unit :=
  let* c := get cursor_ in
  let* _ := set_cursor (c + count) in
  let* c' := get cursor_ in let* e := get end_ in
  assert (c' <=? e).

(** The first loop of [readSplitVarint64]:
    [for (var i = 0; i < 4 && temp >= 128; i++)]; [n] counts the
    iterations left, [4 - i]. *)
Fixpoint lowLoop (n : nat) (i : Z) (temp : option Z) (lowBits : Z)
    : M (option Z * Z) :=
  match n with
  | O => ret (temp, lowBits)
  | S n' =>
      if JS.ge temp 128 then
        let* t := nextByte in
        lowLoop n' (i + 1) t
          (JS.or lowBits (JS.shl (JS.and (JS.num t) 127) (i * 7)))
      else ret (temp, lowBits)
  end.

(** The second loop: [for (var i = 0; i < 5 && temp >= 128; i++)]. *)
Fixpoint highLoop (n : nat) (i : Z) (temp : option Z) (highBits : Z)
    : M (option Z * Z) :=
  match n with
  | O => ret (temp, highBits)
  | S n' =>
      if JS.ge temp 128 then
        let* t := nextByte in
        highLoop n' (i + 1) t
          (JS.or highBits (JS.shl (JS.and (JS.num t) 127) (i * 7 + 3)))
      else ret (temp, highBits)
  end.

(** [readSplitVarint64(convert)]; the result is [None] when the
    function falls off its end (returns [undefined]). *)
Definition readSplitVarint64 {T} (convert : Z -> Z -> T) : M (option T) :=
  let* (temp, lowBits) := lowLoop 4 0 (Some 128) 0 in
  let* (temp, lowBits, highBits) :=
    (if JS.ge temp 128 then
       let* t := nextByte in
       ret (t, JS.or lowBits (JS.shl (JS.and (JS.num t) 127) 28),
               JS.or 0 (JS.shr (JS.and (JS.num t) 127) 4))
     else ret (temp, lowBits, 0)) in
  let* (temp, highBits) :=
    (if JS.ge temp 128 then highLoop 5 0 temp highBits
     else ret (temp, highBits)) in
  if JS.lt temp 128 then
    ret (Some (convert (JS.ushr lowBits 0) (JS.ushr highBits 0)))
  else
    let* _ := fail "Failed to read varint, encoding is invalid." in
    let* _ := set_error true in
    ret None.

(** [this.cursor_ += k] *)
Definition bump (k : Z) : M unit :=
  let* c := get cursor_ in set_cursor (c + k).

(** [assert(this.cursor_ <= this.end_)] *)
Definition assertInBlock : M unit :=
  let* c := get cursor_ in
  let* e := get end_ in
  assert (c <=? e).

(** The chain [bytes[this.cursor_++] >= 128 && ...] of [n] conjuncts,
    evaluated left to right until one is false. *)
Fixpoint continued (n : nat) : M bool :=
  match n with
  | O => ret true
  | S n' =>
      let* t := nextByte in
      if JS.ge t 128 then continued n' else ret false
  end.

(** [readUnsignedVarint32] *)
Definition readUnsignedVarint32 : M Z :=
  let* bytes := theBytes in
  let* c := get cursor_ in
  let temp := index bytes (c + 0) in
  let x := JS.and (JS.num temp) 127 in
  if JS.lt temp 128 then
    let* _ := bump 1 in let* _ := assertInBlock in ret x
  else
  let temp := index bytes (c + 1) in
  let x := JS.or x (JS.shl (JS.and (JS.num temp) 127) 7) in
  if JS.lt temp 128 then
    let* _ := bump 2 in let* _ := assertInBlock in ret x
  else
  let temp := index bytes (c + 2) in
  let x := JS.or x (JS.shl (JS.and (JS.num temp) 127) 14) in
  if JS.lt temp 128 then
    let* _ := bump 3 in let* _ := assertInBlock in ret x
  else
  let temp := index bytes (c + 3) in
  let x := JS.or x (JS.shl (JS.and (JS.num temp) 127) 21) in
  if JS.lt temp 128 then
    let* _ := bump 4 in let* _ := assertInBlock in ret x
  else
  let temp := index bytes (c + 4) in
  let x := JS.or x (JS.shl (JS.and (JS.num temp) 15) 28) in
  if JS.lt temp 128 then
    let* _ := bump 5 in let* _ := assertInBlock in ret (JS.ushr x 0)
  else
  let* _ := bump 5 in
  let* tooLong := continued 5 in
  let* _ := (if tooLong then assert false else ret tt) in
  let* _ := assertInBlock in
  ret x.

(** [readZigzagVarint32] *)
Definition zigzagDecode32 (result : Z) : Z :=
  JS.xor (JS.ushr result 1) (- JS.and result 1).

Definition readZigzagVarint32 : M Z :=
  let* result := readUnsignedVarint32 in
  ret (zigzagDecode32 result).

(** [readZigzagVarint64] *)
Definition readZigzagVarint64 : M (option Z) :=
  readSplitVarint64 Utils.joinZigzag64.

(** [Uint8Array.prototype.subarray(begin, end)]: negative indices count
    from the end, both are clamped to the length.  The view is
    modelled by the elements it shows. *)
Definition subarray (bytes : list Z) (begin end' : Z) : list Z :=
  let len := Z.of_nat (length bytes) in
  let clamp i := if i <? 0 then Z.max (len + i) 0 else Z.min i len in
  take (Z.to_nat (clamp end' - clamp begin))
       (drop (Z.to_nat (clamp begin)) bytes).

(** [readBytes(length)]; in [a || b] the right operand, which
    dereferences [bytes_], is evaluated only when [a] is false. *)
Definition readBytes (length : Z) : M (list Z) :=
  let* c := get cursor_ in
  let* invalid :=
    (if length <? 0 then ret true
     else let* bs := theBytes in
          ret (Z.of_nat (List.length bs) <? c + length)) in
  if invalid then
    let* _ := set_error true in
    let* _ := fail "Invalid byte length!" in
    ret []
  else
    let* bs := theBytes in
    let* c := get cursor_ in
    let result := subarray bs c (c + length) in
    let* _ := bump length in
    let* _ := assertInBlock in
    ret result.

(** [setEnd], [reset], [setCursor] *)
Definition setEnd (end' : Z) (d : Decoder) : Decoder :=
  mkDecoder (bytes_ d) (start_ d) end' (cursor_ d) (error_ d).
Definition reset (d : Decoder) : Decoder := withCursor d (start_ d).
Definition setCursor (cursor : Z) (d : Decoder) : Decoder := withCursor d cursor.

(** [readSplitFixed64(convert)]: the loop
    [for (let i = cursor + 7; i >= cursor; i--)] visits the eight
    indices [cursor + 7], ..., [cursor]; [bytes] is dereferenced in its
    first turn, after the cursor has been moved. *)
Definition fixedStep (bytes : list Z) (acc : Z * Z) (i : Z) : Z * Z :=
  let '(lowBits, highBits) := acc in
  (JS.or (JS.shl lowBits 8) (JS.num (index bytes i)),
   JS.or (JS.shl highBits 8) (JS.num (index bytes (i + 4)))).

Definition readSplitFixed64 {T} (convert : Z -> Z -> T) : M T :=
  let* cursor := get cursor_ in
  let* _ := bump 8 in
  let* bytes := theBytes in
  let '(lowBits, highBits) :=
    fold_left (fixedStep bytes)
              (List.map (fun k => cursor + 7 - Z.of_nat k) (seq 0 8)) (0, 0) in
  ret (convert lowBits highBits).

(** [skipVarint]: [while (this.bytes_[this.cursor_] & 0x80) this.cursor_++;]
    then one more increment.  A byte outside the buffer reads as
    [undefined] and ends the loop, so the loop makes at most as many
    turns as the buffer has bytes; [fuel] is that bound. *)
Fixpoint skipLoop (fuel : nat) : M unit :=
  match fuel with
  | O => ret tt
  | S fuel' =>
      let* bytes := theBytes in
      let* c := get cursor_ in
      if JS.and (JS.num (index bytes c)) 128 =? 0 then ret tt
      else let* _ := bump 1 in skipLoop fuel'
  end.

Definition skipVarint : M unit :=
  let* bytes := theBytes in
  let* _ := skipLoop (length bytes) in
  bump 1.

(** [unskipVarint(value)]: [while (value > 128) { this.cursor_--;
    value = value >>> 7; }] then one more decrement.  The first shift
    leaves fewer than 25 bits, so the loop makes at most four turns. *)
Fixpoint unskipLoop (fuel : nat) (value : Z) : M unit :=
  match fuel with
  | O => ret tt
  | S fuel' =>
      if 128 <? value then
        let* _ := bump (-1) in unskipLoop fuel' (JS.ushr value 7)
      else ret tt
  end.

Definition unskipVarint (value : Z) : M unit :=
  let* _ := unskipLoop 4 value in
  bump (-1).

(** [readUint8], [readUint16], [readUint32] *)
Definition readUint8 : M (option Z) :=
  let* bytes := theBytes in
  let* c := get cursor_ in
  let a := index bytes (c + 0) in
  let* _ := bump 1 in
  let* _ := assertInBlock in
  ret a.

Definition readUint16 : M Z :=
  let* bytes := theBytes in
  let* c := get cursor_ in
  let a := JS.num (index bytes (c + 0)) in
  let b := JS.num (index bytes (c + 1)) in
  let* _ := bump 2 in
  let* _ := assertInBlock in
  ret (JS.or (JS.shl a 0) (JS.shl b 8)).

Definition readUint32 : M Z :=
  let* bytes := theBytes in
  let* c := get cursor_ in
  let a := JS.num (index bytes (c + 0)) in
  let b := JS.num (index bytes (c + 1)) in
  let c' := JS.num (index bytes (c + 2)) in
  let d := JS.num (index bytes (c + 3)) in
  let* _ := bump 4 in
  let* _ := assertInBlock in
  ret (JS.ushr (JS.or (JS.or (JS.or (JS.shl a 0) (JS.shl b 8)) (JS.shl c' 16))
                      (JS.shl d 24)) 0).

(** [readInt8], [readInt16], [readInt32] *)
Definition readInt8 : M Z :=
  let* bytes := theBytes in
  let* c := get cursor_ in
  let a := JS.num (index bytes (c + 0)) in
  let* _ := bump 1 in
  let* _ := assertInBlock in
  ret (JS.shr (JS.shl a 24) 24).

Definition readInt16 : M Z :=
  let* bytes := theBytes in
  let* c := get cursor_ in
  let a := JS.num (index bytes (c + 0)) in
  let b := JS.num (index bytes (c + 1)) in
  let* _ := bump 2 in
  let* _ := assertInBlock in
  ret (JS.shr (JS.shl (JS.or (JS.shl a 0) (JS.shl b 8)) 16) 16).

Definition readInt32 : M Z :=
  let* bytes := theBytes in
  let* c := get cursor_ in
  let a := JS.num (index bytes (c + 0)) in
  let b := JS.num (index bytes (c + 1)) in
  let c' := JS.num (index bytes (c + 2)) in
  let d := JS.num (index bytes (c + 3)) in
  let* _ := bump 4 in
  let* _ := assertInBlock in
  ret (JS.or (JS.or (JS.or (JS.shl a 0) (JS.shl b 8)) (JS.shl c' 16))
             (JS.shl d 24)).

(** [readBool]: [!!this.bytes_[this.cursor_++]] *)
Definition readBool : M bool :=
  let* t := nextByte in
  ret (match t with Some b => negb (b =? 0) | None => false end).

(** [readEnum], through the alias [readSignedVarint32]. *)
Definition readSignedVarint32 : M Z := readUnsignedVarint32.
Definition readEnum : M Z := readSignedVarint32.

(** A string is the sequence of its UTF-16 code units.
    [String.fromCharCode(...codeUnits)] takes each number modulo 2^16. *)
Definition fromCharCode (codeUnits : list Z) : list Z :=
  List.map (fun u => u mod 65536) codeUnits.

(** Modelled from the spec: [byteArrayToString] of [./goog/crypt], which
    is not among the sources: it materializes the accumulated code units
    as a string. *)
Definition byteArrayToString (codeUnits : list Z) : list Z :=
  fromCharCode codeUnits.

(** The loop [while (cursor < end)] of [readString].  Every turn moves
    the cursor by at least one byte, so [end - cursor] turns suffice;
    [fuel] is that bound.  The branch of a continuation byte ends its
    turn with [continue], before the test of [codeUnits.length]. *)
Fixpoint readStringLoop (fuel : nat) (bytes : list Z) (end' cursor : Z)
    (codeUnits result : list Z) : Z * list Z * list Z :=
  match fuel with
  | O => (cursor, codeUnits, result)
  | S fuel' =>
      if cursor <? end' then
        let next cursor codeUnits :=
          if 8192 <=? Z.of_nat (length codeUnits)
          then readStringLoop fuel' bytes end' cursor []
                 (result ++ fromCharCode codeUnits)
          else readStringLoop fuel' bytes end' cursor codeUnits result in
        let c := index bytes cursor in
        if JS.lt c 128 then
          next (cursor + 1) (codeUnits ++ [JS.num c])
        else if JS.lt c 192 then
          readStringLoop fuel' bytes end' (cursor + 1) codeUnits result
        else if JS.lt c 224 then
          let c2 := JS.num (index bytes (cursor + 1)) in
          next (cursor + 2)
               (codeUnits ++ [JS.or (JS.shl (JS.and (JS.num c) 31) 6)
                                    (JS.and c2 63)])
        else if JS.lt c 240 then
          let c2 := JS.num (index bytes (cursor + 1)) in
          let c3 := JS.num (index bytes (cursor + 2)) in
          next (cursor + 3)
               (codeUnits ++ [JS.or (JS.or (JS.shl (JS.and (JS.num c) 15) 12)
                                           (JS.shl (JS.and c2 63) 6))
                                    (JS.and c3 63)])
        else if JS.lt c 248 then
          let c2 := JS.num (index bytes (cursor + 1)) in
          let c3 := JS.num (index bytes (cursor + 2)) in
          let c4 := JS.num (index bytes (cursor + 3)) in
          let codepoint :=
            JS.or (JS.or (JS.or (JS.shl (JS.and (JS.num c) 7) 18)
                                (JS.shl (JS.and c2 63) 12))
                         (JS.shl (JS.and c3 63) 6))
                  (JS.and c4 63) in
          let codepoint := codepoint - 65536 in
          let low := JS.and codepoint 1023 + 56320 in
          let high := JS.and (JS.shr codepoint 10) 1023 + 55296 in
          next (cursor + 4) (codeUnits ++ [high; low])
        else next (cursor + 1) codeUnits
      else (cursor, codeUnits, result)
  end.

(** [readString(length)]; [bytes] is dereferenced in the first turn of
    the loop, if there is one. *)
Definition readString (length : Z) : M (list Z) :=
  let* cursor := get cursor_ in
  let end' := cursor + length in
  let* bytes := (if cursor <? end' then theBytes else ret []) in
  let '(cursor, codeUnits, result) :=
    readStringLoop (Z.to_nat length) bytes end' cursor [] [] in
  let result := result ++ byteArrayToString codeUnits in
  let* _ := set_cursor cursor in
  ret result.

(** [readStringWithLength] *)
Definition readStringWithLength : M (list Z) :=
  let* length := readUnsignedVarint32 in
  readString length.

(** [readFixedHash64]: the eight bytes as the code units of a string;
    nothing is asserted. *)
Definition readFixedHash64 : M (list Z) :=
  let* bytes := theBytes in
  let* cursor := get cursor_ in
  let at' k := JS.num (index bytes (cursor + k)) in
  let* _ := bump 8 in
  ret (fromCharCode [at' 0; at' 1; at' 2; at' 3; at' 4; at' 5; at' 6; at' 7]).

End WithAsserts.

(** *** The instance cache

    Decoders are objects: the cache holds references, and [free] clears
    the object the reference names. *)
Record World := mkWorld {
  heap : gmap nat Decoder;
  instanceCache_ : list nat;
  next : nat;
}.

Definition initial : World := mkWorld ∅ [] 0.

(** [BinaryDecoder.alloc(opt_bytes, opt_start, opt_length)] *)
Definition alloc (opt_bytes : option (list Z)) (opt_start opt_length : option Z)
    (w : World) : nat * World :=
  match last (instanceCache_ w) with
  | Some newDecoder =>
      let cache' := take (length (instanceCache_ w) - 1) (instanceCache_ w) in
      let heap' :=
        match opt_bytes with
        | Some data =>
            alter (setBlock data opt_start opt_length) newDecoder (heap w)
        | None => heap w
        end in
      (newDecoder, mkWorld heap' cache' (next w))
  | None =>
      let r := next w in
      (r, mkWorld (<[r := new opt_bytes opt_start opt_length]> (heap w))
                  (instanceCache_ w) (S r))
  end.

(** [BinaryDecoder.prototype.free] on the decoder [this]. *)
Definition free (this : nat) (w : World) : World :=
  let heap' := alter clear this (heap w) in
  if (length (instanceCache_ w) <? 100)%nat
  then mkWorld heap' (instanceCache_ w ++ [this]) (next w)
  else mkWorld heap' (instanceCache_ w) (next w).

(** [clone] *)
Definition clone (this : nat) (w : World) : option (nat * World) :=
  d ← heap w !! this;
  Some (alloc (bytes_ d) (Some (start_ d)) (Some (end_ d - start_ d)) w).

(** A client's calls on the cache. *)
Inductive CacheOp :=
| OpAlloc (opt_bytes : option (list Z)) (opt_start opt_length : option Z)
| OpFree (this : nat).

Definition step (w : World) (op : CacheOp) : World :=
  match op with
  | OpAlloc b s l => snd (alloc b s l w)
  | OpFree r => free r w
  end.

Definition run (ops : list CacheOp) (w : World) : World :=
  fold_left step ops w.

(** A client's calls: [alloc], [free], and any other method called on a
    decoder, which changes the fields of that decoder. *)
Inductive Call :=
| CallAlloc (opt_bytes : option (list Z)) (opt_start opt_length : option Z)
| CallFree (this : nat)
| CallMethod (this : nat) (method : Decoder -> Decoder).

Definition call (w : World) (c : Call) : World :=
  match c with
  | CallAlloc b s l => snd (alloc b s l w)
  | CallFree r => free r w
  | CallMethod r method =>
      mkWorld (alter method r (heap w)) (instanceCache_ w) (next w)
  end.

(** The discipline of a client: methods, [free] included, are called on
    decoders that exist and have not been freed. *)
Definition live (w : World) (r : nat) : Prop :=
  is_Some (heap w !! r) ∧ r ∉ instanceCache_ w.

Fixpoint disciplined (calls : list Call) (w : World) : Prop :=
  match calls with
  | [] => True
  | c :: rest =>
      match c with
      | CallAlloc _ _ _ => True
      | CallFree r | CallMethod r _ => live w r
      end ∧ disciplined rest (call w c)
  end.

(** The cached decoders are distinct, cleared objects, and references
    are handed out in order. *)
Definition pristine (w : World) : Prop :=
  NoDup (instanceCache_ w)
  ∧ (∀ r, r ∈ instanceCache_ w → heap w !! r = Some empty)
  ∧ (∀ r, is_Some (heap w !! r) → (r < next w)%nat).

(** The bytes [enc] lie in the buffer from position [c] on. *)
Definition bytesAt (bs : list Z) (c : Z) (enc : list Z) : Prop :=
  ∀ (j : nat) (b : Z), enc !! j = Some b → index bs (c + Z.of_nat j) = Some b.

(** Ten bytes from the cursor on, all with the continuation bit: the
    varint at the cursor does not end within ten bytes. *)
Definition unterminated (bs : list Z) (c : Z) : Prop :=
  ∀ j, 0 <= j < 10 → JS.ge (index bs (c + j)) 128 = true.

(** The bound [free] keeps. *)
Definition bounded (w : World) : Prop :=
  (length (instanceCache_ w) ≤ 100)%nat.

(** The elements of a [Uint8Array]. *)
Definition uint8s (bytes : list Z) : Prop :=
  Forall (fun b => 0 <= b < 256) bytes.

(** [bytes[i]] as the bitwise operators see it: 0 outside the buffer. *)
Definition byteAt (bytes : list Z) (i : Z) : Z := JS.num (index bytes i).

(** The [n] bytes from position [c] on. *)
Definition bytesFrom (bytes : list Z) (c : Z) (n : nat) : list Z :=
  List.map (fun k => byteAt bytes (c + Z.of_nat k)) (seq 0 n).

(** The number a sequence of bytes stands for, least significant byte
    first. *)
Definition littleEndian (bs : list Z) : Z :=
  fold_right (fun b acc => b + 256 * acc) 0 bs.

(** The two's complement reading of an unsigned number of [w] bits. *)
Definition signed (w : Z) (u : Z) : Z :=
  if u <? 2 ^ (w - 1) then u else u - 2 ^ w.

(** The turns the loop of [unskipVarint] makes on a value below 2^32, and
    the bytes [unskipVarint] steps back in all. *)
Fixpoint turns (fuel : nat) (v : Z) : Z :=
  match fuel with
  | O => 0
  | S fuel' => if 128 <? v then 1 + turns fuel' (v / 2 ^ 7) else 0
  end.

Definition unskipped (v : Z) : Z :=
  if v <=? 128 then 1
  else if v <? 129 * 2 ^ 7 then 2
  else if v <? 129 * 2 ^ 14 then 3
  else if v <? 129 * 2 ^ 21 then 4
  else 5.

End BinaryDecoder.

(* ===================================================================== *)
(** ** Printing helpers of the emitter *)
(* ===================================================================== *)

Module Print.

Local Open Scope string_scope.

(** The line feed. *)
Definition nl : string := String (Ascii.ascii_of_nat 10) EmptyString.

(** [printIf(cond, str)] *)
Definition printIf (cond : bool) (str : string) : string :=
  if cond then str else "".

(** [escapeComment]: [comment.replace(/\*\//g, "*" + "\\" + "/")], every
    match of the two characters, found from left to right, replaced by
    the three characters star, backslash, slash. *)
Fixpoint escapeComment (comment : string) : string :=
  match comment with
  | EmptyString => EmptyString
  | String c rest =>
      match rest with
      | String c' rest' =>
          if Ascii.eqb c "*"%char && Ascii.eqb c' "/"%char
          then String "*"%char
                 (String "\"%char (String "/"%char (escapeComment rest')))
          else String c (escapeComment rest)
      | EmptyString => String c EmptyString
      end
  end.

(** The text contains the two characters that end a block comment. *)
Fixpoint closes (s : string) : bool :=
  match s with
  | EmptyString => false
  | String c rest =>
      match rest with
      | String c' _ =>
          (Ascii.eqb c "*"%char && Ascii.eqb c' "/"%char) || closes rest
      | EmptyString => false
      end
  end.

(** [s.repeat(n)] for a one-character string. *)
Definition repeat (c : Ascii.ascii) (n : Z) : string :=
  string_of_list_ascii (List.repeat c (Z.to_nat n)).

(** [printHeading]: [Math.floor] and [Math.ceil] of the half of
    [width - heading.length], which is not negative. *)
Definition printHeading (heading : string) : string :=
  let len := Z.of_nat (String.length heading) in
  let width := Z.max 40 (len + 2) in
  let floor := (width - len) / 2 in
  let ceil := (width - len + 1) / 2 in
  "  //" ++ repeat "="%char width ++ "//" ++ nl
  ++ "  //" ++ repeat " "%char floor ++ heading ++ repeat " "%char ceil
  ++ "//" ++ nl
  ++ "  //" ++ repeat "="%char width ++ "//" ++ nl
  ++ "  " ++ nl
  ++ "  ".

End Print.

(* ===================================================================== *)
(** ** The intermediate representation the emitter reads *)
(* ===================================================================== *)

(** The fields of the IR nodes the serializer printers look at.  The names
    are the source's; the module is used qualified. *)
Module IR.

Record EnumValue := mkEnumValue {
  ev_name : string;
  ev_value : Z;
}.

Record Field := mkField {
  name : string;
  protoName : string;
  jsonName : string;
  index : Z;
  repeated : bool;
  optional : bool;
  map : bool;
  read : string;
  write : string;
  readPacked : option string;
  tsType : string;
  tsTypeJSON : string;
  defaultValue : Val;
}.

Record Message := mkMessage {
  namespacedName : string;
  namespacedNameJSON : string;
  isMap : bool;
  fields : list Field;
}.

End IR.

(* ===================================================================== *)
(** ** Generated enum converters *)
(* ===================================================================== *)

Module EnumCodec.

(** [_fromInt]: [switch (i) { case <value>: return '<name>'; ...
    default: return i; }], one case per enumerator in order; the first
    case that is strictly equal to [i] is taken. *)
Fixpoint _fromInt (values : list IR.EnumValue) (i : Val) : Val :=
  match values with
  | [] => i
  | v :: rest =>
      if strictEq i (VNum (IR.ev_value v)) then VStr (IR.ev_name v)
      else _fromInt rest i
  end.

(** [_toInt]: [switch (i) { case '<name>': return <value>; ...
    default: return i; }]. *)
Fixpoint _toInt (values : list IR.EnumValue) (i : Val) : Val :=
  match values with
  | [] => i
  | v :: rest =>
      if strictEq i (VStr (IR.ev_name v)) then VNum (IR.ev_value v)
      else _toInt rest i
  end.

(** The numbers and the names the enum declares. *)
Definition declaredValues (values : list IR.EnumValue) : list Z :=
  List.map IR.ev_value values.
Definition declaredNames (values : list IR.EnumValue) : list string :=
  List.map IR.ev_name values.

End EnumCodec.

(* ===================================================================== *)
(** ** Generated binary serializers *)
(* ===================================================================== *)

Module Binary.

(** *** Write side *)

(** The four conditions [_writeMessage] wraps a field's write in. *)
Inductive Guard :=
| GuardLength                   (* if (msg.x?.length) *)
| GuardDefined                  (* if (msg.x != undefined) *)
| GuardEnum (tsType : string)   (* if (msg.x && T._toInt(msg.x)) *)
| GuardTruthy.                  (* if (msg.x) *)

(** The choice of the condition, in the order the emitter tests the
    field. *)
Definition writeGuard (field : IR.Field) : Guard :=
  if IR.repeated field || (IR.read field =? "readBytes")%string then GuardLength
  else if IR.optional field then GuardDefined
  else if (IR.read field =? "readEnum")%string then GuardEnum (IR.tsType field)
  else GuardTruthy.

(** The argument expression handed to the writer, applied to the value
    [v] of [msg.x].  The writer is outside the sources: the expression
    is kept as it is printed. *)
Inductive Arg :=
| ArgValue (v : Val)                         (* msg.x *)
| ArgMessage (v : Val) (tsType : string)     (* msg.x, T._writeMessage *)
| ArgMapMessage (v : Val) (tsType : string)  (* Object.entries(msg.x).map(..), T._writeMessage *)
| ArgToString (v : Val)                      (* msg.x.toString() *)
| ArgMapToString (v : Val)                   (* msg.x.map(x => x.toString()) *)
| ArgToInt (v : Val) (tsType : string)       (* T._toInt(msg.x) *)
| ArgMapToInt (v : Val) (tsType : string).   (* msg.x.map(T._toInt) *)

Definition writeArg (field : IR.Field) (v : Val) : Arg :=
  if (IR.read field =? "readMessage")%string then
    if IR.map field then ArgMapMessage v (IR.tsType field)
    else ArgMessage v (IR.tsType field)
  else if (IR.tsType field =? "bigint")%string then
    if IR.repeated field then ArgMapToString v else ArgToString v
  else if (IR.read field =? "readEnum")%string then
    if IR.repeated field then ArgMapToInt v (IR.tsType field)
    else ArgToInt v (IR.tsType field)
  else ArgValue v.

(** One call [writer.<write>(<index>, <argument>)]. *)
Record WriterCall := mkCall {
  method : string;
  number : Z;
  argument : Arg;
}.

(** *** Read side: the reader's view of the input *)

Inductive WireType := VARINT | FIXED64 | DELIMITED | FIXED32.

(** Modelled from the spec: the [BinaryReader] the generated code drives
    is not among the sources.  By the spec it frames the input into
    fields, each a field number, a wire type and the bytes that belong
    to it; [nextField] moves to the next field while there is one,
    [getFieldNumber] is its number, and [skipField] consumes exactly the
    bytes of the current field. *)
Record WireField := mkWire {
  fieldNumber : Z;
  wireType : WireType;
  payload : list Z;
}.

(** What one turn of the [while (reader.nextField())] loop did. *)
Inductive Event :=
| Dispatched (case_ : Z) (f : WireField)   (* case <index>: ... break *)
| Skipped (f : WireField).                 (* default: reader.skipField() *)

(** What the generated code of one file calls and does not define. *)
Class Runtime := {
  (** The enumerators of the enum a type name stands for (every [tsType]
      resolves, by the walker's invariant). *)
  enumOf : string → list IR.EnumValue;
  (** The codecs of the message types a field may name:
      [T.initialize()], and [reader.readMessage(m, T._readMessage)] on
      the current field. *)
  initializeOf : string → Val;
  readMessage : string → Val → WireField → Outcome Val;
  (** The reader's scalar and packed reads of the current field, by
      method name, and the conversions of the language the case bodies
      call. *)
  readScalar : string → WireField → Outcome Val;
  readPackedValues : string → WireField → Outcome (list Val);
  BigInt : Val → Outcome Val;
  toString : Val → Outcome string;
  toPropertyKey : Val → string;
  (** The writer's and the reader's ends: [getResultBuffer] of a writer
      after the given calls, and the fields [new BinaryReader(bytes)]
      yields. *)
  getResultBuffer : list WriterCall → list Z;
  BinaryReader : list Z → list WireField;
}.

Section Generated.

Context `{Runtime}.

(** Whether the condition holds of the value of [msg.x]. *)
Definition holds (g : Guard) (v : Val) : bool :=
  match g with
  | GuardLength => truthy (optLength v)
  | GuardDefined => negb (nullish v)
  | GuardEnum t => truthy v && truthy (EnumCodec._toInt (enumOf t) v)
  | GuardTruthy => truthy v
  end.

(** The statement printed for one field: the guarded writer call. *)
Definition writeField (field : IR.Field) (msg : Obj) : option WriterCall :=
  let v := prop msg (IR.name field) in
  if holds (writeGuard field) v
  then Some (mkCall (IR.write field) (IR.index field) (writeArg field v))
  else None.

(** [_writeMessage(msg, writer)]: the calls made on the writer, in
    field order. *)
Definition _writeMessage (fields : list IR.Field) (msg : Obj)
    : list WriterCall :=
  omap (fun field => writeField field msg) fields.

(** [initialize()] *)
Definition initialValue (field : IR.Field) : Val :=
  if IR.optional field then VUndefined
  else if IR.repeated field then VArr []
  else if (IR.read field =? "readMessage")%string && negb (IR.map field)
  then initializeOf (IR.tsType field)
  else IR.defaultValue field.

Definition initialize (fields : list IR.Field) : Obj :=
  fold_left (fun o field => <[IR.name field := initialValue field]> o)
            fields ∅.

(** [msg.x.push(...vs)] *)
Definition push (x : string) (vs : list Val) (msg : Obj) : Outcome Obj :=
  match prop msg x with
  | VArr xs => Ret (<[x := VArr (xs ++ vs)]> msg)
  | _ => Throw (TypeError "push")
  end.

(** The converter a scalar read goes through, if any. *)
Inductive Converter := ConvFromInt (tsType : string) | ConvBigInt.

Definition converterOf (field : IR.Field) : option Converter :=
  if (IR.read field =? "readEnum")%string then Some (ConvFromInt (IR.tsType field))
  else if (IR.tsType field =? "bigint")%string then Some ConvBigInt
  else None.

Definition convert (c : option Converter) (v : Val) : Outcome Val :=
  match c with
  | Some (ConvFromInt t) => Ret (EnumCodec._fromInt (enumOf t) v)
  | Some ConvBigInt => BigInt v
  | None => Ret v
  end.

Fixpoint convertAll (c : option Converter) (vs : list Val)
    : Outcome (list Val) :=
  match vs with
  | [] => Ret []
  | v :: rest =>
      let! v' := convert c v in
      let! rest' := convertAll c rest in
      Ret (v' :: rest')
  end.

(** The body of [case <index>:] for a declared field, run on the
    current wire field; [inMap] is the [isMap] of the message the
    field belongs to. *)
Definition readCase (inMap : bool) (field : IR.Field) (msg : Obj)
    (f : WireField) : Outcome Obj :=
  let x := IR.name field in
  let T := IR.tsType field in
  if (IR.read field =? "readMessage")%string then
    if IR.map field then
      let! entry := readMessage T (VObj ∅) f in
      match entry, prop msg x with
      | VObj e, VObj target =>
          let! key :=
            (if (T =? "string")%string then Ret (toPropertyKey (prop e "key"))
             else toString (prop e "key")) in
          Ret (<[x := VObj (<[key := prop e "value"]> target)]> msg)
      | _, _ => Throw (TypeError "map entry")
      end
    else if IR.repeated field then
      let! m := readMessage T (initializeOf T) f in
      push x [m] msg
    else
      let msg' :=
        if IR.optional field || inMap then <[x := initializeOf T]> msg
        else msg in
      let! m := readMessage T (prop msg' x) f in
      Ret (<[x := m]> msg')
  else
    let converter := converterOf field in
    if IR.repeated field then
      match IR.readPacked field with
      | Some readPacked =>
          if match wireType f with DELIMITED => true | _ => false end then
            let! vs := readPackedValues readPacked f in
            let! vs' := convertAll converter vs in
            push x vs' msg
          else
            let! v := readScalar (IR.read field) f in
            let! v' := convert converter v in
            push x [v'] msg
      | None =>
          let! v := readScalar (IR.read field) f in
          let! v' := convert converter v in
          push x [v'] msg
      end
    else
      let! v := readScalar (IR.read field) f in
      let! v' := convert converter v in
      Ret (<[x := v']> msg).

(** [switch (field) { case ...: ...; default: ... }]: the first case
    whose label equals the field number, or the default. *)
Definition selectCase (fields : list IR.Field) (n : Z) : option IR.Field :=
  List.find (fun field => IR.index field =? n) fields.

Definition dispatch (inMap : bool) (fields : list IR.Field) (msg : Obj)
    (f : WireField) : Outcome Obj * Event :=
  match selectCase fields (fieldNumber f) with
  | Some field => (readCase inMap field msg f, Dispatched (IR.index field) f)
  | None => (Ret msg, Skipped f)
  end.

(** The loop [while (reader.nextField()) { ... }] over the fields the
    reader yields; an exception ends it. *)
Fixpoint readLoop (inMap : bool) (fields : list IR.Field) (msg : Obj)
    (input : list WireField) : Outcome Obj * list Event :=
  match input with
  | [] => (Ret msg, [])
  | f :: rest =>
      match dispatch inMap fields msg f with
      | (Ret msg', ev) =>
          let '(r, evs) := readLoop inMap fields msg' rest in
          (r, ev :: evs)
      | (Throw e, ev) => (Throw e, [ev])
      end
  end.

(** [_readMessage(msg, reader)]: for a message without fields the
    printed body is [return _msg;], with no loop. *)
Definition _readMessage (m : IR.Message) (msg : Obj)
    (input : list WireField) : Outcome Obj * list Event :=
  match IR.fields m with
  | [] => (Ret msg, [])
  | _ :: _ => readLoop (IR.isMap m) (IR.fields m) msg input
  end.

(** [encode] and [decode]; a map entry message has neither. *)
Definition encode (m : IR.Message) (msg : Obj) : option (list Z) :=
  if IR.isMap m then None
  else match IR.fields m with
       | [] => Some []
       | _ :: _ => Some (getResultBuffer (_writeMessage (IR.fields m) msg))
       end.

Definition decode (m : IR.Message) (bytes : list Z)
    : option (Outcome Obj) :=
  if IR.isMap m then None
  else match IR.fields m with
       | [] => Some (Ret ∅)
       | _ :: _ =>
           Some (fst (_readMessage m (initialize (IR.fields m))
                                   (BinaryReader bytes)))
       end.

End Generated.

End Binary.

(* ===================================================================== *)
(** ** Generated JSON serializers *)
(* ===================================================================== *)

Module JSON.

(** The emitter pastes a name between double quotes as it is,
    [json["<name>"]], and the key is the string that literal denotes by
    the rules of the language.  After a backslash, one of the
    characters [b t n v f r] stands for the control character it names
    and another ASCII character for itself; digits, [x], [u], a line
    break and a character outside ASCII (numeric escapes, line
    continuations) are not covered here. *)
Definition escapeValue (e : ascii) : option ascii :=
  let n := nat_of_ascii e in
  if Ascii.eqb e "b" then Some (ascii_of_nat 8)
  else if Ascii.eqb e "t" then Some (ascii_of_nat 9)
  else if Ascii.eqb e "n" then Some (ascii_of_nat 10)
  else if Ascii.eqb e "v" then Some (ascii_of_nat 11)
  else if Ascii.eqb e "f" then Some (ascii_of_nat 12)
  else if Ascii.eqb e "r" then Some (ascii_of_nat 13)
  else if Ascii.eqb e "x" || Ascii.eqb e "u" then None
  else if (48 <=? n)%nat && (n <=? 57)%nat then None
  else if (n =? 10)%nat || (n =? 13)%nat || (128 <=? n)%nat then None
  else Some e.

(** The string the literal with the given text between its quotes
    denotes; [None] where the text is no such literal (a double quote or
    a line break that is not escaped, a backslash at the end) or holds
    an escape that is not covered. *)
Fixpoint literalValue (body : string) : option string :=
  match body with
  | EmptyString => Some EmptyString
  | String c rest =>
      if Ascii.eqb c "\" then
        match rest with
        | String e rest' =>
            match escapeValue e, literalValue rest' with
            | Some c', Some s => Some (String c' s)
            | _, _ => None
            end
        | EmptyString => None
        end
      else if Ascii.eqb c (ascii_of_nat 34) || Ascii.eqb c (ascii_of_nat 10)
              || Ascii.eqb c (ascii_of_nat 13) then None
      else match literalValue rest with
           | Some s => Some (String c s)
           | None => None
           end
  end.

(** The key [json["<name>"]] reads or sets.  Where the literal is not
    covered the name stands in for it; the theorems about keys are
    about names that denote themselves. *)
Definition key (name : string) : string :=
  match literalValue name with
  | Some k => k
  | None => name
  end.

(** The name stands for itself between double quotes: it holds no
    backslash, no double quote and no line break. *)
Definition literal (name : string) : bool :=
  match literalValue name with
  | Some k => (k =? name)%string
  | None => false
  end.

Definition literalKeys (field : IR.Field) : bool :=
  literal (IR.jsonName field) && literal (IR.name field)
  && literal (IR.protoName field).

(** The keys of the printed chain [json["a"] ?? json["b"] ?? json["c"]]:
    the entries that are not [false] after [.filter(Boolean)]; the
    emitter compares the names, not the keys. *)
Definition getFieldKeys (field : IR.Field) : list string :=
  [key (IR.jsonName field)]
  ++ (if negb (IR.name field =? IR.jsonName field)%string
      then [key (IR.name field)] else [])
  ++ (if negb (IR.protoName field =? IR.name field)%string
      then [key (IR.protoName field)] else []).

(** The value of a chain [e1 ?? e2 ?? ...], which associates to the
    left. *)
Definition chain (vs : list Val) : Val :=
  match vs with
  | [] => VUndefined
  | v :: rest => fold_left coalesce rest v
  end.

(** What the generated code of one file calls and does not define. *)
Class Runtime := {
  (** [config.json] at generation time. *)
  emitFieldsWithDefaultValues : bool;
  useProtoFieldName : bool;
  enumOf : string → list IR.EnumValue;
  (** The codecs of the message types a field may name:
      [T.initialize()], [TJSON._readMessage(m, json)],
      [TJSON._writeMessage(msg)], and the two map conversions
      [Object.fromEntries(Object.entries(v).map(..).map(TJSON._readMessage))]
      and its [_writeMessage] twin. *)
  initializeOf : string → Val;
  readMessageOf : string → Val → Val → Outcome Val;
  writeMessageOf : string → Val → Outcome Val;
  readMapOf : string → Val → Outcome Val;
  writeMapOf : string → Val → Outcome Val;
  (** Functions of the language and of the runtime the bodies call. *)
  BigInt : Val → Outcome Val;
  toString : Val → Outcome Val;
  encodeBase64Bytes : Val → Outcome Val;
  decodeBase64Bytes : Val → Outcome Val;
  stringify : Val → string;
  parse : string → Outcome Val;
  (** [json[k]] on a value that is neither an object nor [null] nor
      [undefined]: a property of a string, an array, a number or a
      boolean, its own or one of the prototype of its type. *)
  memberOf : Val → string → Val;
}.

Section Generated.

Context `{Runtime}.

(** [v.map(f)] on an array. *)
Fixpoint mapAll (f : Val -> Outcome Val) (vs : list Val)
    : Outcome (list Val) :=
  match vs with
  | [] => Ret []
  | v :: rest =>
      let! v' := f v in
      let! rest' := mapAll f rest in
      Ret (v' :: rest')
  end.

Definition mapArray (f : Val -> Outcome Val) (v : Val) : Outcome Val :=
  match v with
  | VArr xs => let! ys := mapAll f xs in Ret (VArr ys)
  | _ => Throw (TypeError "map is not a function")
  end.

(** *** [_readMessage] *)

(** [json[k]] for a value that is not [null] or [undefined]. *)
Definition member (json : Val) (k : string) : Val :=
  match json with
  | VObj o => prop o k
  | _ => memberOf json k
  end.

(** [const _x_ = <chain>;] of [_readMessage]. *)
Definition getField (field : IR.Field) (json : Val) : Outcome Val :=
  if nullish json then Throw (TypeError "cannot read properties")
  else Ret (chain (List.map (member json) (getFieldKeys field))).

(** The values [for (const item of v)] visits: the elements of an array,
    the characters of a string; other values of the model are not
    iterable. *)
Definition items (v : Val) : Outcome (list Val) :=
  match v with
  | VArr xs => Ret xs
  | VStr s =>
      Ret (List.map (fun c => VStr (String c EmptyString))
                    (list_ascii_of_string s))
  | VBytes bs => Ret (List.map VNum bs)
  | _ => Throw (TypeError "is not iterable")
  end.

(** The body of the loop over the items of a repeated message field:
    [const m = T.initialize(); TJSON._readMessage(m, item);
    msg.x.push(m);]. *)
Fixpoint pushMessages (field : IR.Field) (vs : list Val) (msg : Obj)
    : Outcome Obj :=
  match vs with
  | [] => Ret msg
  | item :: rest =>
      let! m := readMessageOf (IR.tsTypeJSON field)
                              (initializeOf (IR.tsType field)) item in
      match prop msg (IR.name field) with
      | VArr old =>
          pushMessages field rest (<[IR.name field := VArr (old ++ [m])]> msg)
      | _ => Throw (TypeError "push")
      end
  end.

(** The statements inside [if (_x_) { ... }].  An assignment [msg.x = v]
    defines the own property [x]; that is what it does for every name
    but [__proto__], for which [Object.prototype] holds a setter. *)
Definition assign (field : IR.Field) (v : Val) (msg : Obj) : Outcome Obj :=
  let x := IR.name field in
  if (IR.read field =? "readMessage")%string then
    if IR.map field then
      let! m := readMapOf (IR.tsTypeJSON field) v in
      Ret (<[x := m]> msg)
    else if IR.repeated field then
      let! vs := items v in
      pushMessages field vs msg
    else
      let! m := readMessageOf (IR.tsTypeJSON field)
                              (initializeOf (IR.tsType field)) v in
      Ret (<[x := m]> msg)
  else if (IR.tsType field =? "bigint")%string then
    let! v' := (if IR.repeated field then mapArray BigInt v else BigInt v) in
    Ret (<[x := v']> msg)
  else if (IR.read field =? "readBytes")%string then
    let! v' := (if IR.repeated field then mapArray decodeBase64Bytes v
                else decodeBase64Bytes v) in
    Ret (<[x := v']> msg)
  else Ret (<[x := v]> msg).

(** The statement printed for one field:
    [const _x_ = <chain>; if (_x_) { ... }]. *)
Definition readField (field : IR.Field) (json : Val) (msg : Obj)
    : Outcome Obj :=
  let! v := getField field json in
  if truthy v then assign field v msg else Ret msg.

(** [_readMessage(msg, json)]: the statements of the fields in order,
    then [return msg]. *)
Fixpoint _readMessage (fields : list IR.Field) (msg : Obj) (json : Val)
    : Outcome Obj :=
  match fields with
  | [] => Ret msg
  | field :: rest =>
      let! msg' := readField field json msg in
      _readMessage rest msg' json
  end.

(** *** [_writeMessage] *)

Definition holds (g : Binary.Guard) (v : Val) : bool :=
  match g with
  | Binary.GuardLength => truthy (optLength v)
  | Binary.GuardDefined => negb (nullish v)
  | Binary.GuardEnum t => truthy v && truthy (EnumCodec._toInt (enumOf t) v)
  | Binary.GuardTruthy => truthy v
  end.

(** The JSON printer tests the field in the same order as the binary
    one, and names the JSON codec in the enum condition. *)
Definition writeGuard (field : IR.Field) : Binary.Guard :=
  if IR.repeated field || (IR.read field =? "readBytes")%string
  then Binary.GuardLength
  else if IR.optional field then Binary.GuardDefined
  else if (IR.read field =? "readEnum")%string
  then Binary.GuardEnum (IR.tsTypeJSON field)
  else Binary.GuardTruthy.

(** The key of [json["<name>"] = ...]: the name is pasted between
    double quotes as in the chain of [_readMessage]. *)
Definition setField (field : IR.Field) : string :=
  key (if useProtoFieldName then IR.protoName field else IR.jsonName field).

(** [Object.keys(v).length > 0] *)
Definition hasKeys (v : Val) : bool :=
  match v with
  | VObj o => negb (size o =? 0)%nat
  | VArr xs => negb (length xs =? 0)%nat
  | VStr s => negb (String.length s =? 0)%nat
  | _ => false
  end.

(** The statements inside the field's condition. *)
Definition emitValue (field : IR.Field) (v : Val) (json : Obj)
    : Outcome Obj :=
  let key := setField field in
  if (IR.read field =? "readMessage")%string then
    if IR.repeated field then
      let! v' := mapArray (writeMessageOf (IR.tsTypeJSON field)) v in
      Ret (<[key := v']> json)
    else
      let! v' := (if IR.map field then writeMapOf (IR.tsTypeJSON field) v
                  else writeMessageOf (IR.tsTypeJSON field) v) in
      if IR.optional field then Ret (<[key := v']> json)
      else if hasKeys v' then Ret (<[key := v']> json)
      else Ret json
  else if (IR.tsType field =? "bigint")%string then
    let! v' := (if IR.repeated field then mapArray toString v
                else toString v) in
    Ret (<[key := v']> json)
  else if (IR.read field =? "readBytes")%string then
    let! v' := (if IR.repeated field then mapArray encodeBase64Bytes v
                else encodeBase64Bytes v) in
    Ret (<[key := v']> json)
  else Ret (<[key := v]> json).

Definition writeField (field : IR.Field) (msg : Obj) (json : Obj)
    : Outcome Obj :=
  let v := prop msg (IR.name field) in
  if emitFieldsWithDefaultValues then emitValue field v json
  else if holds (writeGuard field) v then emitValue field v json
  else Ret json.

Fixpoint writeFields (fields : list IR.Field) (msg : Obj) (json : Obj)
    : Outcome Obj :=
  match fields with
  | [] => Ret json
  | field :: rest =>
      let! json' := writeField field msg json in
      writeFields rest msg json'
  end.

(** [_writeMessage(msg)]: [return {};] for a message without fields. *)
Definition _writeMessage (fields : list IR.Field) (msg : Obj) : Outcome Obj :=
  writeFields fields msg ∅.

(** [initialize()], as in the binary codec but naming the JSON codec
    of a nested message. *)
Definition initialValue (field : IR.Field) : Val :=
  if IR.optional field then VUndefined
  else if IR.repeated field then VArr []
  else if (IR.read field =? "readMessage")%string && negb (IR.map field)
  then initializeOf (IR.tsTypeJSON field)
  else IR.defaultValue field.

Definition initialize (fields : list IR.Field) : Obj :=
  fold_left (fun o field => <[IR.name field := initialValue field]> o)
            fields ∅.

(** [encode] and [decode]; a map entry message has neither. *)
Definition encode (m : IR.Message) (msg : Obj) : option (Outcome string) :=
  if IR.isMap m then None
  else match IR.fields m with
       | [] => Some (Ret "{}"%string)
       | _ :: _ =>
           Some (let! json := _writeMessage (IR.fields m) msg in
                 Ret (stringify (VObj json)))
       end.

Definition decode (m : IR.Message) (json : string) : option (Outcome Obj) :=
  if IR.isMap m then None
  else match IR.fields m with
       | [] => Some (Ret ∅)
       | _ :: _ =>
           Some (let! v := parse json in
                 _readMessage (IR.fields m) (initialize (IR.fields m)) v)
       end.

End Generated.

End JSON.

(* ===================================================================== *)
(** ** The write policy, in the words of the spec *)
(* ===================================================================== *)

Module WritePolicy.







End WritePolicy.

(* ===================================================================== *)
(** ** Keys of a JSON object that stand for the same field *)
(* ===================================================================== *)

(** Two values are alike when they are equal or both [null]/[undefined]. *)
Definition alike (a b : Val) : Prop :=
  a = b ∨ (nullish a = true ∧ nullish b = true).

(** No field that accepts the key [k] finds a value under another of the
    keys it accepts. *)
Definition noOtherKey (fields : list IR.Field) (o : Obj) (k : string) : Prop :=
  ∀ field, field ∈ fields → k ∈ JSON.getFieldKeys field →
    ∀ k', k' ∈ JSON.getFieldKeys field → k' ≠ k → nullish (prop o k') = true.

(** No key a field accepts is a name [Object.prototype] defines: what
    [json[k]] finds under such a key is an own property, and so is what
    [msg.x] finds, the field name being one of the keys. *)
Definition ownKeys (fields : list IR.Field) : Prop :=
  ∀ field k, field ∈ fields → k ∈ JSON.getFieldKeys field →
             isInherited k = false.

(** The spec's words for the read side: "accept jsonName, fall back to
    the generated attribute name, then to protoName, in that order",
    skipping a name that has been tried already. *)
Fixpoint skipDuplicates (tried names : list string) : list string :=
  match names with
  | [] => []
  | k :: rest =>
      if existsb (String.eqb k) tried then skipDuplicates tried rest
      else k :: skipDuplicates (k :: tried) rest
  end.

Definition fallbackKeys (field : IR.Field) : list string :=
  skipDuplicates [] [IR.jsonName field; IR.name field; IR.protoName field].

(** The value under the first of the keys that holds something other
    than [null] or [undefined], if there is one. *)
Definition selectedValue (field : IR.Field) (o : Obj) : option Val :=
  List.find (fun v => negb (nullish v)) (List.map (prop o) (fallbackKeys field)).

(** Reading by that selection: a field is assigned from its selected
    value when there is one and it is truthy. *)
Fixpoint readSelected `{JSON.Runtime} (fields : list IR.Field) (msg : Obj)
    (o : Obj) : Outcome Obj :=
  match fields with
  | [] => Ret msg
  | field :: rest =>
      let! msg' :=
        match selectedValue field o with
        | Some v => if truthy v then JSON.assign field v msg else Ret msg
        | None => Ret msg
        end in
      readSelected rest msg' o
  end.

(** A field whose JSON value is the value of the message itself: not a
    message, not a 64-bit integer, not bytes. *)
Definition plainField (field : IR.Field) : bool :=
  negb (IR.read field =? "readMessage")%string
  && negb (IR.tsType field =? "bigint")%string
  && negb (IR.read field =? "readBytes")%string.

(** Whether the generated JSON [_writeMessage] sets the key of the field,
    and whether [_readMessage] assigns the field again from what was
    written. *)
Definition emitted `{JSON.Runtime} (field : IR.Field) (msg : Obj) : bool :=
  JSON.emitFieldsWithDefaultValues
  || JSON.holds (JSON.writeGuard field) (prop msg (IR.name field)).

Definition restored `{JSON.Runtime} (field : IR.Field) (msg : Obj) : bool :=
  emitted field msg && truthy (prop msg (IR.name field)).

(* ===================================================================== *)
(** ** Concrete inputs used in the examples below *)
(* ===================================================================== *)

Module Examples.

(** [enum E { A = 0; B = 1; }] *)
Definition E : list IR.EnumValue :=
  [IR.mkEnumValue "A" 0; IR.mkEnumValue "B" 1].

(** A file whose only named type is [E], without message-typed, 64-bit
    or bytes fields; the reader, the writer and the JSON functions are
    never reached by the examples. *)
Definition noCodec {A B : Type} (_ : A) : Outcome B :=
  Throw (OtherError "not in this file").

#[local] Instance binary : Binary.Runtime := {|
  Binary.enumOf := λ _, E;
  Binary.initializeOf := λ _, VUndefined;
  Binary.readMessage := λ _ _, noCodec;
  Binary.readScalar := λ _, noCodec;
  Binary.readPackedValues := λ _, noCodec;
  Binary.BigInt := noCodec;
  Binary.toString := noCodec;
  Binary.toPropertyKey := λ _, ""%string;
  Binary.getResultBuffer := λ _, [];
  Binary.BinaryReader := λ _, [];
|}.

#[local] Instance json : JSON.Runtime := {|
  JSON.emitFieldsWithDefaultValues := false;
  JSON.useProtoFieldName := false;
  JSON.enumOf := λ _, E;
  JSON.initializeOf := λ _, VUndefined;
  JSON.readMessageOf := λ _ _, noCodec;
  JSON.writeMessageOf := λ _, noCodec;
  JSON.readMapOf := λ _, noCodec;
  JSON.writeMapOf := λ _, noCodec;
  JSON.BigInt := noCodec;
  JSON.toString := noCodec;
  JSON.encodeBase64Bytes := noCodec;
  JSON.decodeBase64Bytes := noCodec;
  JSON.stringify := λ _, ""%string;
  JSON.parse := noCodec;
  JSON.memberOf := λ _ _, VUndefined;
|}.

(** [message W { repeated int32 xs = 1; optional int32 opt = 2; E e = 3;
    string s = 4; }] *)
Definition xs : IR.Field :=
  IR.mkField "xs" "xs" "xs" 1 true false false "readInt32" "writePackedInt32"
             (Some "readPackedInt32"%string) "number" "number" (VNum 0).
Definition opt : IR.Field :=
  IR.mkField "opt" "opt" "opt" 2 false true false "readInt32" "writeInt32"
             None "number" "number" (VNum 0).
Definition e : IR.Field :=
  IR.mkField "e" "e" "e" 3 false false false "readEnum" "writeEnum"
             None "E" "EJSON" (VStr "A").
Definition s : IR.Field :=
  IR.mkField "s" "s" "s" 4 false false false "readString" "writeString"
             None "string" "string" (VStr "").
Definition W : list IR.Field := [xs; opt; e; s].

(** [message P { optional bytes data = 1; optional E oe = 2; }] and the
    message [{ data: new Uint8Array(0), oe: 'A' }], both fields set. *)
Definition data : IR.Field :=
  IR.mkField "data" "data" "data" 1 false true false "readBytes" "writeBytes"
             None "Uint8Array" "string" (VBytes []).
Definition p : Obj := <["data" := VBytes []]> (<["oe" := VStr "A"]> ∅).

(** [{ xs: [], opt: 0, e: 'B', s: '' }] *)
Definition w : Obj :=
  <["xs" := VArr []]> (<["opt" := VNum 0]> (<["e" := VStr "B"]>
  (<["s" := VStr ""]> ∅))).

(** [message F { int32 foo_bar = 1; }] *)
Definition foo_bar : IR.Field :=
  IR.mkField "fooBar" "foo_bar" "fooBar" 1 false false false "readInt32"
             "writeInt32" None "number" "number" (VNum 0).
Definition readF : list IR.Field → Obj → Val → Outcome Obj :=
  JSON._readMessage.

(** [F.initialize()], [{"foo_bar": 5}] and [{"foo_bar": 5, "fooBar": 0}] *)
Definition initialF : Obj := <["fooBar" := VNum 0]> ∅.
Definition jsonProtoKey : Obj := <["foo_bar" := VNum 5]> ∅.
Definition jsonBothKeys : Obj := <["fooBar" := VNum 0]> jsonProtoKey.

(** The two extremes of [goog/asserts]: failed assertions throw, or are
    ignored. *)
Definition assertsOn : Asserts :=
  {| assert_throws := true; fail_throws := true |}.
Definition assertsOff : Asserts :=
  {| assert_throws := false; fail_throws := false |}.

(** Ten bytes with the continuation bit, then two zero bytes; the block
    is the whole buffer. *)
Definition endless : list Z :=
  [128; 128; 128; 128; 128; 128; 128; 128; 128; 128; 0; 0].
Definition decoderEndless : BinaryDecoder.Decoder :=
  BinaryDecoder.new (Some endless) None None.

(** The varint of the zigzag encoding of 2^53 + 1, that is of 2^54 + 2. *)
Definition zigzagBig : list Z := [130; 128; 128; 128; 128; 128; 128; 32].

(** A block of two bytes at the start of a buffer of four. *)
Definition decoderBlock : BinaryDecoder.Decoder :=
  BinaryDecoder.new (Some [1; 2; 3; 4]) (Some 0) (Some 2).

(** [message Empty {}], [message W { ... }] as IR nodes, and a varint
    field numbered 9 with payload 5. *)
Definition Empty : IR.Message := IR.mkMessage "Empty" "EmptyJSON" false [].
Definition MessageW : IR.Message := IR.mkMessage "W" "WJSON" false W.
Definition field9 : Binary.WireField := Binary.mkWire 9 Binary.VARINT [5].

(** The ten-byte varint of 2^64 - 1, which is how -1 is written, and a
    padded varint of eleven bytes. *)
Definition minusOne : list Z :=
  [255; 255; 255; 255; 255; 255; 255; 255; 255; 1].
Definition elevenBytes : list Z :=
  [128; 128; 128; 128; 128; 128; 128; 128; 128; 128; 0].

(** Eight bytes: 0x04030201 and 0xFFFFFFFE, little-endian. *)
Definition eightBytes : list Z := [1; 2; 3; 4; 254; 255; 255; 255].

(** [H], U+00E9, U+20AC and U+1F600: one to four bytes in UTF-8. *)
Definition codePoints : list Z := [72; 233; 8364; 128512].

(** A client that allocates a decoder, moves its cursor, frees it,
    allocates again and frees again. *)
Definition calls : list BinaryDecoder.Call :=
  [BinaryDecoder.CallAlloc (Some [1; 2]) None None;
   BinaryDecoder.CallMethod 0 (BinaryDecoder.setCursor 1);
   BinaryDecoder.CallFree 0;
   BinaryDecoder.CallAlloc None None None;
   BinaryDecoder.CallFree 0].

(** One decoder in use, in the middle of its block and with its error
    flag set; the cache is empty. *)
Definition oneDecoder : BinaryDecoder.World :=
  BinaryDecoder.mkWorld
    (<[0%nat := BinaryDecoder.mkDecoder (Some [1; 2; 3; 4]) 1 3 2 true]> ∅)
    [] 1.

(** [message T { string to_string = 1; }] with the attribute name
    [toString], which every object inherits from [Object.prototype]. *)
Definition fieldToString : IR.Field :=
  IR.mkField "toString" "to_string" "toString" 1 false false false
             "readString" "writeString" None "string" "string" (VStr "").

(** [int32 ab = 1 [json_name = "a\\\\b"]]: the JSON name is the four
    characters a, backslash, backslash, b; between double quotes they
    denote the three characters a, backslash, b. *)
Definition backslash : IR.Field :=
  IR.mkField "ab" "ab" "a\\b" 1 false false false "readInt32" "writeInt32"
             None "number" "number" (VNum 0).
Definition jsonBackslash : Obj := <["a\\b" := VNum 5]> ∅.

(** The string of [codePoints] as it is written: the varint of its ten
    UTF-8 bytes, then the bytes. *)
Definition prefixed : list Z :=
  [10; 72; 195; 169; 226; 130; 172; 240; 159; 152; 128].

End Examples.

(* ===================================================================== *)
(** ** Enum converters: unknown numbers pass through, declared ones
       round-trip *)
(* ===================================================================== *)

Section EnumProperties.

Import EnumCodec.

Lemma fromInt_undeclared (values : list IR.EnumValue) (i : Z) :
  i ∉ declaredValues values → _fromInt values (VNum i) = VNum i.
Proof.
  induction values as [|v rest IH]; simpl; [done|].
  intros Hnot. apply not_elem_of_cons in Hnot as [Hne Hrest].
  destruct (Z.eqb_spec i (IR.ev_value v)); [done | auto].
Qed.

Lemma toInt_number (values : list IR.EnumValue) (i : Z) :
  _toInt values (VNum i) = VNum i.
Proof. induction values; simpl; auto. Qed.

(** A declared number is mapped to the name of the first enumerator that
    carries it. *)
Lemma fromInt_declared (values : list IR.EnumValue) (i : Z) :
  i ∈ declaredValues values →
  ∃ name, _fromInt values (VNum i) = VStr name
          ∧ IR.mkEnumValue name i ∈ values.
Proof.
  induction values as [|v rest IH]; simpl; intros Hin.
  - by apply elem_of_nil in Hin.
  - destruct (Z.eqb_spec i (IR.ev_value v)) as [->|Hne].
    + exists (IR.ev_name v). split; [done|]. destruct v. by left.
    + apply elem_of_cons in Hin as [?|Hin]; [done|].
      destruct (IH Hin) as (name & ? & ?). exists name. split; [done|]. by right.
Qed.

Lemma toInt_declared (values : list IR.EnumValue) (name : string) (i : Z) :
  NoDup (declaredNames values) →
  IR.mkEnumValue name i ∈ values →
  _toInt values (VStr name) = VNum i.
Proof.
  induction values as [|v rest IH]; simpl; intros Hnd Hin.
  - by apply elem_of_nil in Hin.
  - apply NoDup_cons in Hnd as [Hfresh Hnd].
    destruct (String.eqb_spec name (IR.ev_name v)) as [Heq|Hne].
    + apply elem_of_cons in Hin as [<-|Hin]; [done|].
      exfalso. apply Hfresh. rewrite <- Heq.
      change name with (IR.ev_name (IR.mkEnumValue name i)).
      by apply list_elem_of_fmap_2.
    + apply elem_of_cons in Hin as [<-|Hin]; [done | auto].
Qed.

End EnumProperties.

(** C6.  For an enum whose enumerator names are distinct: a declared
    number [i] is converted by [_fromInt] to the name of an enumerator
    with that number, and [_toInt] brings it back to [i]; a number that no
    enumerator carries is returned by [_fromInt] as it is, and [_toInt]
    returns it unchanged, so re-encoding keeps it. *)
Theorem enum_converters_round_trip (values : list IR.EnumValue) (i : Z) :
  NoDup (EnumCodec.declaredNames values) →
  (i ∈ EnumCodec.declaredValues values →
     (∃ name, EnumCodec._fromInt values (VNum i) = VStr name
              ∧ IR.mkEnumValue name i ∈ values)
     ∧ EnumCodec._toInt values (EnumCodec._fromInt values (VNum i)) = VNum i)
  ∧ (i ∉ EnumCodec.declaredValues values →
     EnumCodec._fromInt values (VNum i) = VNum i
     ∧ EnumCodec._toInt values (EnumCodec._fromInt values (VNum i)) = VNum i).
Proof.
  intros Hnd. split.
  - intros Hin. destruct (fromInt_declared values i Hin) as (name & Hfrom & Hdecl).
    split; [by exists name|].
    rewrite Hfrom. by apply toInt_declared.
  - intros Hnot. rewrite fromInt_undeclared by done.
    split; [done | apply toInt_number].
Qed.

Lemma enum_converters_round_trip_witness :
  EnumCodec._toInt Examples.E (EnumCodec._fromInt Examples.E (VNum 1)) = VNum 1
  ∧ EnumCodec._fromInt Examples.E (VNum 7) = VNum 7.
Proof.
  assert (Hnd : NoDup (EnumCodec.declaredNames Examples.E)) by compute_done.
  split.
  - destruct (enum_converters_round_trip Examples.E 1 Hnd) as [Hdeclared _].
    apply Hdeclared.
    cbv [EnumCodec.declaredValues Examples.E List.map IR.ev_value]. compute_done.
  - destruct (enum_converters_round_trip Examples.E 7 Hnd) as [_ Hunknown].
    apply Hunknown.
    cbv [EnumCodec.declaredValues Examples.E List.map IR.ev_value]. compute_done.
Defined.

(** Scenario 5 of the spec: the unknown number 7 surfaces as 7. *)
Example enum_unknown_seven :
  EnumCodec._fromInt Examples.E (VNum 7) = VNum 7
  ∧ EnumCodec._fromInt Examples.E (VNum 1) = VStr "B"
  ∧ EnumCodec._toInt Examples.E (VStr "B") = VNum 1.
Proof. done. Qed.

(* ===================================================================== *)
(** ** Binary [_writeMessage]: which fields are written *)
(* ===================================================================== *)

Section WriteProperties.

Context `{Binary.Runtime}.








End WriteProperties.



(** The value is looked up as the code looks it up: for a string field
    named [toString] the empty message holds the inherited method, which
    is truthy, and the field is written. *)
Example inherited_value_written :
  Binary.writeField (H := Examples.binary) Examples.fieldToString ∅
  = Some (Binary.mkCall "writeString" 1
            (Binary.ArgValue (VBuiltin "toString")))
  ∧ Binary.writeField (H := Examples.binary) Examples.fieldToString
      (<["toString"%string := VStr ""]> ∅) = None.
Proof. by vm_compute. Qed.


(* ===================================================================== *)
(** ** JSON [_readMessage]: the key chain *)
(* ===================================================================== *)

Section KeyChain.

Context `{JSON.Runtime}.

(** A chain selects its first operand that is not [null] or
    [undefined]; when there is none its value is falsy. *)
Lemma fold_coalesce_found (vs : list Val) (a : Val) :
  nullish a = false → fold_left coalesce vs a = a.
Proof.
  intros Ha. induction vs as [|b vs IH]; simpl; [done|].
  replace (coalesce a b) with a by (unfold coalesce; by rewrite Ha). done.
Qed.

Lemma chain_find (vs : list Val) :
  match List.find (fun v => negb (nullish v)) vs with
  | Some v => JSON.chain vs = v
  | None => truthy (JSON.chain vs) = false
  end.
Proof.
  destruct vs as [|a vs]; [done|]. cbn [JSON.chain].
  revert a. induction vs as [|b vs IH]; intros a.
  - simpl. destruct (nullish a) eqn:Ha; simpl; [by destruct a | done].
  - cbn [List.find fold_left]. destruct (nullish a) eqn:Ha; cbn [negb].
    + replace (coalesce a b) with b by (unfold coalesce; by rewrite Ha).
      exact (IH b).
    + exact (fold_coalesce_found (b :: vs) a Ha).
Qed.

(** The printed chain leaves out [name] when it equals [jsonName] and
    [protoName] when it equals [name]; a name it tries twice
    ([protoName] equal to [jsonName] alone) changes nothing: it selects
    what the names in order, duplicates skipped, select. *)
Lemma key_literal (name : string) : JSON.literal name = true → JSON.key name = name.
Proof.
  unfold JSON.literal, JSON.key. destruct (JSON.literalValue name); [|done].
  by intros ->%String.eqb_eq.
Qed.

Lemma selected_printed_chain (field : IR.Field) (o : Obj) :
  JSON.literalKeys field = true →
  List.find (fun v => negb (nullish v))
            (List.map (prop o) (JSON.getFieldKeys field))
  = selectedValue field o.
Proof.
  intros [[Hj Hn]%andb_prop Hp]%andb_prop.
  unfold selectedValue, fallbackKeys, JSON.getFieldKeys.
  rewrite (key_literal _ Hj), (key_literal _ Hn), (key_literal _ Hp).
  cbn [skipDuplicates existsb].
  rewrite !orb_false_r, (String.eqb_sym (IR.protoName field) (IR.jsonName field)).
  destruct (String.eqb_spec (IR.name field) (IR.jsonName field)) as [Hnj|Hnj];
    destruct (String.eqb_spec (IR.protoName field) (IR.name field)) as [Hpn|Hpn];
    destruct (String.eqb_spec (IR.jsonName field) (IR.protoName field))
      as [Hjp|Hjp];
    try congruence; cbn [negb orb app List.map List.find]; try done.
  assert (Hsame : prop o (IR.protoName field) = prop o (IR.jsonName field))
    by congruence.
  rewrite Hsame.
  generalize (prop o (IR.jsonName field)), (prop o (IR.name field)).
  intros a b. by destruct (nullish a), (nullish b).
Qed.

Lemma readField_selected (field : IR.Field) (o : Obj) (msg : Obj) :
  JSON.literalKeys field = true →
  JSON.readField field (VObj o) msg
  = match selectedValue field o with
    | Some v => if truthy v then JSON.assign field v msg else Ret msg
    | None => Ret msg
    end.
Proof.
  intros Hliteral. rewrite <- selected_printed_chain by done.
  pose proof (chain_find (List.map (prop o) (JSON.getFieldKeys field))) as Hc.
  change (JSON.readField field (VObj o) msg)
    with (let v := JSON.chain (List.map (prop o) (JSON.getFieldKeys field)) in
          if truthy v then JSON.assign field v msg else Ret msg).
  cbv zeta. destruct (List.find _ _) as [v|]; by rewrite Hc.
Qed.

End KeyChain.

(** C5, as it holds.  For fields whose names stand for themselves
    between the double quotes they are printed in (no backslash, double
    quote or line break) and every JSON object, the generated JSON
    [_readMessage] does what reading by selection does: for each field
    in turn it looks up [jsonName], then the attribute name, then
    [protoName], a name tried already being skipped, takes the value
    under the first of them that holds something other than [null] or
    [undefined], and assigns the field from it when it is truthy.  A
    lookup finds an own property of the object or one it inherits from
    [Object.prototype]. *)
Theorem json_key_fallback_order `{JSON.Runtime}
    (fields : list IR.Field) (msg o : Obj) :
  Forall (λ field, JSON.literalKeys field = true) fields →
  JSON._readMessage fields msg (VObj o) = readSelected fields msg o.
Proof.
  intros Hliteral. revert msg.
  induction Hliteral as [|field rest Hfield _ IH]; intros msg; [done|].
  cbn [JSON._readMessage readSelected]. rewrite readField_selected by done.
  destruct (match selectedValue field o with
            | Some v => if truthy v then JSON.assign field v msg else Ret msg
            | None => Ret msg
            end) as [msg'|e]; [apply IH | done].
Qed.

Lemma json_key_fallback_order_witness :
  fallbackKeys Examples.foo_bar = ["fooBar"; "foo_bar"]%string
  ∧ Examples.readF [Examples.foo_bar] Examples.initialF
                   (VObj Examples.jsonProtoKey)
    = Ret (<["fooBar"%string := VNum 5]> ∅).
Proof.
  split; [reflexivity|]. unfold Examples.readF.
  rewrite (json_key_fallback_order (H := Examples.json) [Examples.foo_bar]
             Examples.initialF Examples.jsonProtoKey);
    [by vm_compute | by repeat constructor].
Defined.

(** C5, as stated, fails for a name that does not stand for itself
    between double quotes: the JSON name a, backslash, backslash, b is
    printed as the literal of the key a, backslash, b, so an object that
    holds a value under the JSON name is not read, where reading by
    selection assigns it. *)
Lemma json_name_with_backslash :
  JSON.literalKeys Examples.backslash = false
  ∧ JSON.getFieldKeys Examples.backslash = ["a\b"; "ab"]%string
  ∧ prop Examples.jsonBackslash (IR.jsonName Examples.backslash) = VNum 5
  ∧ JSON._readMessage (H := Examples.json) [Examples.backslash] ∅
      (VObj Examples.jsonBackslash) = Ret ∅
  ∧ readSelected (H := Examples.json) [Examples.backslash] ∅
      Examples.jsonBackslash = Ret (<["ab"%string := VNum 5]> ∅)
  ∧ JSON._readMessage (H := Examples.json) [Examples.backslash] ∅
      (VObj Examples.jsonBackslash)
    ≠ readSelected (H := Examples.json) [Examples.backslash] ∅
        Examples.jsonBackslash.
Proof. by vm_compute. Qed.

(** A key the object does not hold itself is found on
    [Object.prototype]: for a field named [toString] the empty object
    yields the inherited method, which is assigned, while an own empty
    string is not. *)
Example json_inherited_key_selected :
  selectedValue Examples.fieldToString ∅ = Some (VBuiltin "toString")
  ∧ JSON._readMessage (H := Examples.json) [Examples.fieldToString] ∅ (VObj ∅)
    = Ret (<["toString"%string := VBuiltin "toString"]> ∅)
  ∧ JSON._readMessage (H := Examples.json) [Examples.fieldToString] ∅
      (VObj (<["toString"%string := VStr ""]> ∅))
    = Ret ∅.
Proof. by vm_compute. Qed.

(* ===================================================================== *)
(** ** JSON [_readMessage]: falsy values are not assigned *)
(* ===================================================================== *)

Section FalsyValues.

Lemma nullish_falsy (v : Val) : nullish v = true → truthy v = false.
Proof. by destruct v. Qed.

Lemma alike_truthy (a b : Val) :
  alike a b → truthy a = truthy b ∧ (truthy a = true → a = b).
Proof.
  intros [->|[Ha Hb]]; [done|].
  rewrite (nullish_falsy a Ha), (nullish_falsy b Hb). done.
Qed.

Lemma coalesce_alike (a a' b b' : Val) :
  alike a a' → alike b b' → alike (coalesce a b) (coalesce a' b').
Proof.
  unfold coalesce. intros [->|[Ha Ha']] Hb.
  - destruct (nullish a'); [done | by left].
  - by rewrite Ha, Ha'.
Qed.

Lemma fold_coalesce_alike (vs vs' : list Val) (a a' : Val) :
  Forall2 alike vs vs' → alike a a' →
  alike (fold_left coalesce vs a) (fold_left coalesce vs' a').
Proof.
  intros Hvs. revert a a'.
  induction Hvs as [|b b' vs vs' Hb _ IH]; simpl; [done|].
  intros a a' Ha. apply IH. by apply coalesce_alike.
Qed.

Lemma chain_alike (vs vs' : list Val) :
  Forall2 alike vs vs' → alike (JSON.chain vs) (JSON.chain vs').
Proof.
  intros [|a a' ? ? Ha Hvs]; simpl; [by left|]. by apply fold_coalesce_alike.
Qed.

Lemma fold_coalesce_falsy (vs : list Val) (a : Val) :
  Forall (fun v => truthy v = false) vs → truthy a = false →
  truthy (fold_left coalesce vs a) = false.
Proof.
  intros Hvs. revert a. induction Hvs as [|b vs Hb _ IH]; simpl; [done|].
  intros a Ha. apply IH. unfold coalesce. by destruct (nullish a).
Qed.

Lemma chain_falsy (vs : list Val) :
  Forall (fun v => truthy v = false) vs → truthy (JSON.chain vs) = false.
Proof.
  intros [|a ? Ha Hvs]; simpl; [done|]. by apply fold_coalesce_falsy.
Qed.

(** Reading a key of the object with [k] set, and with [k] removed. *)
Lemma prop_insert (o : Obj) (k k' : string) (v : Val) :
  prop (<[k := v]> o) k' = if decide (k = k') then v else prop o k'.
Proof.
  unfold prop. destruct (decide (k = k')) as [->|Hne].
  - by rewrite lookup_insert_eq.
  - by rewrite lookup_insert_ne.
Qed.

Lemma prop_delete (o : Obj) (k k' : string) :
  prop (delete k o) k' = if decide (k = k') then inherited k else prop o k'.
Proof.
  unfold prop. destruct (decide (k = k')) as [->|Hne].
  - by rewrite lookup_delete_eq.
  - by rewrite lookup_delete_ne.
Qed.

Lemma inherited_none (k : string) : isInherited k = false → inherited k = VUndefined.
Proof. unfold inherited. by intros ->. Qed.

Lemma prop_own (o : Obj) (k : string) :
  isInherited k = false → prop o k = default VUndefined (o !! k).
Proof. intros Hk. unfold prop. destruct (o !! k); [done | by apply inherited_none]. Qed.

Context `{JSON.Runtime}.

Abbreviation readField := JSON.readField.

Lemma readField_object (field : IR.Field) (o : Obj) (msg : Obj) :
  readField field (VObj o) msg
  = let v := JSON.chain (List.map (prop o) (JSON.getFieldKeys field)) in
    if truthy v
    then JSON.assign field v msg
    else Ret msg.
Proof. reflexivity. Qed.

(** The statement of a field does the same whatever the selected values
    are, as long as they are alike. *)
Lemma readField_alike (field : IR.Field) (o o' : Obj) (msg : Obj) :
  alike (JSON.chain (List.map (prop o) (JSON.getFieldKeys field)))
        (JSON.chain (List.map (prop o') (JSON.getFieldKeys field))) →
  readField field (VObj o) msg = readField field (VObj o') msg.
Proof.
  intros Halike. apply alike_truthy in Halike as [Ht Heq].
  rewrite !readField_object. cbv zeta. rewrite <- Ht.
  destruct (truthy _) eqn:Hx; [|done]. by rewrite <- Heq.
Qed.

Lemma readField_both_falsy (field : IR.Field) (o o' : Obj) (msg : Obj) :
  truthy (JSON.chain (List.map (prop o) (JSON.getFieldKeys field))) = false →
  truthy (JSON.chain (List.map (prop o') (JSON.getFieldKeys field))) = false →
  readField field (VObj o) msg = readField field (VObj o') msg.
Proof.
  intros Ho Ho'. rewrite !readField_object. cbv zeta. by rewrite Ho, Ho'.
Qed.

Lemma readField_falsy_key (field : IR.Field) (o : Obj) (k : string) (v : Val)
    (msg : Obj) :
  isInherited k = false →
  truthy v = false →
  nullish v = true
  ∨ (k ∈ JSON.getFieldKeys field →
     ∀ k', k' ∈ JSON.getFieldKeys field → k' ≠ k → nullish (prop o k') = true) →
  readField field (VObj (<[k := v]> o)) msg
  = readField field (VObj (delete k o)) msg.
Proof.
  intros Hk Hv [Hnull|Hkeys].
  - apply readField_alike, chain_alike.
    apply Forall2_fmap, Forall_Forall2_diag, Forall_forall. intros k' _.
    rewrite prop_insert, prop_delete, (inherited_none k Hk).
    destruct (decide (k = k')); [by right | by left].
  - destruct (decide (k ∈ JSON.getFieldKeys field)) as [Hin|Hnot].
    + apply readField_both_falsy; apply chain_falsy, Forall_fmap, Forall_forall;
        intros k' Hk'; simpl;
        rewrite ?prop_insert, ?prop_delete, ?(inherited_none k Hk);
        destruct (decide (k = k')) as [->|Hne]; try done;
        apply nullish_falsy, (Hkeys Hin); done.
    + apply readField_alike. left. f_equal.
      apply list_eq_Forall2, Forall2_fmap, Forall_Forall2_diag, Forall_forall.
      intros k' Hk'. rewrite prop_insert, prop_delete.
      destruct (decide (k = k')) as [->|]; done.
Qed.

End FalsyValues.

(** C10, as it holds.  Decoding a JSON object that maps a key to a falsy
    value (0, the empty string, [false], [null]) gives the same message as
    decoding the object without that key, when the key is not a name
    [Object.prototype] defines (without the key the lookup would find
    the inherited property) and either the value is [null], or no field
    that accepts the key has a value under another of its accepted keys.
    The names of the fields stand for themselves between the double
    quotes they are printed in. *)
Theorem json_falsy_value_ignored `{JSON.Runtime}
    (fields : list IR.Field) (msg o : Obj) (k : string) (v : Val) :
  Forall (λ field, JSON.literalKeys field = true) fields →
  isInherited k = false →
  truthy v = false →
  nullish v = true ∨ noOtherKey fields o k →
  JSON._readMessage fields msg (VObj (<[k := v]> o))
  = JSON._readMessage fields msg (VObj (delete k o)).
Proof.
  intros _ Hk Hv Hcond. revert msg.
  induction fields as [|field rest IH]; intros msg; simpl; [done|].
  rewrite (readField_falsy_key field o k v msg Hk Hv).
  - destruct (JSON.readField field _ msg) as [msg'|]; simpl; [|done].
    apply IH. destruct Hcond as [?|Hkeys]; [by left | right].
    intros g Hg. apply Hkeys. by right.
  - destruct Hcond as [?|Hkeys]; [by left | right].
    apply Hkeys. by left.
Qed.

Lemma json_falsy_value_ignored_witness :
  Examples.readF [Examples.foo_bar] Examples.initialF
                 (VObj (<["fooBar"%string := VNum 0]> ∅))
  = Examples.readF [Examples.foo_bar] Examples.initialF
                   (VObj (delete "fooBar"%string ∅)).
Proof.
  apply (json_falsy_value_ignored (H := Examples.json) [Examples.foo_bar]
           Examples.initialF ∅ "fooBar"%string (VNum 0));
    [by repeat constructor | reflexivity | reflexivity |].
  right. intros field ->%list_elem_of_singleton _ k' Hk' Hne.
  apply list_elem_of_In in Hk'. vm_compute in Hk'.
  destruct Hk' as [<-|[<-|[]]]; [done | reflexivity].
Defined.

(** Under a name [Object.prototype] defines the two objects decode
    differently: with [toString] mapped to the empty string nothing is
    assigned, without the key the inherited method is. *)
Example json_falsy_value_inherited_key :
  JSON._readMessage (H := Examples.json) [Examples.fieldToString] ∅
    (VObj (<["toString"%string := VStr ""]> ∅))
  ≠ JSON._readMessage (H := Examples.json) [Examples.fieldToString] ∅
      (VObj (delete "toString"%string (<["toString"%string := VStr ""]> ∅))).
Proof. by vm_compute. Qed.

(** C10, as stated, fails: 0 under the JSON name stops the chain before
    the proto name is tried, so [{"fooBar": 0, "foo_bar": 5}] decodes to
    [fooBar = 0] and [{"foo_bar": 5}] to [fooBar = 5]. *)
Lemma json_default_hides_fallback_key :
  Examples.jsonBothKeys = <["fooBar"%string := VNum 0]> Examples.jsonProtoKey
  ∧ delete "fooBar"%string Examples.jsonBothKeys = Examples.jsonProtoKey
  ∧ Examples.readF [Examples.foo_bar] Examples.initialF
                   (VObj Examples.jsonBothKeys)
    = Ret (<["fooBar"%string := VNum 0]> ∅)
  ∧ Examples.readF [Examples.foo_bar] Examples.initialF
                   (VObj Examples.jsonProtoKey)
    = Ret (<["fooBar"%string := VNum 5]> ∅)
  ∧ Examples.readF [Examples.foo_bar] Examples.initialF
                   (VObj Examples.jsonBothKeys)
    ≠ Examples.readF [Examples.foo_bar] Examples.initialF
                     (VObj (delete "fooBar"%string Examples.jsonBothKeys)).
Proof.
  assert (Hdel : delete "fooBar"%string Examples.jsonBothKeys
                 = Examples.jsonProtoKey) by (by vm_compute).
  split; [done|]. split; [done|]. rewrite Hdel.
  assert (H0 : Examples.readF [Examples.foo_bar] Examples.initialF
                 (VObj Examples.jsonBothKeys)
               = Ret (<["fooBar"%string := VNum 0]> ∅)) by (by vm_compute).
  assert (H5 : Examples.readF [Examples.foo_bar] Examples.initialF
                 (VObj Examples.jsonProtoKey)
               = Ret (<["fooBar"%string := VNum 5]> ∅)) by (by vm_compute).
  split; [done|]. split; [done|]. rewrite H0, H5.
  by intros [=].
Qed.

(* ===================================================================== *)
(** ** Messages without fields *)
(* ===================================================================== *)

(** C7.  For a message type with no fields (and so not a map entry): the
    generated binary [encode] returns the empty byte sequence for every
    argument, the generated binary [decode] returns the empty message
    [{}] for every input, and the generated JSON [encode] returns the
    string ["{}"]. *)
Theorem empty_message_codecs {BR : Binary.Runtime} {JR : JSON.Runtime}
    (m : IR.Message) :
  IR.fields m = [] → IR.isMap m = false →
  (∀ msg, Binary.encode m msg = Some [])
  ∧ (∀ bytes, Binary.decode m bytes = Some (Ret ∅))
  ∧ (∀ msg, JSON.encode m msg = Some (Ret "{}"%string)).
Proof.
  intros Hfields Hmap.
  unfold Binary.encode, Binary.decode, JSON.encode.
  rewrite Hfields, Hmap. done.
Qed.

Lemma empty_message_codecs_witness :
  Binary.encode (H := Examples.binary) Examples.Empty Examples.w = Some []
  ∧ Binary.decode (H := Examples.binary) Examples.Empty [8; 150; 1] = Some (Ret ∅)
  ∧ JSON.encode (H := Examples.json) Examples.Empty Examples.w
    = Some (Ret "{}"%string).
Proof.
  destruct (empty_message_codecs (BR := Examples.binary) (JR := Examples.json)
              Examples.Empty eq_refl eq_refl) as (Henc & Hdec & Hjson).
  split; [apply Henc|]. split; [apply Hdec | apply Hjson].
Defined.

(* ===================================================================== *)
(** ** Binary [_readMessage]: fields that are not declared *)
(* ===================================================================== *)

Section UnknownFields.

Context `{Binary.Runtime}.

Lemma selectCase_undeclared (fields : list IR.Field) (n : Z) :
  n ∉ List.map IR.index fields → Binary.selectCase fields n = None.
Proof.
  unfold Binary.selectCase.
  induction fields as [|field rest IH]; simpl; [done|].
  intros Hnot. apply not_elem_of_cons in Hnot as [Hne Hrest].
  destruct (Z.eqb_spec (IR.index field) n); [done | auto].
Qed.

(** An undeclared number reaches [default:], where the field is skipped
    and the message is left as it is. *)
Lemma dispatch_undeclared (inMap : bool) (fields : list IR.Field) (msg : Obj)
    (u : Binary.WireField) :
  Binary.fieldNumber u ∉ List.map IR.index fields →
  Binary.dispatch inMap fields msg u = (Ret msg, Binary.Skipped u).
Proof.
  intros Hnot. unfold Binary.dispatch.
  by rewrite selectCase_undeclared.
Qed.

(** The loop over a concatenated input. *)
Lemma readLoop_app (inMap : bool) (fields : list IR.Field) (msg : Obj)
    (xs ys : list Binary.WireField) :
  Binary.readLoop inMap fields msg (xs ++ ys)
  = match Binary.readLoop inMap fields msg xs with
    | (Ret msg1, evs) =>
        let '(r, evs') := Binary.readLoop inMap fields msg1 ys in
        (r, evs ++ evs')
    | (Throw e, evs) => (Throw e, evs)
    end.
Proof.
  revert msg. induction xs as [|x xs IH]; intros msg; simpl.
  - by destruct (Binary.readLoop inMap fields msg ys).
  - destruct (Binary.dispatch inMap fields msg x) as [[msg'|e] ev]; [|done].
    rewrite IH.
    destruct (Binary.readLoop inMap fields msg' xs) as [[msg1|e] evs]; [|done].
    by destruct (Binary.readLoop inMap fields msg1 ys).
Qed.

Lemma readMessage_loop (m : IR.Message) (msg : Obj)
    (input : list Binary.WireField) :
  IR.fields m ≠ [] →
  Binary._readMessage m msg input
  = Binary.readLoop (IR.isMap m) (IR.fields m) msg input.
Proof. unfold Binary._readMessage. by destruct (IR.fields m). Qed.

(** A message type without fields: [_readMessage] is [return _msg;]. *)
Lemma readMessage_no_fields (m : IR.Message) (msg : Obj)
    (input : list Binary.WireField) :
  IR.fields m = [] → Binary._readMessage m msg input = (Ret msg, []).
Proof. unfold Binary._readMessage. by intros ->. Qed.

End UnknownFields.

(** C8, as it holds.  For a message type with at least one field and an
    input in which the field [u] carries a number the type does not
    declare: when the fields before [u] decode without an exception, the
    loop reaches the default case at [u], skips it, and the result is the
    result of decoding the input without [u], with the one skip less in
    the trace; when a field before [u] throws, both decodings end there
    with that exception. *)
Theorem unknown_field_skipped `{Binary.Runtime} (m : IR.Message) (msg : Obj)
    (pre post : list Binary.WireField) (u : Binary.WireField) :
  IR.fields m ≠ [] →
  Binary.fieldNumber u ∉ List.map IR.index (IR.fields m) →
  (∀ msg1 evs r evs',
     Binary._readMessage m msg pre = (Ret msg1, evs) →
     Binary._readMessage m msg1 post = (r, evs') →
     Binary._readMessage m msg (pre ++ u :: post)
     = (r, evs ++ Binary.Skipped u :: evs')
     ∧ Binary._readMessage m msg (pre ++ post) = (r, evs ++ evs'))
  ∧ (∀ e evs,
     Binary._readMessage m msg pre = (Throw e, evs) →
     Binary._readMessage m msg (pre ++ u :: post) = (Throw e, evs)
     ∧ Binary._readMessage m msg (pre ++ post) = (Throw e, evs)).
Proof.
  intros Hfields Hu. rewrite !readMessage_loop by done. split.
  - intros msg1 evs r evs' Hpre Hpost.
    rewrite readMessage_loop in Hpost by done.
    rewrite !readLoop_app, Hpre. simpl.
    rewrite dispatch_undeclared by done. by rewrite Hpost.
  - intros e evs Hpre. by rewrite !readLoop_app, Hpre.
Qed.

Lemma unknown_field_skipped_witness :
  Binary._readMessage (H := Examples.binary) Examples.MessageW Examples.w
                      [Examples.field9]
  = (Ret Examples.w, [Binary.Skipped Examples.field9])
  ∧ Binary._readMessage (H := Examples.binary) Examples.MessageW Examples.w []
    = (Ret Examples.w, []).
Proof.
  assert (Hfields : IR.fields Examples.MessageW ≠ []) by done.
  assert (Hu : Binary.fieldNumber Examples.field9
               ∉ List.map IR.index (IR.fields Examples.MessageW)).
  { rewrite list_elem_of_In. simpl. intuition discriminate. }
  destruct (unknown_field_skipped (H := Examples.binary) Examples.MessageW
              Examples.w [] [] Examples.field9 Hfields Hu) as [Hok _].
  apply (Hok Examples.w [] (Ret Examples.w) []); reflexivity.
Defined.

(** C8, as stated, fails for a message type without fields: its
    [_readMessage] has no loop and no default case, so the undeclared
    field is never dispatched on nor skipped. *)
Lemma unknown_field_not_skipped_by_empty_message :
  (Binary.fieldNumber Examples.field9
   ∉ List.map IR.index (IR.fields Examples.Empty))
  ∧ Binary._readMessage (H := Examples.binary) Examples.Empty ∅
                        [Examples.field9]
    = (Ret ∅, [])
  ∧ (Binary.Skipped Examples.field9
     ∉ snd (Binary._readMessage (H := Examples.binary) Examples.Empty ∅
                                [Examples.field9])).
Proof.
  split; [apply not_elem_of_nil|]. split; [reflexivity|].
  apply not_elem_of_nil.
Qed.

(* ===================================================================== *)
(** ** The decoder instance cache *)
(* ===================================================================== *)

Section InstanceCache.

Import BinaryDecoder.

Lemma alloc_cache_length (opt_bytes : option (list Z))
    (opt_start opt_length : option Z) (w : World) :
  (length (instanceCache_ (alloc opt_bytes opt_start opt_length w).2)
   ≤ length (instanceCache_ w))%nat.
Proof.
  unfold alloc. destruct (last (instanceCache_ w)); simpl; [|done].
  rewrite length_take. lia.
Qed.

Lemma free_cache (this : nat) (w : World) :
  instanceCache_ (free this w)
  = if (length (instanceCache_ w) <? 100)%nat
    then instanceCache_ w ++ [this] else instanceCache_ w.
Proof. unfold free. by destruct (_ <? _)%nat. Qed.

Lemma free_heap (this : nat) (w : World) :
  heap (free this w) = alter clear this (heap w).
Proof. unfold free. by destruct (_ <? _)%nat. Qed.

Lemma free_bounded (this : nat) (w : World) : bounded w → bounded (free this w).
Proof.
  unfold bounded. rewrite free_cache.
  destruct (Nat.ltb_spec (length (instanceCache_ w)) 100); [|done].
  rewrite length_app. simpl. lia.
Qed.

Lemma step_bounded (w : World) (op : CacheOp) : bounded w → bounded (step w op).
Proof.
  destruct op as [b s l|this]; simpl.
  - unfold bounded. pose proof (alloc_cache_length b s l w). lia.
  - apply free_bounded.
Qed.

Lemma run_bounded (ops : list CacheOp) (w : World) :
  bounded w → bounded (run ops w).
Proof.
  unfold run. revert w. induction ops as [|op ops IH]; simpl; [done|].
  intros w Hw. by apply IH, step_bounded.
Qed.

End InstanceCache.

(** C9.  The instance cache never holds more than 100 decoders: from a
    cache of at most 100 entries, every sequence of [alloc] and [free]
    calls leads to a cache of at most 100 entries; and [free] clears the
    decoder it is called on and appends it to the cache only when the
    cache holds fewer than 100, leaving a full cache as it is. *)
Theorem instance_cache_bounded (w : BinaryDecoder.World)
    (ops : list BinaryDecoder.CacheOp) :
  (length (BinaryDecoder.instanceCache_ w) ≤ 100)%nat →
  (length (BinaryDecoder.instanceCache_ (BinaryDecoder.run ops w)) ≤ 100)%nat
  ∧ ∀ this : nat,
      let w' := BinaryDecoder.run ops w in
      ((length (BinaryDecoder.instanceCache_ w') < 100)%nat →
         BinaryDecoder.instanceCache_ (BinaryDecoder.free this w')
         = BinaryDecoder.instanceCache_ w' ++ [this])
      ∧ ((100 ≤ length (BinaryDecoder.instanceCache_ w'))%nat →
         BinaryDecoder.instanceCache_ (BinaryDecoder.free this w')
         = BinaryDecoder.instanceCache_ w')
      ∧ (∀ d, BinaryDecoder.heap w' !! this = Some d →
         BinaryDecoder.heap (BinaryDecoder.free this w') !! this
         = Some BinaryDecoder.empty).
Proof.
  intros Hw. split; [by apply run_bounded|].
  intros this w'. rewrite free_cache, free_heap.
  split; [|split].
  - intros Hlt. apply Nat.ltb_lt in Hlt. by rewrite Hlt.
  - intros Hge. apply Nat.ltb_ge in Hge. by rewrite Hge.
  - intros d Hd. rewrite lookup_alter_eq, Hd. done.
Qed.

Lemma instance_cache_bounded_witness :
  (length (BinaryDecoder.instanceCache_
             (BinaryDecoder.run
                (replicate 150 (BinaryDecoder.OpAlloc None None None)
                 ++ List.map BinaryDecoder.OpFree (seq 0 150)
                 ++ [BinaryDecoder.OpAlloc (Some [8%Z; 1%Z]) None None])
                BinaryDecoder.initial)) ≤ 100)%nat.
Proof.
  apply (instance_cache_bounded BinaryDecoder.initial). simpl. lia.
Defined.

(** After 150 decoders are allocated and all freed, the cache holds the
    first 100 of them. *)
Example instance_cache_fills_to_100 :
  BinaryDecoder.instanceCache_
    (BinaryDecoder.run
       (replicate 150 (BinaryDecoder.OpAlloc None None None)
        ++ List.map BinaryDecoder.OpFree (seq 0 150))
       BinaryDecoder.initial)
  = seq 0 100.
Proof. by vm_compute. Qed.

(* ===================================================================== *)
(** ** Running the decoder *)
(* ===================================================================== *)

Section DecoderRuns.

Import BinaryDecoder.

Context `{Asserts}.

Lemma run_bind {A B} (m : M A) (k : A → M B) (d d' : Decoder) (a : A) :
  m d = (Ret a, d') → bind m k d = k a d'.
Proof. unfold bind. by intros ->. Qed.

Lemma run_bind_throw {A B} (m : M A) (k : A → M B) (d d' : Decoder) (e : Exn) :
  m d = (Throw e, d') → bind m k d = (Throw e, d').
Proof. unfold bind. by intros ->. Qed.

Lemma withCursor_twice (d : Decoder) (c c' : Z) :
  withCursor (withCursor d c) c' = withCursor d c'.
Proof. done. Qed.

Lemma withCursor_same (d : Decoder) : withCursor d (cursor_ d) = d.
Proof. by destruct d. Qed.

Lemma run_theBytes (d : Decoder) (bs : list Z) :
  bytes_ d = Some bs → theBytes d = (Ret bs, d).
Proof. unfold theBytes. by intros ->. Qed.

Lemma run_nextByte (d : Decoder) (bs : list Z) :
  bytes_ d = Some bs →
  nextByte d = (Ret (index bs (cursor_ d)), withCursor d (cursor_ d + 1)).
Proof.
  intros Hbs. unfold nextByte, bind, get, set_cursor, theBytes. simpl.
  by rewrite Hbs.
Qed.

Lemma ge_not_lt (t : option Z) (k : Z) : JS.ge t k = true → JS.lt t k = false.
Proof. destruct t; simpl; [lia | done]. Qed.

(** A loop that reads [n] bytes with the continuation bit reads them all
    and leaves the last one in [temp]. *)
Lemma lowLoop_continues (n : nat) (i : Z) (t : option Z) (low : Z)
    (d : Decoder) (bs : list Z) :
  bytes_ d = Some bs → JS.ge t 128 = true →
  (∀ j, 0 <= j < Z.of_nat n → JS.ge (index bs (cursor_ d + j)) 128 = true) →
  ∃ t' low',
    lowLoop n i t low d
    = (Ret (t', low'), withCursor d (cursor_ d + Z.of_nat n))
    ∧ JS.ge t' 128 = true.
Proof.
  revert i t low d. induction n as [|n IH]; intros i t low d Hbs Ht Hge.
  - exists t, low. simpl. rewrite Z.add_0_r, withCursor_same. done.
  - simpl lowLoop. rewrite Ht.
    rewrite (run_bind _ _ _ _ _ (run_nextByte d bs Hbs)).
    destruct (IH (i + 1) (index bs (cursor_ d))
                 (JS.or low (JS.shl (JS.and (JS.num (index bs (cursor_ d))) 127)
                                    (i * 7)))
                 (withCursor d (cursor_ d + 1)) Hbs) as (t' & low' & Hrun & Ht').
    + rewrite <- (Z.add_0_r (cursor_ d)). apply Hge. lia.
    + intros j Hj. simpl. rewrite <- Z.add_assoc. apply Hge. lia.
    + exists t', low'. rewrite Hrun. split; [|done].
      rewrite withCursor_twice. simpl. do 2 f_equal. lia.
Qed.

Lemma highLoop_continues (n : nat) (i : Z) (t : option Z) (high : Z)
    (d : Decoder) (bs : list Z) :
  bytes_ d = Some bs → JS.ge t 128 = true →
  (∀ j, 0 <= j < Z.of_nat n → JS.ge (index bs (cursor_ d + j)) 128 = true) →
  ∃ t' high',
    highLoop n i t high d
    = (Ret (t', high'), withCursor d (cursor_ d + Z.of_nat n))
    ∧ JS.ge t' 128 = true.
Proof.
  revert i t high d. induction n as [|n IH]; intros i t high d Hbs Ht Hge.
  - exists t, high. simpl. rewrite Z.add_0_r, withCursor_same. done.
  - simpl highLoop. rewrite Ht.
    rewrite (run_bind _ _ _ _ _ (run_nextByte d bs Hbs)).
    destruct (IH (i + 1) (index bs (cursor_ d))
                 (JS.or high (JS.shl (JS.and (JS.num (index bs (cursor_ d))) 127)
                                     (i * 7 + 3)))
                 (withCursor d (cursor_ d + 1)) Hbs) as (t' & high' & Hrun & Ht').
    + rewrite <- (Z.add_0_r (cursor_ d)). apply Hge. lia.
    + intros j Hj. simpl. rewrite <- Z.add_assoc. apply Hge. lia.
    + exists t', high'. rewrite Hrun. split; [|done].
      rewrite withCursor_twice. simpl. do 2 f_equal. lia.
Qed.

Lemma continued_all (n : nat) (d : Decoder) (bs : list Z) :
  bytes_ d = Some bs →
  (∀ j, 0 <= j < Z.of_nat n → JS.ge (index bs (cursor_ d + j)) 128 = true) →
  continued n d = (Ret true, withCursor d (cursor_ d + Z.of_nat n)).
Proof.
  revert d. induction n as [|n IH]; intros d Hbs Hge.
  - simpl. rewrite Z.add_0_r, withCursor_same. done.
  - simpl continued.
    rewrite (run_bind _ _ _ _ _ (run_nextByte d bs Hbs)).
    assert (Hge0 : JS.ge (index bs (cursor_ d)) 128 = true).
    { rewrite <- (Z.add_0_r (cursor_ d)). apply Hge. lia. }
    rewrite Hge0, IH; [| done |].
    + rewrite withCursor_twice. simpl. do 2 f_equal. lia.
    + intros j Hj. simpl. rewrite <- Z.add_assoc. apply Hge. lia.
Qed.

Lemma unterminated_from (bs : list Z) (c k : Z) (n : nat) :
  unterminated bs c → 0 <= k → k + Z.of_nat n <= 10 →
  ∀ j, 0 <= j < Z.of_nat n → JS.ge (index bs (c + k + j)) 128 = true.
Proof. intros Hu Hk Hn j Hj. rewrite <- Z.add_assoc. apply Hu. lia. Qed.

(** The 64-bit reader on a varint that does not end within ten bytes:
    all ten bytes are consumed and [fail] is reached; the error flag is
    set when [fail] returns. *)
Lemma readSplitVarint64_unterminated {T} (convert : Z → Z → T)
    (d : Decoder) (bs : list Z) :
  bytes_ d = Some bs → unterminated bs (cursor_ d) →
  readSplitVarint64 convert d
  = if fail_throws
    then (Throw (AssertionError "Failed to read varint, encoding is invalid."),
          withCursor d (cursor_ d + 10))
    else (Ret None, withError (withCursor d (cursor_ d + 10)) true).
Proof.
  intros Hbs Hu. unfold readSplitVarint64.
  destruct (lowLoop_continues 4 0 (Some 128) 0 d bs Hbs eq_refl)
    as (t1 & low1 & R1 & G1).
  { intros j Hj. apply Hu. lia. }
  rewrite (run_bind _ _ _ _ _ R1). cbv beta iota. rewrite G1.
  set (d1 := withCursor d (cursor_ d + Z.of_nat 4)).
  assert (G2 : JS.ge (index bs (cursor_ d1)) 128 = true).
  { subst d1. simpl. apply Hu. lia. }
  rewrite (run_bind _ _ _ _ _
             (run_bind _ _ _ _ _ (run_nextByte d1 bs Hbs))).
  cbv beta iota. rewrite G2.
  set (d2 := withCursor d1 (cursor_ d1 + 1)).
  destruct (highLoop_continues 5 0 (index bs (cursor_ d1))
              (JS.or 0 (JS.shr (JS.and (JS.num (index bs (cursor_ d1))) 127) 4))
              d2 bs Hbs G2) as (t3 & high3 & R3 & G3).
  { subst d2 d1. simpl. intros j Hj.
    rewrite <- !Z.add_assoc. apply Hu. lia. }
  rewrite (run_bind _ _ _ _ _ R3). cbv beta iota.
  rewrite (ge_not_lt _ _ G3).
  assert (Hd : withCursor d2 (cursor_ d2 + Z.of_nat 5)
               = withCursor d (cursor_ d + 10)).
  { subst d2 d1. unfold withCursor. simpl. f_equal. lia. }
  rewrite Hd. unfold fail. by destruct fail_throws.
Qed.

(** The 32-bit reader on the same input: the ten bytes are consumed,
    [assert(false)] is reached, and the error flag is not assigned. *)
Lemma readUnsignedVarint32_unterminated (d : Decoder) (bs : list Z) :
  bytes_ d = Some bs → unterminated bs (cursor_ d) →
  ∃ x, readUnsignedVarint32 d
       = (if assert_throws then Throw (AssertionError "Assertion failed")
          else Ret x,
          withCursor d (cursor_ d + 10)).
Proof.
  intros Hbs Hu. unfold readUnsignedVarint32.
  rewrite (run_bind _ _ _ _ _ (run_theBytes d bs Hbs)).
  unfold get at 1. unfold bind at 1.
  assert (Hlt : ∀ j, 0 <= j < 10 → JS.lt (index bs (cursor_ d + j)) 128 = false).
  { intros j Hj. by apply ge_not_lt, Hu. }
  rewrite (Hlt 0), (Hlt 1), (Hlt 2), (Hlt 3), (Hlt 4) by lia.
  unfold bump at 1. unfold get at 1, set_cursor at 1. unfold bind at 1 2.
  set (d1 := withCursor d (cursor_ d + 5)).
  rewrite (run_bind _ _ _ _ _ (continued_all 5 d1 bs Hbs
             (unterminated_from bs (cursor_ d) 5 5 Hu ltac:(lia) ltac:(lia)))).
  assert (Hd : withCursor d1 (cursor_ d1 + Z.of_nat 5)
               = withCursor d (cursor_ d + 10)).
  { subst d1. unfold withCursor. simpl. f_equal. lia. }
  match goal with
  | |- ∃ x, bind _ (λ _, bind _ (λ _, ret ?v)) _ = _ => exists v
  end.
  rewrite Hd. unfold assertInBlock, assert.
  destruct assert_throws; [done|].
  unfold bind, get, ret. simpl.
  by destruct (_ <=? _).
Qed.

End DecoderRuns.

(* ===================================================================== *)
(** ** Varints that do not end within ten bytes *)
(* ===================================================================== *)

(** C1, as it holds.  When the ten bytes at the cursor all carry the
    continuation bit, [readSplitVarint64] consumes them and calls [fail];
    if [fail] returns, the read returns [undefined] with the error flag
    set, so [getError()] is true afterwards (if [fail] throws, the flag is
    not assigned).  [readUnsignedVarint32] consumes the ten bytes and
    reports the condition through [assert(false)] alone: it does not
    assign the error flag, and [getError()] afterwards is true only if the
    flag was set before or the cursor has left the block. *)
Theorem unterminated_varint `{Asserts} (d : BinaryDecoder.Decoder)
    (bs : list Z) :
  BinaryDecoder.bytes_ d = Some bs →
  BinaryDecoder.unterminated bs (BinaryDecoder.cursor_ d) →
  (∀ T (convert : Z → Z → T),
     let r := BinaryDecoder.readSplitVarint64 convert d in
     BinaryDecoder.cursor_ r.2 = BinaryDecoder.cursor_ d + 10
     ∧ (fail_throws = false →
        r.1 = Ret None
        ∧ BinaryDecoder.error_ r.2 = true
        ∧ BinaryDecoder.getError r.2 = true)
     ∧ (fail_throws = true →
        r.1 = Throw (AssertionError
                       "Failed to read varint, encoding is invalid.")
        ∧ BinaryDecoder.error_ r.2 = BinaryDecoder.error_ d))
  ∧ (let r := BinaryDecoder.readUnsignedVarint32 d in
     BinaryDecoder.cursor_ r.2 = BinaryDecoder.cursor_ d + 10
     ∧ BinaryDecoder.error_ r.2 = BinaryDecoder.error_ d
     ∧ (assert_throws = true →
        r.1 = Throw (AssertionError "Assertion failed"))
     ∧ (assert_throws = false → ∃ x, r.1 = Ret x)
     ∧ BinaryDecoder.getError r.2
       = BinaryDecoder.error_ d
         || (BinaryDecoder.cursor_ d + 10 <? 0)
         || (BinaryDecoder.end_ d <? BinaryDecoder.cursor_ d + 10)).
Proof.
  intros Hbs Hu. split.
  - intros T convert. cbv zeta.
    rewrite (readSplitVarint64_unterminated convert d bs Hbs Hu).
    destruct fail_throws; simpl; repeat split; try done.
  - cbv zeta.
    destruct (readUnsignedVarint32_unterminated d bs Hbs Hu) as [x ->].
    simpl. repeat split; try done.
    + by intros ->.
    + intros ->. by exists x.
Qed.

Lemma endless_unterminated :
  BinaryDecoder.unterminated Examples.endless
    (BinaryDecoder.cursor_ Examples.decoderEndless).
Proof.
  intros j Hj.
  assert (Hcases : j = 0 ∨ j = 1 ∨ j = 2 ∨ j = 3 ∨ j = 4 ∨ j = 5 ∨ j = 6
                   ∨ j = 7 ∨ j = 8 ∨ j = 9) by lia.
  repeat destruct Hcases as [->|Hcases]; try reflexivity.
  by subst j.
Defined.

Lemma unterminated_varint_witness :
  BinaryDecoder.getError
    (BinaryDecoder.readSplitVarint64 (H := Examples.assertsOff)
       Utils.joinUint64 Examples.decoderEndless).2 = true.
Proof.
  destruct (unterminated_varint (H := Examples.assertsOff)
              Examples.decoderEndless Examples.endless eq_refl
              endless_unterminated) as [H64 _].
  destruct (H64 Z Utils.joinUint64) as (_ & Hreturns & _).
  apply Hreturns. reflexivity.
Defined.

(** C1, as stated, fails on the 32-bit path: after [readUnsignedVarint32]
    has read ten bytes with the continuation bit, the error flag is unset
    and [getError()] is false, whether a failed assertion throws or not;
    when it does not throw, the read even returns a number. *)
Lemma varint32_leaves_error_unset :
  BinaryDecoder.unterminated Examples.endless
    (BinaryDecoder.cursor_ Examples.decoderEndless)
  ∧ BinaryDecoder.getError
      (BinaryDecoder.readUnsignedVarint32 (H := Examples.assertsOn)
         Examples.decoderEndless).2 = false
  ∧ BinaryDecoder.getError
      (BinaryDecoder.readUnsignedVarint32 (H := Examples.assertsOff)
         Examples.decoderEndless).2 = false
  ∧ (BinaryDecoder.readUnsignedVarint32 (H := Examples.assertsOff)
       Examples.decoderEndless).1 = Ret 0.
Proof.
  split; [apply endless_unterminated|]. by vm_compute.
Qed.

(* ===================================================================== *)
(** ** [readBytes] *)
(* ===================================================================== *)

Section ReadBytes.

Import BinaryDecoder.

Context `{Asserts}.

(** The length is rejected: negative, or past the end of the buffer. *)
Lemma readBytes_invalid (d : Decoder) (bs : list Z) (len : Z) :
  bytes_ d = Some bs →
  len < 0 ∨ Z.of_nat (length bs) < cursor_ d + len →
  readBytes len d
  = (if fail_throws then Throw (AssertionError "Invalid byte length!")
     else Ret [],
     withError d true).
Proof.
  intros Hbs Hinvalid. destruct d as [b s e c err]. simpl in *. subst b.
  unfold readBytes, bind, get, fail, set_error, theBytes, ret, throw. simpl.
  destruct (Z.ltb_spec len 0) as [Hneg|Hpos]; simpl.
  - by destruct fail_throws.
  - destruct (Z.ltb_spec (Z.of_nat (length bs)) (c + len)); [|lia].
    by destruct fail_throws.
Qed.

(** The length is accepted: the view is returned and the cursor advanced;
    the block end is only asserted afterwards. *)
Lemma readBytes_valid (d : Decoder) (bs : list Z) (len : Z) :
  bytes_ d = Some bs →
  0 <= len → cursor_ d + len <= Z.of_nat (length bs) →
  readBytes len d
  = (if (cursor_ d + len <=? end_ d) || negb assert_throws
     then Ret (subarray bs (cursor_ d) (cursor_ d + len))
     else Throw (AssertionError "Assertion failed"),
     withCursor d (cursor_ d + len)).
Proof.
  intros Hbs Hlen Hfits. destruct d as [b s e c err]. simpl in *. subst b.
  unfold readBytes, bind, get, bump, assertInBlock, assert, set_cursor, bind,
    get, theBytes, ret, throw. simpl.
  destruct (Z.ltb_spec len 0) as [Hneg|_]; [lia|]. simpl.
  destruct (Z.ltb_spec (Z.of_nat (length bs)) (c + len)); [lia|].
  simpl. destruct (_ <=? _); simpl; [done|].
  by destruct assert_throws.
Qed.

(** Inside the buffer the view is the [len] bytes from the cursor on. *)
Lemma subarray_inside (bs : list Z) (c len : Z) :
  0 <= c → 0 <= len → c + len <= Z.of_nat (length bs) →
  subarray bs c (c + len) = take (Z.to_nat len) (drop (Z.to_nat c) bs)
  ∧ Z.of_nat (length (subarray bs c (c + len))) = len.
Proof.
  intros Hc Hlen Hfits. unfold subarray.
  destruct (Z.ltb_spec (c + len) 0); [lia|].
  destruct (Z.ltb_spec c 0); [lia|].
  rewrite !Z.min_l by lia.
  replace (c + len - c) with len by lia. split; [done|].
  rewrite length_take, length_drop. lia.
Qed.

End ReadBytes.

(** C2, as it holds.  [readBytes(length)] with a negative length, or with
    a length that reaches past the end of the source buffer
    ([bytes_.length], not the end of the block), sets the error flag,
    leaves the cursor, and, when [fail] returns, returns an empty byte
    array.  Otherwise it advances the cursor by exactly [length] and
    returns [bytes_.subarray(cursor, cursor + length)], the [length] bytes
    from the cursor on, provided the new cursor is within the block or a
    failed assertion does not throw. *)
Theorem readBytes_checks_buffer `{Asserts} (d : BinaryDecoder.Decoder)
    (bs : list Z) (len : Z) :
  BinaryDecoder.bytes_ d = Some bs →
  let c := BinaryDecoder.cursor_ d in
  let r := BinaryDecoder.readBytes len d in
  (len < 0 ∨ Z.of_nat (length bs) < c + len →
     r.2 = BinaryDecoder.withError d true
     ∧ (fail_throws = false → r.1 = Ret []))
  ∧ (0 <= len → c + len <= Z.of_nat (length bs) →
     r.2 = BinaryDecoder.withCursor d (c + len)
     ∧ (c + len <= BinaryDecoder.end_ d ∨ assert_throws = false →
        r.1 = Ret (BinaryDecoder.subarray bs c (c + len)))
     ∧ (0 <= c →
        BinaryDecoder.subarray bs c (c + len)
        = take (Z.to_nat len) (drop (Z.to_nat c) bs)
        ∧ Z.of_nat (length (BinaryDecoder.subarray bs c (c + len))) = len)).
Proof.
  intros Hbs c r. subst c r. split.
  - intros Hinvalid. rewrite (readBytes_invalid d bs len Hbs Hinvalid).
    simpl. split; [done | by intros ->].
  - intros Hlen Hfits. rewrite (readBytes_valid d bs len Hbs Hlen Hfits).
    simpl. split; [done|]. split.
    + intros [Hin| ->].
      * apply Z.leb_le in Hin. by rewrite Hin.
      * by rewrite orb_true_r.
    + intros Hc. by apply subarray_inside.
Qed.

Lemma readBytes_checks_buffer_witness :
  (BinaryDecoder.readBytes (H := Examples.assertsOn) 2 Examples.decoderBlock).1
  = Ret [1; 2]
  ∧ (BinaryDecoder.readBytes (H := Examples.assertsOff) 5
       Examples.decoderBlock).1 = Ret [].
Proof.
  split.
  - destruct (readBytes_checks_buffer (H := Examples.assertsOn)
                Examples.decoderBlock [1; 2; 3; 4] 2 eq_refl) as [_ Hvalid].
    destruct Hvalid as (_ & Hret & _); [done | done |].
    apply Hret. by left.
  - destruct (readBytes_checks_buffer (H := Examples.assertsOff)
                Examples.decoderBlock [1; 2; 3; 4] 5 eq_refl) as [Hinvalid _].
    apply Hinvalid; [by right | done].
Defined.

(** C2, as stated, fails: in a block of two bytes at the start of a buffer
    of four, [readBytes(3)] reads past the end of the block, yet the error
    flag is not assigned ([getError()] is true afterwards only because the
    cursor has passed the end) and the result is not an empty array: the
    three bytes are returned or, where assertions throw, the call
    throws. *)
Lemma readBytes_past_block_end :
  BinaryDecoder.end_ Examples.decoderBlock
  < BinaryDecoder.cursor_ Examples.decoderBlock + 3
  ∧ BinaryDecoder.error_
      (BinaryDecoder.readBytes (H := Examples.assertsOff) 3
         Examples.decoderBlock).2 = false
  ∧ BinaryDecoder.readBytes (H := Examples.assertsOff) 3 Examples.decoderBlock
    = (Ret [1; 2; 3],
       BinaryDecoder.mkDecoder (Some [1; 2; 3; 4]) 0 2 3 false)
  ∧ BinaryDecoder.readBytes (H := Examples.assertsOn) 3 Examples.decoderBlock
    = (Throw (AssertionError "Assertion failed"),
       BinaryDecoder.mkDecoder (Some [1; 2; 3; 4]) 0 2 3 false).
Proof. by vm_compute. Qed.

(* ===================================================================== *)
(** ** Zigzag *)
(* ===================================================================== *)

Section Int32.

Lemma ToInt32_range (z : Z) : - 2 ^ 31 <= JS.ToInt32 z < 2 ^ 31.
Proof.
  unfold JS.ToInt32. pose proof (Z.mod_pos_bound z (2 ^ 32) ltac:(lia)).
  destruct (Z.ltb_spec (z mod 2 ^ 32) (2 ^ 31)); lia.
Qed.

Lemma ToInt32_small (z : Z) : - 2 ^ 31 <= z < 2 ^ 31 → JS.ToInt32 z = z.
Proof.
  intros Hz. unfold JS.ToInt32.
  destruct (Z.ltb_spec (z mod 2 ^ 32) (2 ^ 31)) as [Hlt|Hge].
  - destruct (Z.le_gt_cases 0 z).
    + apply Z.mod_small. lia.
    + rewrite <- (Z.mod_add z 1 (2 ^ 32)) in Hlt by lia.
      rewrite Z.mod_small in Hlt by lia. lia.
  - destruct (Z.le_gt_cases 0 z).
    + rewrite Z.mod_small in Hge by lia. lia.
    + rewrite <- (Z.mod_add z 1 (2 ^ 32)) by lia.
      rewrite Z.mod_small by lia. lia.
Qed.

Lemma ToUint32_small (z : Z) : 0 <= z < 2 ^ 32 → JS.ToUint32 z = z.
Proof. intros Hz. unfold JS.ToUint32. by apply Z.mod_small. Qed.

Lemma ToUint32_ToInt32 (z : Z) : JS.ToUint32 (JS.ToInt32 z) = JS.ToUint32 z.
Proof.
  unfold JS.ToUint32, JS.ToInt32.
  destruct (Z.ltb_spec (z mod 2 ^ 32) (2 ^ 31)).
  - apply Z.mod_mod. lia.
  - rewrite <- (Z.mod_add _ 1 (2 ^ 32)) by lia.
    replace (z mod 2 ^ 32 - 2 ^ 32 + 1 * 2 ^ 32) with (z mod 2 ^ 32) by lia.
    apply Z.mod_mod. lia.
Qed.

(** Two integers with the same residue have the same coercions. *)
Lemma ToInt32_congr (a b : Z) :
  a mod 2 ^ 32 = b mod 2 ^ 32 → JS.ToInt32 a = JS.ToInt32 b.
Proof. unfold JS.ToInt32. by intros ->. Qed.

Lemma land_sign_nonneg (h : Z) : 0 <= h < 2 ^ 31 → Z.land h (- 2 ^ 31) = 0.
Proof.
  intros Hh. apply Z.bits_inj'. intros i Hi.
  rewrite Z.land_spec, Z.bits_0.
  destruct (Z.lt_ge_cases i 31).
  - replace (- 2 ^ 31) with ((-1) * 2 ^ 31) by done.
    rewrite Z.mul_pow2_bits_low by lia. apply andb_false_r.
  - rewrite (Z.bits_above_log2 h i); [done | lia |].
    destruct (Z.eq_dec h 0) as [->|]; [simpl; lia|].
    assert (2 ^ 31 <= 2 ^ i) by (apply Z.pow_le_mono_r; lia).
    apply Z.log2_lt_pow2; lia.
Qed.

Lemma lor_sign (a : Z) : 0 <= a < 2 ^ 31 → Z.lor a (- 2 ^ 31) = a - 2 ^ 31.
Proof.
  intros Ha. rewrite <- Z.lxor_lor by (by apply land_sign_nonneg).
  rewrite <- Z.add_nocarry_lxor by (by apply land_sign_nonneg). lia.
Qed.

Lemma land_sign_neg (h : Z) : - 2 ^ 31 <= h < 0 → Z.land h (- 2 ^ 31) = - 2 ^ 31.
Proof.
  intros Hh.
  replace h with (Z.lor (h + 2 ^ 31) (- 2 ^ 31)) by (rewrite lor_sign; lia).
  rewrite Z.land_lor_distr_l, land_sign_nonneg by lia.
  rewrite Z.land_diag. done.
Qed.

Lemma land_one (a : Z) : Z.land a 1 = a mod 2.
Proof. change 1 with (Z.ones 1). rewrite Z.land_ones by lia. done. Qed.


Lemma ToInt32_decomp (z : Z) : ∃ k, JS.ToInt32 z = z + k * 2 ^ 32.
Proof.
  unfold JS.ToInt32. pose proof (Z.div_mod z (2 ^ 32) ltac:(lia)) as Hdm.
  destruct (Z.ltb_spec (z mod 2 ^ 32) (2 ^ 31)).
  - exists (- (z / 2 ^ 32)). lia.
  - exists (- (z / 2 ^ 32) - 1). lia.
Qed.

Lemma ToInt32_idem (z : Z) : JS.ToInt32 (JS.ToInt32 z) = JS.ToInt32 z.
Proof. apply ToInt32_small, ToInt32_range. Qed.

Lemma ToUint32_shift (z k : Z) : JS.ToUint32 (z + k * 2 ^ 32) = JS.ToUint32 z.
Proof. unfold JS.ToUint32. apply Z.mod_add. lia. Qed.

Lemma ToInt32_shift (z k : Z) : JS.ToInt32 (z + k * 2 ^ 32) = JS.ToInt32 z.
Proof. apply ToInt32_congr, Z.mod_add. lia. Qed.

(** The zigzag encoding of a signed 32-bit integer, arithmetically. *)
Lemma encode32_value (s : Z) :
  - 2 ^ 31 <= s < 2 ^ 31 →
  Zigzag.encode32 s = if s <? 0 then - 2 * s - 1 else 2 * s.
Proof.
  intros Hs. unfold Zigzag.encode32, JS.ushr, JS.xor, JS.shl, JS.shr.
  change (1 mod 32) with 1. change (31 mod 32) with 31. change (0 mod 32) with 0.
  rewrite Z.shiftr_0_r, ToUint32_ToInt32, ToInt32_idem.
  rewrite (ToInt32_small s) by done.
  rewrite Z.shiftl_mul_pow2, Z.shiftr_div_pow2 by lia.
  destruct (ToInt32_decomp (s * 2 ^ 1)) as [k Hk]. rewrite Hk.
  destruct (Z.ltb_spec s 0).
  - replace (s / 2 ^ 31) with (-1) by (apply Z.div_unique with (s + 2 ^ 31); [left|]; lia).
    rewrite (ToInt32_small (-1)) by lia.
    rewrite Z.lxor_m1_r. unfold Z.lnot.
    replace (Z.pred (- (s * 2 ^ 1 + k * 2 ^ 32)))
      with ((- 2 * s - 1) + (- k) * 2 ^ 32) by lia.
    rewrite ToUint32_shift. apply ToUint32_small. lia.
  - rewrite Z.div_small by lia. rewrite (ToInt32_small 0) by lia.
    rewrite Z.lxor_0_r, ToUint32_shift, ToUint32_small by lia. lia.
Qed.

(** The decoder's 32-bit formula, arithmetically. *)
Lemma zigzagDecode32_value (n : Z) :
  0 <= n < 2 ^ 32 →
  BinaryDecoder.zigzagDecode32 n = if Z.even n then n / 2 else - (n / 2) - 1.
Proof.
  intros Hn. unfold BinaryDecoder.zigzagDecode32, JS.xor, JS.ushr, JS.and.
  change (1 mod 32) with 1.
  rewrite (ToUint32_small n) by done.
  rewrite (ToInt32_small 1) by lia.
  rewrite Z.shiftr_div_pow2 by lia. change (2 ^ 1) with 2.
  rewrite land_one.
  assert (Hpar : JS.ToInt32 n mod 2 = n mod 2).
  { destruct (ToInt32_decomp n) as [k ->].
    replace (k * 2 ^ 32) with (k * 2 ^ 31 * 2) by lia. apply Z.mod_add. lia. }
  rewrite Hpar.
  pose proof (Z.mod_pos_bound n 2 ltac:(lia)).
  rewrite (ToInt32_small (n mod 2)) by lia.
  rewrite (ToInt32_small (n / 2)) by (split; [|apply Z.div_lt_upper_bound]; try lia; pose proof (Z.div_pos n 2); lia).
  rewrite Zeven_mod.
  destruct (Z.eqb_spec (n mod 2) 0) as [->|Hodd].
  - simpl. rewrite Z.lxor_0_r. apply ToInt32_small.
    split; [|apply Z.div_lt_upper_bound]; try lia. pose proof (Z.div_pos n 2); lia.
  - replace (n mod 2) with 1 by lia. change (JS.ToInt32 (- (1))) with (-1).
    rewrite Z.lxor_m1_r. unfold Z.lnot. rewrite ToInt32_small.
    + lia.
    + assert (0 <= n / 2 < 2 ^ 31).
      { split; [apply Z.div_pos; lia | apply Z.div_lt_upper_bound; lia]. }
      lia.
Qed.

Lemma zigzag32_round_trip (s : Z) :
  - 2 ^ 31 <= s < 2 ^ 31 →
  BinaryDecoder.zigzagDecode32 (Zigzag.encode32 s) = s.
Proof.
  intros Hs. rewrite encode32_value by done.
  destruct (Z.ltb_spec s 0).
  - rewrite zigzagDecode32_value, Zeven_mod by lia.
    destruct (Z.eqb_spec ((- 2 * s - 1) mod 2) 0) as [Heven|_];
      Z.div_mod_to_equations; lia.
  - rewrite zigzagDecode32_value, Zeven_mod by lia.
    destruct (Z.eqb_spec ((2 * s) mod 2) 0) as [_|Hodd];
      Z.div_mod_to_equations; lia.
Qed.


Lemma and_one (x : Z) : JS.and x 1 = x mod 2.
Proof.
  unfold JS.and. rewrite (ToInt32_small 1) by lia. rewrite land_one.
  assert (Hpar : JS.ToInt32 x mod 2 = x mod 2).
  { destruct (ToInt32_decomp x) as [k ->].
    replace (k * 2 ^ 32) with (k * 2 ^ 31 * 2) by lia. apply Z.mod_add. lia. }
  rewrite Hpar. apply ToInt32_small.
  pose proof (Z.mod_pos_bound x 2 ltac:(lia)). lia.
Qed.

Lemma ushr_one (x : Z) : 0 <= x < 2 ^ 32 → JS.ushr x 1 = x / 2.
Proof.
  intros Hx. unfold JS.ushr. change (1 mod 32) with 1.
  rewrite ToUint32_small, Z.shiftr_div_pow2 by lia. done.
Qed.

Lemma ushr_zero (x : Z) : JS.ushr x 0 = JS.ToUint32 x.
Proof. unfold JS.ushr. change (0 mod 32) with 0. apply Z.shiftr_0_r. Qed.

Lemma shl_31 (x : Z) :
  JS.shl x 31 = if x mod 2 =? 0 then 0 else - 2 ^ 31.
Proof.
  unfold JS.shl. change (31 mod 32) with 31.
  rewrite Z.shiftl_mul_pow2 by lia.
  destruct (ToInt32_decomp x) as [k ->].
  pose proof (Z.div_mod x 2 ltac:(lia)) as Hdm.
  pose proof (Z.mod_pos_bound x 2 ltac:(lia)) as Hb.
  replace ((x + k * 2 ^ 32) * 2 ^ 31)
    with (x mod 2 * 2 ^ 31 + (x / 2 + k * 2 ^ 31) * 2 ^ 32) by lia.
  rewrite ToInt32_shift.
  destruct (Z.eqb_spec (x mod 2) 0) as [->|Hodd]; [done|].
  replace (x mod 2) with 1 by lia. done.
Qed.

Lemma or_low_sign (a b : Z) :
  0 <= a < 2 ^ 31 → b = 0 ∨ b = - 2 ^ 31 → JS.or a b = a + b.
Proof.
  intros Ha Hb. unfold JS.or. rewrite (ToInt32_small a) by lia.
  destruct Hb as [->| ->].
  - change (JS.ToInt32 0) with 0. rewrite Z.lor_0_r, ToInt32_small by lia. lia.
  - change (JS.ToInt32 (- 2 ^ 31)) with (- 2 ^ 31).
    rewrite lor_sign, ToInt32_small by lia. lia.
Qed.

Lemma xor_zero (m : Z) : - 2 ^ 31 <= m < 2 ^ 31 → JS.xor m 0 = m.
Proof.
  intros Hm. unfold JS.xor. change (JS.ToInt32 0) with 0.
  rewrite Z.lxor_0_r, ToInt32_idem. by apply ToInt32_small.
Qed.

Lemma xor_minus_one (m : Z) : - 2 ^ 31 <= m < 2 ^ 31 → JS.xor m (-1) = - m - 1.
Proof.
  intros Hm. unfold JS.xor. change (JS.ToInt32 (-1)) with (-1).
  rewrite Z.lxor_m1_r, (ToInt32_small m) by done. unfold Z.lnot.
  rewrite ToInt32_small; lia.
Qed.

Lemma not_value (x : Z) : JS.not x = - JS.ToInt32 x - 1.
Proof.
  unfold JS.not, Z.lnot. pose proof (ToInt32_range x).
  rewrite ToInt32_small; lia.
Qed.

End Int32.

Section Doubles.

Lemma roundToDouble_opp (z : Z) :
  Utils.roundToDouble (- z) = - Utils.roundToDouble z.
Proof.
  unfold Utils.roundToDouble. rewrite Z.abs_opp, Z.sgn_opp.
  destruct (Z.abs z <? 2 ^ 53); [done | lia].
Qed.

Lemma roundToDouble_exact (z : Z) :
  Z.abs z <= 2 ^ 53 → Utils.roundToDouble z = z.
Proof.
  intros Hz. unfold Utils.roundToDouble.
  destruct (Z.ltb_spec (Z.abs z) (2 ^ 53)) as [_|Hge]; [done|].
  assert (Habs : Z.abs z = 2 ^ 53) by lia. rewrite Habs.
  assert (Hcases : z = 2 ^ 53 ∨ z = - 2 ^ 53) by lia.
  destruct Hcases as [-> | ->]; reflexivity.
Qed.

End Doubles.


Section Zigzag64.

(** The signed join of two int32 halves is their two's complement value,
    as a double. *)
Lemma joinInt64_value (lo hi : Z) :
  - 2 ^ 31 <= hi < 2 ^ 31 →
  Utils.joinInt64 lo hi = Utils.roundToDouble (Utils.int64OfHalves lo hi).
Proof.
  intros Hhi. unfold Utils.joinInt64, Utils.int64OfHalves, Utils.joinUint64.
  rewrite (ToInt32_small hi) by done.
  unfold JS.and at 1. rewrite (ToInt32_small hi) by done.
  change (JS.ToInt32 2147483648) with (- 2 ^ 31).
  change 4294967296 with (2 ^ 32).
  destruct (Z.lt_ge_cases hi 0) as [Hneg|Hpos].
  - rewrite land_sign_neg by lia.
    change (JS.ToInt32 (- 2 ^ 31) =? 0) with false. cbv iota.
    rewrite !ushr_zero, !not_value, (ToInt32_small hi) by done.
    replace (- JS.ToInt32 lo - 1 + 1) with (- JS.ToInt32 lo) by lia.
    rewrite <- roundToDouble_opp. f_equal.
    pose proof (ToUint32_ToInt32 lo) as Hlo.
    pose proof (ToInt32_range lo) as Hr.
    unfold JS.ToUint32 in *.
    set (l := JS.ToInt32 lo) in *. clearbody l.
    rewrite <- Hlo. clear Hlo.
    destruct (Z.eqb_spec ((- l) mod 2 ^ 32) 0) as [Hz|Hnz].
    + Z.div_mod_to_equations. lia.
    + Z.div_mod_to_equations. lia.
  - rewrite land_sign_nonneg by lia. change (JS.ToInt32 0 =? 0) with true.
    cbv iota. by rewrite ushr_zero.
Qed.


(** The two-half decoding computes [Zigzag.unzigzag] of the pair, as a two's
    complement value, and its high half is an int32. *)
Lemma fromZigzag64_halves (lo hi : Z) :
  0 <= lo < 2 ^ 32 → 0 <= hi < 2 ^ 32 →
  Utils.fromZigzag64 lo hi Utils.int64OfHalves = Zigzag.unzigzag (hi * 2 ^ 32 + lo)
  ∧ Utils.fromZigzag64 lo hi (λ _ hi', - 2 ^ 31 <= hi' < 2 ^ 31).
Proof.
  intros Hlo Hhi. unfold Utils.fromZigzag64.
  rewrite and_one, !ushr_one, shl_31 by done.
  assert (Hlo2 : 0 <= lo / 2 < 2 ^ 31) by (Z.div_mod_to_equations; lia).
  assert (Hhi2 : 0 <= hi / 2 < 2 ^ 31) by (Z.div_mod_to_equations; lia).
  rewrite or_low_sign by (done || destruct (_ =? _); auto).
  set (m := lo / 2 + (if hi mod 2 =? 0 then 0 else - 2 ^ 31)).
  assert (Hm : - 2 ^ 31 <= m < 2 ^ 31) by (subst m; destruct (_ =? _); lia).
  assert (Hmu : JS.ToUint32 m = lo / 2 + hi mod 2 * 2 ^ 31).
  { subst m. unfold JS.ToUint32.
    destruct (Z.eqb_spec (hi mod 2) 0) as [->|Hodd].
    - rewrite Z.mod_small; lia.
    - replace (hi mod 2) with 1 by (Z.div_mod_to_equations; lia).
      replace (lo / 2 + - 2 ^ 31) with (lo / 2 + 2 ^ 31 + (-1) * 2 ^ 32) by lia.
      rewrite Z.mod_add, Z.mod_small; lia. }
  unfold Zigzag.unzigzag, Utils.int64OfHalves.
  replace (Z.even (hi * 2 ^ 32 + lo)) with (lo mod 2 =? 0)
    by (rewrite Zeven_mod; f_equal; Z.div_mod_to_equations; lia).
  destruct (Z.eqb_spec (lo mod 2) 0) as [Heven|Hodd].
  - rewrite Heven. change (- 0) with 0.
    rewrite !xor_zero by lia.
    rewrite ToInt32_small, Hmu by lia.
    split; [Z.div_mod_to_equations; lia | lia].
  - replace (lo mod 2) with 1 by (Z.div_mod_to_equations; lia).
    change (- (1)) with (-1).
    rewrite !xor_minus_one by lia.
    rewrite ToInt32_small by lia.
    assert (Hnm : JS.ToUint32 (- m - 1) = 2 ^ 32 - 1 - JS.ToUint32 m).
    { unfold JS.ToUint32. destruct (Z.lt_ge_cases m 0).
      - rewrite (Z.mod_small (- m - 1)) by lia.
        replace m with (m + 2 ^ 32 + (-1) * 2 ^ 32) at 2 by lia.
        rewrite Z.mod_add, Z.mod_small; lia.
      - rewrite (Z.mod_small m) by lia.
        replace (- m - 1) with (2 ^ 32 - m - 1 + (-1) * 2 ^ 32) by lia.
        rewrite Z.mod_add, Z.mod_small; lia. }
    rewrite Hnm, Hmu.
    split; [Z.div_mod_to_equations; lia | lia].
Qed.

(** [Zigzag.unzigzag] inverts the encoding. *)
Lemma unzigzag_encode64 (s : Z) : Zigzag.unzigzag (Zigzag.encode64 s) = s.
Proof.
  unfold Zigzag.unzigzag, Zigzag.encode64. rewrite Zeven_mod.
  destruct (Z.ltb_spec s 0);
    [destruct (Z.eqb_spec ((- 2 * s - 1) mod 2) 0)
    |destruct (Z.eqb_spec ((2 * s) mod 2) 0)];
    Z.div_mod_to_equations; lia.
Qed.

Lemma encode64_range (s : Z) :
  - 2 ^ 63 <= s < 2 ^ 63 → 0 <= Zigzag.encode64 s < 2 ^ 64.
Proof. unfold Zigzag.encode64. destruct (Z.ltb_spec s 0); lia. Qed.

Lemma halves_join (u : Z) :
  0 <= u < 2 ^ 64 →
  0 <= Zigzag.lowHalf u < 2 ^ 32 ∧ 0 <= Zigzag.highHalf u < 2 ^ 32
  ∧ Zigzag.highHalf u * 2 ^ 32 + Zigzag.lowHalf u = u.
Proof.
  intros Hu. unfold Zigzag.lowHalf, Zigzag.highHalf.
  rewrite (Z.mod_small (u / 2 ^ 32)) by (Z.div_mod_to_equations; lia).
  Z.div_mod_to_equations. lia.
Qed.

End Zigzag64.

(** C3, as it holds.  For every signed 32-bit integer [s], the decoder's
    formula [(n >>> 1) ^ -(n & 1)] applied to the zigzag encoding of [s]
    yields [s].  For every signed 64-bit integer [s], the two-half decode
    applied to the halves of the zigzag encoding of [s] yields the halves
    of [s] in two's complement; the number [joinZigzag64] returns is [s]
    rounded to a double, which is [s] itself whenever [|s| <= 2^53]. *)
Theorem zigzag_round_trip :
  (∀ s, - 2 ^ 31 <= s < 2 ^ 31 →
     BinaryDecoder.zigzagDecode32 (Zigzag.encode32 s) = s)
  ∧ (∀ s, - 2 ^ 63 <= s < 2 ^ 63 →
     let u := Zigzag.encode64 s in
     Utils.fromZigzag64 (Zigzag.lowHalf u) (Zigzag.highHalf u)
                        Utils.int64OfHalves = s
     ∧ Utils.joinZigzag64 (Zigzag.lowHalf u) (Zigzag.highHalf u)
       = Utils.roundToDouble s
     ∧ (Z.abs s <= 2 ^ 53 →
        Utils.joinZigzag64 (Zigzag.lowHalf u) (Zigzag.highHalf u) = s)).
Proof.
  split; [exact zigzag32_round_trip|].
  intros s Hs u.
  destruct (halves_join u (encode64_range s Hs)) as (Hlo & Hhi & Hjoin).
  destruct (fromZigzag64_halves _ _ Hlo Hhi) as [Hval Hrange].
  rewrite Hjoin in Hval. subst u. rewrite unzigzag_encode64 in Hval.
  assert (Hdouble : Utils.joinZigzag64 (Zigzag.lowHalf (Zigzag.encode64 s))
                      (Zigzag.highHalf (Zigzag.encode64 s))
                    = Utils.roundToDouble s).
  { unfold Utils.joinZigzag64, Utils.fromZigzag64 in *.
    rewrite joinInt64_value by exact Hrange. by rewrite Hval. }
  split; [done|]. split; [done|].
  intros Hsmall. rewrite Hdouble. by apply roundToDouble_exact.
Qed.

Lemma zigzag_round_trip_witness :
  BinaryDecoder.zigzagDecode32 (Zigzag.encode32 (-3)) = -3
  ∧ Utils.joinZigzag64 (Zigzag.lowHalf (Zigzag.encode64 (- 2 ^ 40 - 1)))
                       (Zigzag.highHalf (Zigzag.encode64 (- 2 ^ 40 - 1)))
    = - 2 ^ 40 - 1.
Proof.
  destruct zigzag_round_trip as [H32 H64]. split.
  - apply H32. lia.
  - apply (H64 (- 2 ^ 40 - 1)); lia.
Defined.

(** C3, as stated, fails above 2^53: [readZigzagVarint64] returns a
    JavaScript number, and the zigzag encoding of 2^53 + 1 decodes to
    2^53. *)
Lemma zigzag64_loses_precision :
  - 2 ^ 63 <= 2 ^ 53 + 1 < 2 ^ 63
  ∧ Utils.joinZigzag64 (Zigzag.lowHalf (Zigzag.encode64 (2 ^ 53 + 1)))
                       (Zigzag.highHalf (Zigzag.encode64 (2 ^ 53 + 1)))
    = 2 ^ 53
  ∧ (BinaryDecoder.readZigzagVarint64 (H := Examples.assertsOn)
       (BinaryDecoder.new (Some Examples.zigzagBig) None None)).1
    = Ret (Some (2 ^ 53))
  ∧ 2 ^ 53 ≠ 2 ^ 53 + 1.
Proof. split; [lia|]. split; [by vm_compute|]. split; [by vm_compute | lia]. Qed.

(* ===================================================================== *)
(** ** Reading back a 32-bit varint *)
(* ===================================================================== *)

Section VarintBits.

Lemma land_low_high (a m k : Z) :
  0 <= k → 0 <= a < 2 ^ k → Z.land a (m * 2 ^ k) = 0.
Proof.
  intros Hk Ha. apply Z.bits_inj'. intros i Hi.
  rewrite Z.land_spec, Z.bits_0.
  destruct (Z.lt_ge_cases i k).
  - rewrite Z.mul_pow2_bits_low by lia. apply andb_false_r.
  - destruct (Z.eq_dec a 0) as [->|Hne]; [by rewrite Z.bits_0|].
    rewrite (Z.bits_above_log2 a i); [done | lia |].
    assert (2 ^ k <= 2 ^ i) by (apply Z.pow_le_mono_r; lia).
    apply Z.log2_lt_pow2; lia.
Qed.

Lemma lor_low_high (a m k : Z) :
  0 <= k → 0 <= a < 2 ^ k → Z.lor a (m * 2 ^ k) = a + m * 2 ^ k.
Proof.
  intros Hk Ha.
  rewrite <- Z.lxor_lor by (by apply land_low_high).
  rewrite <- Z.add_nocarry_lxor by (by apply land_low_high). done.
Qed.

(** [a | (c << k)] when [a] lies below bit [k]: the sum, as an int32. *)
Lemma or_shl (a c k : Z) :
  0 <= k < 32 → 0 <= a < 2 ^ k → - 2 ^ 31 <= a < 2 ^ 31 →
  JS.or a (JS.shl c k) = JS.ToInt32 (a + JS.ToInt32 c * 2 ^ k).
Proof.
  intros Hk Ha Ha'. unfold JS.or, JS.shl.
  rewrite Z.mod_small by lia.
  rewrite ToInt32_idem, (ToInt32_small a) by done.
  rewrite Z.shiftl_mul_pow2 by lia.
  destruct (ToInt32_decomp (JS.ToInt32 c * 2 ^ k)) as [q Hq]. rewrite Hq.
  assert (Hk32 : 2 ^ 32 = 2 ^ (32 - k) * 2 ^ k).
  { rewrite <- Z.pow_add_r by lia. f_equal. lia. }
  replace (JS.ToInt32 c * 2 ^ k + q * 2 ^ 32)
    with ((JS.ToInt32 c + q * 2 ^ (32 - k)) * 2 ^ k) by (rewrite Hk32; ring).
  rewrite lor_low_high by lia.
  replace (a + (JS.ToInt32 c + q * 2 ^ (32 - k)) * 2 ^ k)
    with (a + JS.ToInt32 c * 2 ^ k + q * 2 ^ 32) by (rewrite Hk32; ring).
  apply ToInt32_shift.
Qed.

Lemma and_mask (t k : Z) :
  0 <= k < 31 → 0 <= t < 2 ^ 31 → JS.and t (Z.ones k) = t mod 2 ^ k.
Proof.
  intros Hk Ht. unfold JS.and.
  assert (Hones : 0 <= Z.ones k < 2 ^ 31).
  { rewrite Z.ones_equiv.
    assert (2 ^ k <= 2 ^ 30) by (apply Z.pow_le_mono_r; lia).
    assert (0 < 2 ^ k) by (apply Z.pow_pos_nonneg; lia). lia. }
  rewrite (ToInt32_small t), (ToInt32_small (Z.ones k)) by lia.
  rewrite Z.land_ones by lia.
  pose proof (Z.mod_pos_bound t (2 ^ k) ltac:(apply Z.pow_pos_nonneg; lia)).
  assert (2 ^ k <= 2 ^ 30) by (apply Z.pow_le_mono_r; lia).
  apply ToInt32_small. lia.
Qed.

Lemma and_127 (t : Z) : 0 <= t < 256 → JS.and t 127 = t mod 128.
Proof. intros Ht. apply (and_mask t 7); lia. Qed.

Lemma and_15 (t : Z) : 0 <= t < 256 → JS.and t 15 = t mod 16.
Proof. intros Ht. apply (and_mask t 4); lia. Qed.

End VarintBits.

Section Varint32.

Import BinaryDecoder.
Context `{Asserts}.

(** [this.cursor_ += k; assert(this.cursor_ <= this.end_); return x;]
    inside the block. *)
Lemma run_return (k x : Z) (d : Decoder) :
  cursor_ d + k <= end_ d →
  bind (bump k) (λ _, bind assertInBlock (λ _, ret x)) d
  = (Ret x, withCursor d (cursor_ d + k)).
Proof.
  intros Hin. unfold bump, assertInBlock, assert, bind, get, set_cursor, ret.
  simpl. apply Z.leb_le in Hin. by rewrite Hin.
Qed.

Lemma and_continuation (b : Z) : 0 <= b < 128 → JS.and (b + 128) 127 = b.
Proof.
  intros Hb. rewrite and_127 by lia.
  replace (b + 128) with (b + 1 * 128) by lia.
  rewrite Z.mod_add by lia. apply Z.mod_small. lia.
Qed.

Lemma and_terminator (b : Z) : 0 <= b < 128 → JS.and b 127 = b.
Proof. intros Hb. rewrite and_127 by lia. apply Z.mod_small. lia. Qed.

Lemma or_shl_small (a c k : Z) :
  0 <= k < 32 → 0 <= a < 2 ^ k → 0 <= c → a + c * 2 ^ k < 2 ^ 31 →
  JS.or a (JS.shl c k) = a + c * 2 ^ k.
Proof.
  intros Hk Ha Hc Hsum.
  assert (0 < 2 ^ k) by (apply Z.pow_pos_nonneg; lia).
  assert (c < 2 ^ 31) by nia.
  rewrite or_shl by lia. rewrite (ToInt32_small c) by lia.
  apply ToInt32_small. nia.
Qed.


Ltac nat_constants :=
  change (Z.of_nat 0) with 0 in *; change (Z.of_nat 1) with 1 in *;
  change (Z.of_nat 2) with 2 in *; change (Z.of_nat 3) with 3 in *;
  change (Z.of_nat 4) with 4 in *; change (Z.of_nat 5) with 5 in *.

Ltac continuation_byte :=
  match goal with
  | |- context [JS.lt (Some ?t) 128] =>
      replace (JS.lt (Some t) 128) with false
        by (symmetry; apply Z.ltb_ge; lia)
  end.

Ltac terminator_byte :=
  match goal with
  | |- context [JS.lt (Some ?t) 128] =>
      replace (JS.lt (Some t) 128) with true
        by (symmetry; apply Z.ltb_lt; lia)
  end.

(** Reading back a varint of at most five bytes. *)
Lemma readUnsignedVarint32_encode (n : Z) (d : Decoder) (bs : list Z) :
  0 <= n < 2 ^ 32 →
  bytes_ d = Some bs →
  BinaryDecoder.bytesAt bs (cursor_ d) (Varint.encode32 n) →
  cursor_ d + Z.of_nat (length (Varint.encode32 n)) <= end_ d →
  readUnsignedVarint32 d
  = (Ret n,
     withCursor d (cursor_ d + Z.of_nat (length (Varint.encode32 n)))).
Proof.
  intros Hn Hbs Hat Hend. unfold readUnsignedVarint32.
  rewrite (run_bind _ _ _ _ _ (run_theBytes d bs Hbs)).
  unfold get at 1. unfold bind at 1.
  unfold Varint.encode32, bytesAt in *. cbn [Varint.encode] in *.
  pose proof (Z.div_mod n 128 ltac:(lia)) as E0.
  pose proof (Z.mod_pos_bound n 128 ltac:(lia)) as B0.
  set (n1 := n / 128) in *. set (b0 := n mod 128) in *.
  pose proof (Z.div_mod n1 128 ltac:(lia)) as E1.
  pose proof (Z.mod_pos_bound n1 128 ltac:(lia)) as B1.
  set (n2 := n1 / 128) in *. set (b1 := n1 mod 128) in *.
  pose proof (Z.div_mod n2 128 ltac:(lia)) as E2.
  pose proof (Z.mod_pos_bound n2 128 ltac:(lia)) as B2.
  set (n3 := n2 / 128) in *. set (b2 := n2 mod 128) in *.
  pose proof (Z.div_mod n3 128 ltac:(lia)) as E3.
  pose proof (Z.mod_pos_bound n3 128 ltac:(lia)) as B3.
  set (n4 := n3 / 128) in *. set (b3 := n3 mod 128) in *.
  destruct (Z.ltb_spec n 128) as [H1|H1].
  { pose proof (Hat 0%nat _ eq_refl) as G0. nat_constants.
    rewrite G0. terminator_byte.
    simpl length in *. nat_constants.
    rewrite run_return by lia. simpl JS.num.
    by rewrite and_terminator by lia. }
  clearbody b0 n1.
  destruct (Z.ltb_spec n1 128) as [H2|H2].
  { pose proof (Hat 0%nat _ eq_refl) as G0. pose proof (Hat 1%nat _ eq_refl) as G1.
    nat_constants.
    rewrite G0, G1. continuation_byte. terminator_byte.
    simpl length in *. nat_constants.
    rewrite run_return by lia. simpl JS.num.
    rewrite and_continuation, and_terminator by lia.
    rewrite or_shl_small by lia. f_equal. f_equal. lia. }
  clearbody b1 n2.
  destruct (Z.ltb_spec n2 128) as [H3|H3].
  { pose proof (Hat 0%nat _ eq_refl) as G0. pose proof (Hat 1%nat _ eq_refl) as G1.
    pose proof (Hat 2%nat _ eq_refl) as G2.
    nat_constants.
    rewrite G0, G1, G2. do 2 continuation_byte. terminator_byte.
    simpl length in *. nat_constants.
    rewrite run_return by lia. simpl JS.num.
    rewrite !and_continuation, and_terminator by lia.
    rewrite (or_shl_small b0 b1 7) by lia.
    rewrite or_shl_small by lia. f_equal. f_equal. lia. }
  clearbody b2 n3.
  destruct (Z.ltb_spec n3 128) as [H4|H4].
  { pose proof (Hat 0%nat _ eq_refl) as G0. pose proof (Hat 1%nat _ eq_refl) as G1.
    pose proof (Hat 2%nat _ eq_refl) as G2. pose proof (Hat 3%nat _ eq_refl) as G3.
    nat_constants.
    rewrite G0, G1, G2, G3. do 3 continuation_byte. terminator_byte.
    simpl length in *. nat_constants.
    rewrite run_return by lia. simpl JS.num.
    rewrite !and_continuation, and_terminator by lia.
    rewrite (or_shl_small b0 b1 7) by lia.
    rewrite (or_shl_small _ b2 14) by lia.
    rewrite or_shl_small by lia. f_equal. f_equal. lia. }
  clearbody b3 n4.
  assert (H5 : n4 < 16) by lia.
  destruct (Z.ltb_spec n4 128) as [_|?]; [|lia].
  pose proof (Hat 0%nat _ eq_refl) as G0. pose proof (Hat 1%nat _ eq_refl) as G1.
  pose proof (Hat 2%nat _ eq_refl) as G2. pose proof (Hat 3%nat _ eq_refl) as G3.
  pose proof (Hat 4%nat _ eq_refl) as G4.
  nat_constants.
  rewrite G0, G1, G2, G3, G4. do 4 continuation_byte. terminator_byte.
  simpl length in *. nat_constants.
  rewrite run_return by lia. simpl JS.num.
  rewrite !and_continuation by lia.
  rewrite and_15 by lia. rewrite (Z.mod_small n4 16) by lia.
  rewrite (or_shl_small b0 b1 7) by lia.
  rewrite (or_shl_small _ b2 14) by lia.
  rewrite (or_shl_small _ b3 21) by lia.
  rewrite or_shl by lia. rewrite (ToInt32_small n4) by lia.
  rewrite ushr_zero, ToUint32_ToInt32, ToUint32_small by lia.
  f_equal. f_equal. lia.
Qed.

End Varint32.

(** X5.  The method behind the 32-bit part of C3: on the varint of the
    zigzag encoding of a signed 32-bit integer [s], inside the block,
    [readZigzagVarint32] returns [s] and leaves the cursor after the
    varint. *)
Theorem readZigzagVarint32_after_encoding `{Asserts}
    (s : Z) (d : BinaryDecoder.Decoder) (bs : list Z) :
  - 2 ^ 31 <= s < 2 ^ 31 →
  let enc := Varint.encode32 (Zigzag.encode32 s) in
  BinaryDecoder.bytes_ d = Some bs →
  BinaryDecoder.bytesAt bs (BinaryDecoder.cursor_ d) enc →
  BinaryDecoder.cursor_ d + Z.of_nat (length enc) <= BinaryDecoder.end_ d →
  BinaryDecoder.readZigzagVarint32 d
  = (Ret s,
     BinaryDecoder.withCursor d
       (BinaryDecoder.cursor_ d + Z.of_nat (length enc))).
Proof.
  intros Hs enc Hbs Hat Hend. unfold BinaryDecoder.readZigzagVarint32.
  assert (Hn : 0 <= Zigzag.encode32 s < 2 ^ 32).
  { rewrite encode32_value by done. destruct (s <? 0) eqn:Hneg; lia. }
  rewrite (run_bind _ _ _ _ _
             (readUnsignedVarint32_encode _ d bs Hn Hbs Hat Hend)).
  unfold BinaryDecoder.ret. by rewrite zigzag32_round_trip.
Qed.

(** [-3] is encoded as 5, [-2^31] as 2^32 - 1 in five bytes. *)
Example readZigzagVarint32_examples :
  (BinaryDecoder.readZigzagVarint32 (H := Examples.assertsOn)
     (BinaryDecoder.new (Some (Varint.encode32 (Zigzag.encode32 (-3))))
                        None None)).1 = Ret (-3)
  ∧ Varint.encode32 (Zigzag.encode32 (- 2 ^ 31)) = [255; 255; 255; 255; 15]
  ∧ (BinaryDecoder.readZigzagVarint32 (H := Examples.assertsOn)
       (BinaryDecoder.new (Some [255; 255; 255; 255; 15]) None None)).1
    = Ret (- 2 ^ 31).
Proof. by vm_compute. Qed.

(* ===================================================================== *)
(** * Further properties of the decoder and of the generated code *)
(* ===================================================================== *)

(* ===================================================================== *)
(** ** Facts about the concrete inputs *)
(* ===================================================================== *)

Section ExampleFacts.

Lemma eightBytes_uint8s : BinaryDecoder.uint8s Examples.eightBytes.
Proof. repeat constructor; lia. Qed.

Lemma codePoints_valid : Utf8.codePoints Examples.codePoints.
Proof. repeat constructor; lia. Qed.

Lemma calls_disciplined :
  BinaryDecoder.disciplined Examples.calls BinaryDecoder.initial.
Proof.
  cbn [BinaryDecoder.disciplined Examples.calls]. unfold BinaryDecoder.live.
  repeat split; try (vm_compute; by eauto);
    by apply not_elem_of_nil.
Qed.

Lemma oneDecoder_pristine : BinaryDecoder.pristine Examples.oneDecoder.
Proof.
  split; [constructor|]. split.
  - intros r Hr. by apply not_elem_of_nil in Hr.
  - intros r [d Hd]. simpl in *.
    destruct (decide (r = 0%nat)) as [->|Hne]; [lia|].
    by rewrite lookup_insert_ne, lookup_empty in Hd.
Qed.

Lemma W_plain : Forall (λ f, plainField f = true) Examples.W.
Proof. by repeat constructor. Qed.

Lemma W_literal : Forall (λ f, JSON.literalKeys f = true) Examples.W.
Proof. by repeat constructor. Qed.

Lemma W_own : ownKeys Examples.W.
Proof.
  intros f k Hf Hk. unfold Examples.W in Hf.
  rewrite !elem_of_cons, elem_of_nil in Hf. apply list_elem_of_In in Hk.
  destruct Hf as [->|[->|[->|[->|[]]]]]; vm_compute in Hk;
    destruct Hk as [<-|[]]; reflexivity.
Qed.

Lemma W_names : NoDup (List.map IR.name Examples.W).
Proof. cbv [Examples.W List.map]. simpl. compute_done. Qed.

Lemma W_keys (f g : IR.Field) :
  f ∈ Examples.W → g ∈ Examples.W → IR.name f ≠ IR.name g →
  JSON.setField (H := Examples.json) f
  ∉ JSON.getFieldKeys g.
Proof.
  unfold Examples.W. rewrite !elem_of_cons, !elem_of_nil.
  intros Hf Hg Hne Hin. apply list_elem_of_In in Hin.
  destruct Hf as [->|[->|[->|[->|[]]]]], Hg as [->|[->|[->|[->|[]]]]];
    try done; vm_compute in Hin; intuition discriminate.
Qed.

End ExampleFacts.

Section VarintShape.

Import BinaryDecoder.

(** The first byte of a varint: the last one, or a continuation byte
    followed by a varint. *)
Lemma terminated_cons (b : Z) (rest : list Z) :
  Varint.terminated (b :: rest) = true →
  0 <= b < 256
  ∧ (rest = [] ∧ b < 128 ∨ 128 <= b ∧ Varint.terminated rest = true).
Proof.
  simpl. destruct rest as [|b' rest'].
  - intros [?%Z.leb_le ?%Z.ltb_lt]%andb_prop.
    split; [lia|]. left. split; [done|lia].
  - intros [[?%Z.leb_le ?%Z.ltb_lt]%andb_prop ?]%andb_prop.
    split; [lia|]. right. split; [lia|done].
Qed.

Lemma bytesAt_cons (bs : list Z) (c k b : Z) (rest : list Z) :
  bytesAt bs (c + k) (b :: rest) →
  index bs (c + k) = Some b ∧ bytesAt bs (c + (k + 1)) rest.
Proof.
  intros Hat. split.
  - rewrite <- (Z.add_0_r (c + k)). apply (Hat 0%nat). done.
  - intros j x Hj.
    replace (c + (k + 1) + Z.of_nat j) with (c + k + Z.of_nat (S j)) by lia.
    by apply Hat.
Qed.

Lemma bytesAt_start (bs : list Z) (c : Z) (enc : list Z) :
  bytesAt bs c enc → bytesAt bs (c + 0) enc.
Proof. by rewrite Z.add_0_r. Qed.

Lemma value_bounds (enc : list Z) : 0 <= Varint.value enc.
Proof.
  induction enc as [|b rest IH]; simpl; [lia|].
  pose proof (Z.mod_pos_bound b 128 ltac:(lia)). lia.
Qed.

Lemma bytesAt_whole (bs : list Z) : bytesAt bs 0 bs.
Proof.
  intros j b Hj. unfold index. rewrite Z.add_0_l.
  destruct (Z.ltb_spec (Z.of_nat j) 0); [lia|]. by rewrite Nat2Z.id.
Qed.

End VarintShape.

(** Takes the next byte of the varint laid out at the cursor: what is
    read at its position, its bounds, and whether it is the last. *)
Ltac varint_byte Hterm Hat b Hb Hi Hcase :=
  match type of Hat with
  | BinaryDecoder.bytesAt ?bs (?c + ?k) ?enc =>
      destruct enc as [|b enc]; [discriminate Hterm|];
      apply terminated_cons in Hterm as [Hb Hcase];
      let k' := eval cbv in (k + 1) in
      apply bytesAt_cons in Hat as [Hi Hat];
      change (c + (k + 1)) with (c + k') in Hat;
      rewrite ?Hi;
      destruct Hcase as [[-> Hcase]|[Hcase Hterm]]
  end.

Ltac byte_continues :=
  match goal with
  | |- context [JS.lt (Some ?t) 128] =>
      replace (JS.lt (Some t) 128) with false
        by (symmetry; apply Z.ltb_ge; lia)
  end.

Ltac byte_terminates :=
  match goal with
  | |- context [JS.lt (Some ?t) 128] =>
      replace (JS.lt (Some t) 128) with true
        by (symmetry; apply Z.ltb_lt; lia)
  end.

(** Names the payload [b mod 128] of a byte and records its bounds. *)
Ltac payload b p :=
  let Hp := fresh "Hp" in
  pose proof (Z.mod_pos_bound b 128 ltac:(lia)) as Hp;
  set (p := b mod 128) in *.

Section Varint32Value.
Import BinaryDecoder.
Context `{Asserts}.

(** The chain of [readUnsignedVarint32] after the fifth byte, on the rest
    of a varint: it stops at the last byte, so [assert(false)] is not
    reached. *)
Lemma continued_terminated (n : nat) (d : Decoder) (bs rest : list Z) :
  bytes_ d = Some bs →
  bytesAt bs (cursor_ d) rest →
  Varint.terminated rest = true →
  (length rest <= n)%nat →
  continued n d
  = (Ret false, withCursor d (cursor_ d + Z.of_nat (length rest))).
Proof.
  revert d rest. induction n as [|n IH]; intros d rest Hbs Hat Hterm Hlen.
  - destruct rest; [discriminate Hterm | simpl in Hlen; lia].
  - destruct rest as [|b rest]; [discriminate Hterm|].
    apply terminated_cons in Hterm as [Hb Hcase].
    apply bytesAt_start, bytesAt_cons in Hat as [Hi Hat].
    rewrite Z.add_0_r in Hi.
    simpl continued.
    rewrite (run_bind _ _ _ _ _ (run_nextByte d bs Hbs)), Hi.
    destruct Hcase as [[-> Hlast]|[Hcont Hterm]].
    + unfold JS.ge. destruct (Z.leb_spec 128 b); [lia|]. done.
    + unfold JS.ge. destruct (Z.leb_spec 128 b); [|lia].
      rewrite (IH _ rest); [| done | | done | simpl in Hlen; lia].
      * rewrite withCursor_twice. simpl. do 2 f_equal. lia.
      * simpl. by rewrite Z.add_0_l in Hat.
Qed.

Lemma readUnsignedVarint32_terminated (d : Decoder) (bs enc : list Z) :
  bytes_ d = Some bs →
  bytesAt bs (cursor_ d) enc →
  Varint.terminated enc = true →
  (length enc <= 10)%nat →
  cursor_ d + Z.of_nat (length enc) <= end_ d →
  readUnsignedVarint32 d
  = (Ret (if (length enc <=? 5)%nat then JS.ToUint32 (Varint.value enc)
          else JS.ToInt32 (Varint.value enc)),
     withCursor d (cursor_ d + Z.of_nat (length enc))).
Proof.
  intros Hbs Hat Hterm Hlen Hend. unfold readUnsignedVarint32.
  rewrite (run_bind _ _ _ _ _ (run_theBytes d bs Hbs)).
  unfold get at 1. unfold bind at 1.
  apply bytesAt_start in Hat.
  varint_byte Hterm Hat b0 Hb0 Hi0 Hc0.
  { byte_terminates. rewrite run_return by (simpl in Hend; lia).
    simpl. rewrite and_127 by lia. payload b0 p0.
    rewrite ToUint32_small by lia. do 2 f_equal. lia. }
  byte_continues.
  varint_byte Hterm Hat b1 Hb1 Hi1 Hc1.
  { byte_terminates. rewrite run_return by (simpl in Hend; lia).
    simpl JS.num. rewrite !and_127 by lia. payload b0 p0. payload b1 p1.
    rewrite or_shl_small by lia.
    simpl. rewrite ToUint32_small by lia. do 2 f_equal. lia. }
  byte_continues.
  varint_byte Hterm Hat b2 Hb2 Hi2 Hc2.
  { byte_terminates. rewrite run_return by (simpl in Hend; lia).
    simpl JS.num. rewrite !and_127 by lia.
    payload b0 p0. payload b1 p1. payload b2 p2.
    rewrite (or_shl_small p0 p1 7) by lia.
    rewrite or_shl_small by lia.
    simpl. rewrite ToUint32_small by lia. do 2 f_equal. lia. }
  byte_continues.
  varint_byte Hterm Hat b3 Hb3 Hi3 Hc3.
  { byte_terminates. rewrite run_return by (simpl in Hend; lia).
    simpl JS.num. rewrite !and_127 by lia.
    payload b0 p0. payload b1 p1. payload b2 p2. payload b3 p3.
    rewrite (or_shl_small p0 p1 7) by lia.
    rewrite (or_shl_small _ p2 14) by lia.
    rewrite or_shl_small by lia.
    simpl. rewrite ToUint32_small by lia. do 2 f_equal. lia. }
  byte_continues.
  varint_byte Hterm Hat b4 Hb4 Hi4 Hc4.
  { byte_terminates. rewrite run_return by (simpl in Hend; lia).
    simpl JS.num. rewrite !and_127, and_15 by lia.
    pose proof (Z.mod_pos_bound b4 16 ltac:(lia)).
    payload b0 p0. payload b1 p1. payload b2 p2. payload b3 p3.
    rewrite (or_shl_small p0 p1 7) by lia.
    rewrite (or_shl_small _ p2 14) by lia.
    rewrite (or_shl_small _ p3 21) by lia.
    rewrite or_shl by lia. rewrite (ToInt32_small (b4 mod 16)) by lia.
    rewrite ushr_zero, ToUint32_ToInt32.
    simpl. do 2 f_equal. unfold JS.ToUint32.
    subst p0 p1 p2 p3. Z.div_mod_to_equations. lia. }
  byte_continues.
  assert (Hrest : (length enc <= 5)%nat) by (simpl in Hlen; lia).
  change (bytesAt bs (cursor_ (withCursor d (cursor_ d + 5))) enc) in Hat.
  unfold bump at 1. unfold get at 1, set_cursor at 1. unfold bind at 1 2.
  rewrite (run_bind _ _ _ _ _
             (continued_terminated 5 (withCursor d (cursor_ d + 5)) bs enc
                Hbs Hat Hterm Hrest)).
  rewrite withCursor_twice. simpl cursor_.
  assert (Hin : cursor_ d + 5 + Z.of_nat (length enc) <= end_ d).
  { simpl length in Hend. lia. }
  unfold assertInBlock, assert, bind, get, ret. simpl.
  apply Z.leb_le in Hin. rewrite Hin.
  destruct enc as [|b5 enc]; [discriminate Hterm|].
  simpl length. simpl Nat.leb. cbv iota.
  f_equal; [|unfold withCursor; simpl; f_equal; lia].
  f_equal.
  rewrite !and_127, and_15 by lia.
  pose proof (Z.mod_pos_bound b4 16 ltac:(lia)).
  payload b0 p0. payload b1 p1. payload b2 p2. payload b3 p3.
  rewrite (or_shl_small p0 p1 7) by lia.
  rewrite (or_shl_small _ p2 14) by lia.
  rewrite (or_shl_small _ p3 21) by lia.
  rewrite or_shl by lia. rewrite (ToInt32_small (b4 mod 16)) by lia.
  apply ToInt32_congr.
  cbn [Varint.value]. fold p0 p1 p2 p3.
  generalize (Varint.value enc). intros V.
  subst p0 p1 p2 p3. Z.div_mod_to_equations. lia.
Qed.

End Varint32Value.

Section Varint64Value.
Import BinaryDecoder.
Context `{Asserts}.

Lemma lowLoop_next (n : nat) (i : Z) (t : option Z) (low : Z) (d : Decoder)
    (bs : list Z) (k b : Z) :
  bytes_ d = Some bs → JS.ge t 128 = true → index bs (cursor_ d + k) = Some b →
  lowLoop (S n) i t low (withCursor d (cursor_ d + k))
  = lowLoop n (i + 1) (Some b) (JS.or low (JS.shl (JS.and b 127) (i * 7)))
      (withCursor d (cursor_ d + (k + 1))).
Proof.
  intros Hbs Ht Hi. simpl lowLoop. rewrite Ht.
  rewrite (run_bind _ _ _ _ _
             (run_nextByte (withCursor d (cursor_ d + k)) bs Hbs)).
  simpl cursor_. rewrite Hi, withCursor_twice, Z.add_assoc. done.
Qed.

Lemma lowLoop_done (n : nat) (i : Z) (t : option Z) (low : Z) (d : Decoder) :
  JS.ge t 128 = false ∨ n = O → lowLoop n i t low d = (Ret (t, low), d).
Proof. intros [Ht| ->]; [|done]. destruct n; [done|]. simpl. by rewrite Ht. Qed.

Lemma highLoop_next (n : nat) (i : Z) (t : option Z) (high : Z) (d : Decoder)
    (bs : list Z) (k b : Z) :
  bytes_ d = Some bs → JS.ge t 128 = true → index bs (cursor_ d + k) = Some b →
  highLoop (S n) i t high (withCursor d (cursor_ d + k))
  = highLoop n (i + 1) (Some b)
      (JS.or high (JS.shl (JS.and b 127) (i * 7 + 3)))
      (withCursor d (cursor_ d + (k + 1))).
Proof.
  intros Hbs Ht Hi. simpl highLoop. rewrite Ht.
  rewrite (run_bind _ _ _ _ _
             (run_nextByte (withCursor d (cursor_ d + k)) bs Hbs)).
  simpl cursor_. rewrite Hi, withCursor_twice, Z.add_assoc. done.
Qed.

Lemma highLoop_done (n : nat) (i : Z) (t : option Z) (high : Z) (d : Decoder) :
  JS.ge t 128 = false ∨ n = O → highLoop n i t high d = (Ret (t, high), d).
Proof. intros [Ht| ->]; [|done]. destruct n; [done|]. simpl. by rewrite Ht. Qed.

Lemma ge_continues (b : Z) : 128 <= b → JS.ge (Some b) 128 = true.
Proof. intros Hb. by apply Z.leb_le. Qed.

Lemma ge_terminates (b : Z) : b < 128 → JS.ge (Some b) 128 = false.
Proof. intros Hb. by apply Z.leb_gt. Qed.

Lemma lt_terminates (b : Z) : b < 128 → JS.lt (Some b) 128 = true.
Proof. intros Hb. by apply Z.ltb_lt. Qed.

Lemma or_zero_shr (p k : Z) :
  0 <= k < 32 → 0 <= p < 2 ^ 31 → JS.or 0 (JS.shr p k) = p / 2 ^ k.
Proof.
  intros Hk Hp. unfold JS.or, JS.shr. rewrite Z.mod_small by lia.
  rewrite (ToInt32_small p) by lia. change (JS.ToInt32 0) with 0.
  rewrite Z.lor_0_l, Z.shiftr_div_pow2 by lia.
  assert (0 < 2 ^ k) by (apply Z.pow_pos_nonneg; lia).
  assert (0 <= p / 2 ^ k <= p).
  { split; [apply Z.div_pos; lia|]. apply Z.div_le_upper_bound; nia. }
  rewrite ToInt32_idem. rewrite ToInt32_small; lia.
Qed.


Lemma nextByte_at (d : Decoder) (bs : list Z) (k b : Z) :
  bytes_ d = Some bs → index bs (cursor_ d + k) = Some b →
  nextByte (withCursor d (cursor_ d + k))
  = (Ret (Some b), withCursor d (cursor_ d + (k + 1))).
Proof.
  intros Hbs Hi.
  rewrite (run_nextByte (withCursor d (cursor_ d + k)) bs Hbs).
  simpl cursor_. rewrite Hi, withCursor_twice, Z.add_assoc. done.
Qed.

End Varint64Value.

(** Rewrites the innermost [a | (c << k)] whose sum stays below 2^31. *)
Ltac or_shl_sums :=
  repeat match goal with
  | |- context [JS.or ?a (JS.shl ?c ?k)] =>
      lazymatch a with
      | context [JS.or _ _] => fail
      | _ => rewrite (or_shl_small a c k) by lia
      end
  end.

(** The constants the unrolled loops compute with. *)
Ltac loop_constants :=
  change (0 + 1) with 1; change (1 + 1) with 2; change (2 + 1) with 3;
  change (3 + 1) with 4; change (4 + 1) with 5; change (5 + 1) with 6;
  change (6 + 1) with 7; change (7 + 1) with 8; change (8 + 1) with 9;
  change (9 + 1) with 10;
  change (0 * 7) with 0; change (1 * 7) with 7; change (2 * 7) with 14;
  change (3 * 7) with 21; change (4 * 7) with 28;
  change (0 + 3) with 3; change (7 + 3) with 10; change (14 + 3) with 17;
  change (21 + 3) with 24; change (28 + 3) with 31.

(** One step of the run of [readSplitVarint64] on known bytes. *)
Ltac varint64_step Hbs :=
  first
  [ rewrite lowLoop_done
      by first [left; apply ge_terminates; lia | right; reflexivity]
  | rewrite highLoop_done
      by first [left; apply ge_terminates; lia | right; reflexivity]
  | match goal with
    | Hi : BinaryDecoder.index _ (BinaryDecoder.cursor_ ?d + ?k) = Some ?b
      |- context [BinaryDecoder.lowLoop (S ?n) ?i ?t ?low
                    (BinaryDecoder.withCursor ?d (BinaryDecoder.cursor_ ?d + ?k))] =>
        rewrite (lowLoop_next n i t low d _ k b Hbs
                   ltac:(apply ge_continues; lia) Hi)
    | Hi : BinaryDecoder.index _ (BinaryDecoder.cursor_ ?d + ?k) = Some ?b
      |- context [BinaryDecoder.highLoop (S ?n) ?i ?t ?high
                    (BinaryDecoder.withCursor ?d (BinaryDecoder.cursor_ ?d + ?k))] =>
        rewrite (highLoop_next n i t high d _ k b Hbs
                   ltac:(apply ge_continues; lia) Hi)
    | Hi : BinaryDecoder.index _ (BinaryDecoder.cursor_ ?d + ?k) = Some ?b
      |- context [BinaryDecoder.nextByte
                    (BinaryDecoder.withCursor ?d (BinaryDecoder.cursor_ ?d + ?k))] =>
        rewrite (nextByte_at d _ k b Hbs Hi)
    | |- context [JS.ge (Some ?b) 128] =>
        first [rewrite (ge_continues b) by lia
              | rewrite (ge_terminates b) by lia]
    | |- context [JS.lt (Some ?b) 128] =>
        rewrite (lt_terminates b) by lia
    end ];
  cbv beta iota; loop_constants.

Ltac payloads :=
  repeat match goal with
  | |- context [JS.and ?b 127] =>
      rewrite (and_127 b) by lia;
      let p := fresh "p" in
      let Hp := fresh "Hp" in
      pose proof (Z.mod_pos_bound b 128 ltac:(lia)) as Hp;
      set (p := b mod 128) in *
  end.

Ltac varint64_value :=
  simpl JS.num; cbn [Varint.value length]; payloads;
  rewrite ?or_zero_shr by lia;
  try match goal with
  | |- context [?p / 2 ^ 4] =>
      assert (0 <= p / 2 ^ 4 < 8) by (Z.div_mod_to_equations; lia)
  end;
  or_shl_sums;
  repeat match goal with
  | |- context [JS.or ?a (JS.shl ?c ?k)] =>
      rewrite (or_shl a c k) by lia; rewrite (ToInt32_small c) by lia
  end;
  rewrite !ushr_zero, ?ToUint32_ToInt32; unfold JS.ToUint32;
  apply (f_equal2 pair);
  [ apply (f_equal Ret), (f_equal Some), f_equal2;
    Z.div_mod_to_equations; lia
  | unfold BinaryDecoder.withCursor; f_equal; simpl; lia ].

Section Varint64Run.
Import BinaryDecoder.
Context `{Asserts}.

Lemma readSplitVarint64_terminated {T} (convert : Z → Z → T)
    (d : Decoder) (bs enc : list Z) :
  bytes_ d = Some bs →
  bytesAt bs (cursor_ d) enc →
  Varint.terminated enc = true →
  (length enc <= 10)%nat →
  readSplitVarint64 convert d
  = (Ret (Some (convert (Varint.value enc mod 2 ^ 32)
                        (Varint.value enc / 2 ^ 32 mod 2 ^ 32))),
     withCursor d (cursor_ d + Z.of_nat (length enc))).
Proof.
  intros Hbs Hat Hterm Hlen.
  rewrite <- (withCursor_same d) at 1.
  rewrite <- (Z.add_0_r (cursor_ d)) at 1.
  apply bytesAt_start in Hat.
  unfold readSplitVarint64, bind, ret.
  varint_byte Hterm Hat b0 Hb0 Hi0 Hc0.
  { repeat varint64_step Hbs. varint64_value. }
  varint_byte Hterm Hat b1 Hb1 Hi1 Hc1.
  { repeat varint64_step Hbs. varint64_value. }
  varint_byte Hterm Hat b2 Hb2 Hi2 Hc2.
  { repeat varint64_step Hbs. varint64_value. }
  varint_byte Hterm Hat b3 Hb3 Hi3 Hc3.
  { repeat varint64_step Hbs. varint64_value. }
  varint_byte Hterm Hat b4 Hb4 Hi4 Hc4.
  { repeat varint64_step Hbs. varint64_value. }
  varint_byte Hterm Hat b5 Hb5 Hi5 Hc5.
  { repeat varint64_step Hbs. varint64_value. }
  varint_byte Hterm Hat b6 Hb6 Hi6 Hc6.
  { repeat varint64_step Hbs. varint64_value. }
  varint_byte Hterm Hat b7 Hb7 Hi7 Hc7.
  { repeat varint64_step Hbs. varint64_value. }
  varint_byte Hterm Hat b8 Hb8 Hi8 Hc8.
  { repeat varint64_step Hbs. varint64_value. }
  varint_byte Hterm Hat b9 Hb9 Hi9 Hc9.
  { repeat varint64_step Hbs. varint64_value. }
  destruct enc; [discriminate Hterm | simpl in Hlen; lia].
Qed.

End Varint64Run.

(** X1.  On a varint of at most ten bytes that lies inside the block,
    [readUnsignedVarint32] leaves the cursor after the last byte and
    returns the low 32 bits of the value: as an unsigned number when the
    varint has at most five bytes, as a signed one when it has more (the
    payload of the bytes after the fifth is not looked at).  The error
    flag is left alone. *)
Theorem readUnsignedVarint32_value `{Asserts} (d : BinaryDecoder.Decoder)
    (bs enc : list Z) :
  BinaryDecoder.bytes_ d = Some bs →
  BinaryDecoder.bytesAt bs (BinaryDecoder.cursor_ d) enc →
  Varint.terminated enc = true →
  (length enc <= 10)%nat →
  BinaryDecoder.cursor_ d + Z.of_nat (length enc) <= BinaryDecoder.end_ d →
  BinaryDecoder.readUnsignedVarint32 d
  = (Ret (if (length enc <=? 5)%nat then JS.ToUint32 (Varint.value enc)
          else JS.ToInt32 (Varint.value enc)),
     BinaryDecoder.withCursor d
       (BinaryDecoder.cursor_ d + Z.of_nat (length enc))).
Proof. apply readUnsignedVarint32_terminated. Qed.

Lemma readUnsignedVarint32_value_witness :
  (BinaryDecoder.readUnsignedVarint32 (H := Examples.assertsOn)
     (BinaryDecoder.new (Some Examples.minusOne) None None)).1 = Ret (-1)
  ∧ (BinaryDecoder.readUnsignedVarint32 (H := Examples.assertsOn)
       (BinaryDecoder.new (Some [172; 2]) None None)).1 = Ret 300.
Proof.
  split.
  - rewrite (readUnsignedVarint32_value (H := Examples.assertsOn)
               (BinaryDecoder.new (Some Examples.minusOne) None None)
               Examples.minusOne Examples.minusOne eq_refl
               (bytesAt_whole _) eq_refl);
      [reflexivity | simpl; lia | simpl; lia].
  - rewrite (readUnsignedVarint32_value (H := Examples.assertsOn)
               (BinaryDecoder.new (Some [172; 2]) None None)
               [172; 2] [172; 2] eq_refl (bytesAt_whole _) eq_refl);
      [reflexivity | simpl; lia | simpl; lia].
Defined.

(** X2.  On a varint of at most ten bytes [readSplitVarint64] leaves the
    cursor after the last byte and hands [convert] the two halves of the
    value, its low 64 bits, as unsigned 32-bit numbers.  Nothing is
    asserted: the end of the block plays no part. *)
Theorem readSplitVarint64_value `{Asserts} {T} (convert : Z → Z → T)
    (d : BinaryDecoder.Decoder) (bs enc : list Z) :
  BinaryDecoder.bytes_ d = Some bs →
  BinaryDecoder.bytesAt bs (BinaryDecoder.cursor_ d) enc →
  Varint.terminated enc = true →
  (length enc <= 10)%nat →
  BinaryDecoder.readSplitVarint64 convert d
  = (Ret (Some (convert (Varint.value enc mod 2 ^ 32)
                        (Varint.value enc / 2 ^ 32 mod 2 ^ 32))),
     BinaryDecoder.withCursor d
       (BinaryDecoder.cursor_ d + Z.of_nat (length enc))).
Proof. apply readSplitVarint64_terminated. Qed.

Lemma readSplitVarint64_value_witness :
  (BinaryDecoder.readSplitVarint64 (H := Examples.assertsOn) pair
     (BinaryDecoder.new (Some Examples.minusOne) None None)).1
  = Ret (Some (4294967295, 4294967295)).
Proof.
  rewrite (readSplitVarint64_value (H := Examples.assertsOn) pair
             (BinaryDecoder.new (Some Examples.minusOne) None None)
             Examples.minusOne Examples.minusOne eq_refl
             (bytesAt_whole _) eq_refl);
    [reflexivity | simpl; lia].
Defined.

Section SkipVarint.
Import BinaryDecoder.
Context `{Asserts}.

(** [b & 0x80] on a byte. *)
Lemma and_128 (b : Z) :
  0 <= b < 256 → JS.and b 128 = if b <? 128 then 0 else 128.
Proof.
  intros Hb. unfold JS.and.
  rewrite (ToInt32_small b), (ToInt32_small 128) by lia.
  change 128 with (1 * 2 ^ 7) at 1.
  destruct (Z.ltb_spec b 128).
  - rewrite (land_low_high b 1 7) by lia. done.
  - replace b with (Z.lor (b - 128) (1 * 2 ^ 7))
      by (rewrite (lor_low_high (b - 128) 1 7) by lia; lia).
    rewrite Z.land_lor_distr_l, Z.land_diag.
    rewrite (land_low_high (b - 128) 1 7) by lia. done.
Qed.

(** A byte that is read lies inside the buffer. *)
Lemma index_Some (bs : list Z) (i b : Z) :
  index bs i = Some b → 0 <= i < Z.of_nat (length bs).
Proof.
  unfold index. destruct (Z.ltb_spec i 0); [done|].
  intros Hl%lookup_lt_Some. lia.
Qed.

Lemma bytesAt_length (bs : list Z) (c : Z) (enc : list Z) :
  bytesAt bs c enc → enc ≠ [] → (length enc <= length bs)%nat.
Proof.
  intros Hat Hne.
  destruct enc as [|b0 rest]; [done|].
  pose proof (index_Some _ _ _ (Hat 0%nat b0 eq_refl)) as H0.
  destruct (lookup_lt_is_Some_2 (b0 :: rest) (length rest)) as [b Hb];
    [simpl; lia|].
  pose proof (index_Some _ _ _ (Hat _ b Hb)) as H1. simpl. lia.
Qed.

Lemma skipLoop_terminated (fuel : nat) (d : Decoder) (bs enc : list Z) :
  bytes_ d = Some bs →
  bytesAt bs (cursor_ d) enc →
  Varint.terminated enc = true →
  (length enc <= S fuel)%nat →
  skipLoop fuel d
  = (Ret tt, withCursor d (cursor_ d + Z.of_nat (length enc) - 1)).
Proof.
  revert d enc. induction fuel as [|fuel IH]; intros d enc Hbs Hat Hterm Hlen.
  - destruct enc as [|b [|b' rest]]; [done| |simpl in Hlen; lia].
    simpl. rewrite <- (withCursor_same d) at 1. do 2 f_equal. lia.
  - destruct enc as [|b rest]; [done|].
    apply terminated_cons in Hterm as [Hb Hcase].
    apply bytesAt_start, bytesAt_cons in Hat as [Hi Hat].
    rewrite Z.add_0_r in Hi.
    simpl skipLoop.
    rewrite (run_bind _ _ _ _ _ (run_theBytes d bs Hbs)).
    unfold get at 1. unfold bind at 1. rewrite Hi.
    change (JS.num (Some b)) with b. rewrite and_128 by done.
    destruct Hcase as [[-> Hlast]|[Hcont Hterm]].
    + apply Z.ltb_lt in Hlast as ->. simpl.
      rewrite <- (withCursor_same d) at 1. unfold ret. do 2 f_equal. lia.
    + apply Z.ltb_ge in Hcont as ->. simpl.
      unfold bump, bind, get, set_cursor.
      rewrite (IH _ rest); [| done | | done | simpl in Hlen; lia].
      * rewrite withCursor_twice. simpl. do 2 f_equal. lia.
      * simpl. by rewrite Z.add_0_l in Hat.
Qed.

Lemma skipVarint_terminated (d : Decoder) (bs enc : list Z) :
  bytes_ d = Some bs →
  bytesAt bs (cursor_ d) enc →
  Varint.terminated enc = true →
  skipVarint d = (Ret tt, withCursor d (cursor_ d + Z.of_nat (length enc))).
Proof.
  intros Hbs Hat Hterm. unfold skipVarint.
  rewrite (run_bind _ _ _ _ _ (run_theBytes d bs Hbs)).
  assert (Hlen : (length enc <= S (length bs))%nat).
  { assert (Hne : enc ≠ []) by (by destruct enc).
    pose proof (bytesAt_length bs _ enc Hat Hne). lia. }
  rewrite (run_bind _ _ _ _ _ (skipLoop_terminated _ d bs enc Hbs Hat Hterm Hlen)).
  unfold bump, bind, get, set_cursor. simpl.
  unfold withCursor. simpl. do 2 f_equal. lia.
Qed.


Lemma ushr_7 (v : Z) : 0 <= v < 2 ^ 32 → JS.ushr v 7 = v / 2 ^ 7.
Proof.
  intros Hv. unfold JS.ushr. rewrite ToUint32_small by done.
  change (7 mod 32) with 7. by rewrite Z.shiftr_div_pow2 by lia.
Qed.


Lemma unskipLoop_turns (fuel : nat) (v : Z) (d : Decoder) :
  0 <= v < 2 ^ 32 →
  unskipLoop fuel v d = (Ret tt, withCursor d (cursor_ d - turns fuel v)).
Proof.
  revert v d. induction fuel as [|fuel IH]; intros v d Hv.
  - simpl. rewrite Z.sub_0_r, withCursor_same. done.
  - simpl. destruct (Z.ltb_spec 128 v).
    + unfold bump, bind, get, set_cursor. rewrite ushr_7 by done.
      rewrite IH by (Z.div_mod_to_equations; lia).
      rewrite withCursor_twice. simpl. do 2 f_equal. lia.
    + unfold ret. rewrite Z.sub_0_r, withCursor_same. done.
Qed.

Lemma turns_unskipped (v : Z) : 0 <= v < 2 ^ 32 → turns 4 v + 1 = unskipped v.
Proof.
  intros Hv. unfold unskipped. simpl turns.
  set (v1 := v / 2 ^ 7). set (v2 := v1 / 2 ^ 7). set (v3 := v2 / 2 ^ 7).
  assert (T1 : 128 < v1 ↔ 129 * 2 ^ 7 <= v)
    by (subst v1; Z.div_mod_to_equations; lia).
  assert (T2 : 128 < v2 ↔ 129 * 2 ^ 14 <= v).
  { assert (128 < v2 ↔ 129 * 2 ^ 7 <= v1)
      by (subst v2; Z.div_mod_to_equations; lia).
    assert (129 * 2 ^ 7 <= v1 ↔ 129 * 2 ^ 14 <= v)
      by (subst v1; Z.div_mod_to_equations; lia).
    tauto. }
  assert (T3 : 128 < v3 ↔ 129 * 2 ^ 21 <= v).
  { assert (128 < v3 ↔ 129 * 2 ^ 7 <= v2)
      by (subst v3; Z.div_mod_to_equations; lia).
    assert (129 * 2 ^ 7 <= v2 ↔ 129 * 2 ^ 14 <= v1)
      by (subst v2; Z.div_mod_to_equations; lia).
    assert (129 * 2 ^ 14 <= v1 ↔ 129 * 2 ^ 21 <= v)
      by (subst v1; Z.div_mod_to_equations; lia).
    tauto. }
  clearbody v1 v2 v3.
  destruct (Z.ltb_spec 128 v), (Z.leb_spec v 128); try lia.
  destruct (Z.ltb_spec 128 v1), (Z.ltb_spec v (129 * 2 ^ 7)); try lia.
  destruct (Z.ltb_spec 128 v2), (Z.ltb_spec v (129 * 2 ^ 14)); try lia.
  destruct (Z.ltb_spec 128 v3), (Z.ltb_spec v (129 * 2 ^ 21)); lia.
Qed.

Lemma unskipVarint_steps (v : Z) (d : Decoder) :
  0 <= v < 2 ^ 32 →
  unskipVarint v d = (Ret tt, withCursor d (cursor_ d - unskipped v)).
Proof.
  intros Hv. unfold unskipVarint.
  rewrite (run_bind _ _ _ _ _ (unskipLoop_turns 4 v d Hv)).
  unfold bump, bind, get, set_cursor. rewrite withCursor_twice.
  rewrite <- turns_unskipped by done.
  unfold withCursor. cbn [cursor_ bytes_ start_ end_ error_].
  do 2 f_equal. lia.
Qed.

End SkipVarint.

Section UnskippedLength.
Import BinaryDecoder.

Lemma value_upper (enc : list Z) :
  Varint.value enc < 128 ^ Z.of_nat (length enc).
Proof.
  induction enc as [|b rest IH]; [simpl; lia|].
  cbn [Varint.value length]. rewrite Nat2Z.inj_succ, Z.pow_succ_r by lia.
  pose proof (Z.mod_pos_bound b 128 ltac:(lia)). lia.
Qed.

Lemma value_lower (enc : list Z) :
  Varint.terminated enc = true → last enc ≠ Some 0 →
  128 ^ (Z.of_nat (length enc) - 1) <= Varint.value enc.
Proof.
  induction enc as [|b rest IH]; [done|]. intros Hterm Hlast.
  apply terminated_cons in Hterm as [Hb [[-> Hsmall]|[Hcont Hterm]]].
  - simpl in *. rewrite Z.mod_small by lia.
    assert (b ≠ 0) by congruence. lia.
  - assert (Hrest : rest ≠ []) by (by destruct rest).
    assert (Hlast' : last rest ≠ Some 0).
    { destruct rest as [|b' rest']; [done|]. exact Hlast. }
    specialize (IH Hterm Hlast').
    cbn [Varint.value length]. rewrite Nat2Z.inj_succ.
    replace (Z.succ (Z.of_nat (length rest)) - 1)
      with (Z.succ (Z.of_nat (length rest) - 1)) by lia.
    assert (0 < length rest)%nat by (destruct rest; [done | simpl; lia]).
    rewrite Z.pow_succ_r by lia.
    pose proof (Z.mod_pos_bound b 128 ltac:(lia)). lia.
Qed.

(** The steps of [unskipVarint] against the length of a varint without
    padding. *)
Lemma unskipped_length (enc : list Z) (v : Z) :
  Varint.terminated enc = true → (length enc <= 5)%nat →
  length enc = 1%nat ∨ last enc ≠ Some 0 →
  Varint.value enc = v →
  let boundary :=
    v = 128 ∨ 2 ^ 14 <= v < 129 * 2 ^ 7 ∨ 2 ^ 21 <= v < 129 * 2 ^ 14
    ∨ 2 ^ 28 <= v < 129 * 2 ^ 21 in
  (¬ boundary → unskipped v = Z.of_nat (length enc))
  ∧ (boundary → unskipped v = Z.of_nat (length enc) - 1).
Proof.
  intros Hterm Hlen Hcanon Hv. cbv zeta.
  pose proof (value_upper enc) as Hup. rewrite Hv in Hup.
  pose proof (value_bounds enc) as Hnn. rewrite Hv in Hnn.
  assert (Hlow : (2 <= length enc)%nat →
                 128 ^ (Z.of_nat (length enc) - 1) <= v).
  { intros H2. rewrite <- Hv. apply value_lower; [done|].
    destruct Hcanon; [lia | done]. }
  assert (Hpos : (1 <= length enc)%nat) by (destruct enc; [done | simpl; lia]).
  unfold unskipped.
  destruct (length enc) as [|[|[|[|[|[|n]]]]]] eqn:Hn; try lia.
  - (* one byte *)
    clear Hlow. change (128 ^ Z.of_nat 1) with 128 in Hup.
    destruct (Z.leb_spec v 128); lia.
  - specialize (Hlow ltac:(lia)).
    change (128 ^ Z.of_nat 2) with (2 ^ 14) in Hup.
    change (128 ^ (Z.of_nat 2 - 1)) with 128 in Hlow.
    destruct (Z.leb_spec v 128), (Z.ltb_spec v (129 * 2 ^ 7)); lia.
  - specialize (Hlow ltac:(lia)).
    change (128 ^ Z.of_nat 3) with (2 ^ 21) in Hup.
    change (128 ^ (Z.of_nat 3 - 1)) with (2 ^ 14) in Hlow.
    destruct (Z.leb_spec v 128), (Z.ltb_spec v (129 * 2 ^ 7)),
      (Z.ltb_spec v (129 * 2 ^ 14)); lia.
  - specialize (Hlow ltac:(lia)).
    change (128 ^ Z.of_nat 4) with (2 ^ 28) in Hup.
    change (128 ^ (Z.of_nat 4 - 1)) with (2 ^ 21) in Hlow.
    destruct (Z.leb_spec v 128), (Z.ltb_spec v (129 * 2 ^ 7)),
      (Z.ltb_spec v (129 * 2 ^ 14)), (Z.ltb_spec v (129 * 2 ^ 21)); lia.
  - specialize (Hlow ltac:(lia)).
    change (128 ^ Z.of_nat 5) with (2 ^ 35) in Hup.
    change (128 ^ (Z.of_nat 5 - 1)) with (2 ^ 28) in Hlow.
    destruct (Z.leb_spec v 128), (Z.ltb_spec v (129 * 2 ^ 7)),
      (Z.ltb_spec v (129 * 2 ^ 14)), (Z.ltb_spec v (129 * 2 ^ 21)); lia.
Qed.

End UnskippedLength.

(** X3.  [skipVarint] moves the cursor over a varint of any length, to the
    byte after its last one, reads nothing else and asserts nothing; on a
    varint of at most ten bytes it stops where [readSplitVarint64]
    stops. *)
Theorem skipVarint_skips `{Asserts} (d : BinaryDecoder.Decoder)
    (bs enc : list Z) :
  BinaryDecoder.bytes_ d = Some bs →
  BinaryDecoder.bytesAt bs (BinaryDecoder.cursor_ d) enc →
  Varint.terminated enc = true →
  BinaryDecoder.skipVarint d
  = (Ret tt,
     BinaryDecoder.withCursor d
       (BinaryDecoder.cursor_ d + Z.of_nat (length enc)))
  ∧ ((length enc <= 10)%nat →
     ∀ T (convert : Z → Z → T),
       (BinaryDecoder.readSplitVarint64 convert d).2
       = (BinaryDecoder.skipVarint d).2).
Proof.
  intros Hbs Hat Hterm.
  rewrite (skipVarint_terminated d bs enc Hbs Hat Hterm).
  split; [done|]. intros Hlen T convert.
  by rewrite (readSplitVarint64_terminated convert d bs enc Hbs Hat Hterm Hlen).
Qed.

Lemma skipVarint_skips_witness :
  BinaryDecoder.cursor_
    (BinaryDecoder.skipVarint
       (BinaryDecoder.new (Some Examples.elevenBytes) None None)).2 = 11.
Proof.
  destruct (skipVarint_skips (H := Examples.assertsOn)
              (BinaryDecoder.new (Some Examples.elevenBytes) None None)
              Examples.elevenBytes Examples.elevenBytes eq_refl
              (bytesAt_whole _) eq_refl) as [Hskip _].
  rewrite Hskip. reflexivity.
Defined.

(** X4.  [unskipVarint(value)], for a value below 2^32, moves the cursor
    back by [unskipped value] bytes: one when the value is at most 128, two
    below 129 * 2^7, three below 129 * 2^14, four below 129 * 2^21, five
    otherwise.  For a varint without padding (of at most five bytes, the
    last byte not zero unless it is the only one) that is the length of
    the varint of the value, except on the values the test [value > 128]
    gets wrong, 128 being the first: there it is one byte less. *)
Theorem unskipVarint_steps_back (v : Z)
    (d : BinaryDecoder.Decoder) :
  0 <= v < 2 ^ 32 →
  BinaryDecoder.unskipVarint v d
  = (Ret tt,
     BinaryDecoder.withCursor d
       (BinaryDecoder.cursor_ d - BinaryDecoder.unskipped v))
  ∧ ∀ enc,
      Varint.terminated enc = true → (length enc <= 5)%nat →
      length enc = 1%nat ∨ last enc ≠ Some 0 →
      Varint.value enc = v →
      let boundary :=
        v = 128 ∨ 2 ^ 14 <= v < 129 * 2 ^ 7 ∨ 2 ^ 21 <= v < 129 * 2 ^ 14
        ∨ 2 ^ 28 <= v < 129 * 2 ^ 21 in
      (¬ boundary → BinaryDecoder.unskipped v = Z.of_nat (length enc))
      ∧ (boundary → BinaryDecoder.unskipped v = Z.of_nat (length enc) - 1).
Proof.
  intros Hv. split; [by apply unskipVarint_steps|].
  intros enc Hterm Hlen Hcanon Hvalue. by apply unskipped_length.
Qed.

Lemma unskipVarint_steps_back_witness :
  BinaryDecoder.cursor_
    (BinaryDecoder.unskipVarint 300
       (BinaryDecoder.setCursor 2
          (BinaryDecoder.new (Some [172; 2]) None None))).2 = 0.
Proof.
  destruct (unskipVarint_steps_back 300
              (BinaryDecoder.setCursor 2
                 (BinaryDecoder.new (Some [172; 2]) None None)))
    as [Hback _]; [lia|].
  rewrite Hback. reflexivity.
Defined.

(** The varint of 128 has two bytes, and [unskipVarint(128)] steps back
    one. *)
Example unskipVarint_128 :
  Varint.terminated [128; 1] = true ∧ Varint.value [128; 1] = 128
  ∧ BinaryDecoder.cursor_
      (BinaryDecoder.unskipVarint 128
         (BinaryDecoder.setCursor 2
            (BinaryDecoder.new (Some [128; 1]) None None))).2 = 1.
Proof. by vm_compute. Qed.

Lemma readZigzagVarint32_after_encoding_witness :
  (BinaryDecoder.readZigzagVarint32 (H := Examples.assertsOn)
     (BinaryDecoder.new (Some (Varint.encode32 (Zigzag.encode32 (-3))))
                        None None)).1 = Ret (-3).
Proof.
  rewrite (readZigzagVarint32_after_encoding (H := Examples.assertsOn) (-3)
             (BinaryDecoder.new (Some (Varint.encode32 (Zigzag.encode32 (-3))))
                                None None)
             (Varint.encode32 (Zigzag.encode32 (-3))));
    [reflexivity | lia | reflexivity | apply bytesAt_whole | simpl; lia].
Defined.

Section FixedWidth.
Import BinaryDecoder.
Context `{Asserts}.

Lemma byteAt_range (bs : list Z) (i : Z) : uint8s bs → 0 <= byteAt bs i < 256.
Proof.
  intros Hbs. unfold byteAt, index. destruct (i <? 0); [simpl; lia|].
  destruct (bs !! Z.to_nat i) as [b|] eqn:Hb; [|simpl; lia].
  simpl. by apply (Forall_lookup_1 _ _ _ _ Hbs Hb).
Qed.

Lemma shl_zero (a : Z) : - 2 ^ 31 <= a < 2 ^ 31 → JS.shl a 0 = a.
Proof.
  intros Ha. unfold JS.shl. change (0 mod 32) with 0.
  rewrite Z.shiftl_0_r, ToInt32_idem. by apply ToInt32_small.
Qed.

(** [this.cursor_ += k; assert(this.cursor_ <= this.end_); return x;] *)
Lemma fixed_return {A} (k : Z) (x : A) (d : Decoder) :
  bind (bump k) (λ _, bind assertInBlock (λ _, ret x)) d
  = (if (cursor_ d + k <=? end_ d) || negb assert_throws then Ret x
     else Throw (AssertionError "Assertion failed"),
     withCursor d (cursor_ d + k)).
Proof.
  unfold bump, assertInBlock, assert, bind, get, set_cursor, ret. simpl.
  destruct (_ <=? _); [done|]. by destruct assert_throws.
Qed.

Lemma uint16_value (a b : Z) :
  0 <= a < 256 → 0 <= b < 256 →
  JS.or (JS.shl a 0) (JS.shl b 8) = a + 256 * b.
Proof.
  intros Ha Hb. rewrite shl_zero by lia. rewrite or_shl_small by lia. lia.
Qed.

Lemma int32_value (a b c e : Z) :
  0 <= a < 256 → 0 <= b < 256 → 0 <= c < 256 → 0 <= e < 256 →
  JS.or (JS.or (JS.or (JS.shl a 0) (JS.shl b 8)) (JS.shl c 16)) (JS.shl e 24)
  = JS.ToInt32 (a + 256 * (b + 256 * (c + 256 * e))).
Proof.
  intros Ha Hb Hc He. rewrite uint16_value by done.
  rewrite (or_shl_small _ c 16) by lia.
  rewrite or_shl by lia. rewrite (ToInt32_small e) by lia.
  f_equal. lia.
Qed.

Lemma sign_extend_8 (a : Z) :
  0 <= a < 256 → JS.shr (JS.shl a 24) 24 = signed 8 a.
Proof.
  intros Ha. unfold JS.shr, JS.shl, signed.
  change (24 mod 32) with 24. rewrite (ToInt32_small a) by lia.
  rewrite Z.shiftl_mul_pow2, ToInt32_idem, Z.shiftr_div_pow2 by lia.
  unfold JS.ToInt32. change (2 ^ (8 - 1)) with 128.
  destruct (Z.ltb_spec a 128);
    destruct (Z.ltb_spec ((a * 2 ^ 24) mod 2 ^ 32) (2 ^ 31));
    Z.div_mod_to_equations; lia.
Qed.

Lemma sign_extend_16 (u : Z) :
  0 <= u < 2 ^ 16 → JS.shr (JS.shl u 16) 16 = signed 16 u.
Proof.
  intros Hu. unfold JS.shr, JS.shl, signed.
  change (16 mod 32) with 16. rewrite (ToInt32_small u) by lia.
  rewrite Z.shiftl_mul_pow2, ToInt32_idem, Z.shiftr_div_pow2 by lia.
  unfold JS.ToInt32. change (2 ^ (16 - 1)) with 32768.
  destruct (Z.ltb_spec u 32768);
    destruct (Z.ltb_spec ((u * 2 ^ 16) mod 2 ^ 32) (2 ^ 31));
    Z.div_mod_to_equations; lia.
Qed.

Lemma ToInt32_signed (u : Z) : 0 <= u < 2 ^ 32 → JS.ToInt32 u = signed 32 u.
Proof.
  intros Hu. unfold JS.ToInt32, signed. rewrite Z.mod_small by done. done.
Qed.

Lemma fixed_unsigned (d : Decoder) (bs : list Z) :
  bytes_ d = Some bs → uint8s bs →
  let c := cursor_ d in
  let inBlock k := (c + k <=? end_ d) || negb assert_throws in
  let outcome {A} k (x : A) :=
    (if inBlock k then Ret x else Throw (AssertionError "Assertion failed"),
     withCursor d (c + k)) in
  readUint8 d = outcome 1 (index bs c)
  ∧ readUint16 d = outcome 2 (littleEndian (bytesFrom bs c 2))
  ∧ readUint32 d = outcome 4 (littleEndian (bytesFrom bs c 4)).
Proof.
  intros Hbs Hu c inBlock outcome. subst outcome inBlock c.
  pose proof (byteAt_range bs (cursor_ d + 0) Hu).
  pose proof (byteAt_range bs (cursor_ d + 1) Hu).
  pose proof (byteAt_range bs (cursor_ d + 2) Hu).
  pose proof (byteAt_range bs (cursor_ d + 3) Hu).
  unfold readUint8, readUint16, readUint32.
  rewrite !(run_bind _ _ _ _ _ (run_theBytes d bs Hbs)).
  unfold get at 1 2 3. unfold bind at 1 4 7. cbv zeta.
  rewrite !fixed_return.
  unfold bytesFrom, littleEndian. cbn [seq List.map fold_right].
  change (Z.of_nat 0) with 0. change (Z.of_nat 1) with 1.
  change (Z.of_nat 2) with 2. change (Z.of_nat 3) with 3.
  fold (byteAt bs (cursor_ d + 0)) (byteAt bs (cursor_ d + 1))
       (byteAt bs (cursor_ d + 2)) (byteAt bs (cursor_ d + 3)).
  rewrite Z.add_0_r at 1.
  split; [done|].
  rewrite int32_value, uint16_value by done.
  rewrite ushr_zero, ToUint32_ToInt32, ToUint32_small by lia.
  split; (f_equal; destruct (_ || _); f_equal; lia).
Qed.

Lemma fixed_signed (d : Decoder) (bs : list Z) :
  bytes_ d = Some bs → uint8s bs →
  let c := cursor_ d in
  let inBlock k := (c + k <=? end_ d) || negb assert_throws in
  let outcome k (x : Z) :=
    (if inBlock k then Ret x else Throw (AssertionError "Assertion failed"),
     withCursor d (c + k)) in
  readInt8 d = outcome 1 (signed 8 (littleEndian (bytesFrom bs c 1)))
  ∧ readInt16 d = outcome 2 (signed 16 (littleEndian (bytesFrom bs c 2)))
  ∧ readInt32 d = outcome 4 (signed 32 (littleEndian (bytesFrom bs c 4))).
Proof.
  intros Hbs Hu c inBlock outcome. subst outcome inBlock c.
  pose proof (byteAt_range bs (cursor_ d + 0) Hu).
  pose proof (byteAt_range bs (cursor_ d + 1) Hu).
  pose proof (byteAt_range bs (cursor_ d + 2) Hu).
  pose proof (byteAt_range bs (cursor_ d + 3) Hu).
  unfold readInt8, readInt16, readInt32.
  rewrite !(run_bind _ _ _ _ _ (run_theBytes d bs Hbs)).
  unfold get at 1 2 3. unfold bind at 1 4 7. cbv zeta.
  rewrite !fixed_return.
  unfold bytesFrom, littleEndian. cbn [seq List.map fold_right].
  change (Z.of_nat 0) with 0. change (Z.of_nat 1) with 1.
  change (Z.of_nat 2) with 2. change (Z.of_nat 3) with 3.
  fold (byteAt bs (cursor_ d + 0)) (byteAt bs (cursor_ d + 1))
       (byteAt bs (cursor_ d + 2)) (byteAt bs (cursor_ d + 3)).
  rewrite int32_value, uint16_value, sign_extend_8, sign_extend_16 by lia.
  rewrite ToInt32_signed by lia.
  repeat split; (f_equal; destruct (_ || _); do 2 f_equal; lia).
Qed.


(** [(x << 8) | g] for a byte [g]. *)
Lemma shl_or_byte (x g : Z) :
  0 <= g < 256 → JS.or (JS.shl x 8) g = JS.ToInt32 (x * 256 + g).
Proof.
  intros Hg. unfold JS.or at 1. rewrite Z.lor_comm.
  fold (JS.or g (JS.shl x 8)).
  rewrite or_shl by lia.
  destruct (ToInt32_decomp x) as [k ->].
  replace (g + (x + k * 2 ^ 32) * 2 ^ 8)
    with (x * 256 + g + (k * 2 ^ 8) * 2 ^ 32) by lia.
  apply ToInt32_shift.
Qed.


Lemma readSplitFixed64_value {T} (convert : Z → Z → T)
    (d : Decoder) (bs : list Z) :
  bytes_ d = Some bs → uint8s bs →
  readSplitFixed64 convert d
  = (Ret (convert (signed 32 (littleEndian (bytesFrom bs (cursor_ d) 4)))
                  (signed 32 (littleEndian (bytesFrom bs (cursor_ d + 4) 4)))),
     withCursor d (cursor_ d + 8)).
Proof.
  intros Hbs Hu. unfold readSplitFixed64.
  unfold get at 1. unfold bind at 1.
  unfold bump, get, set_cursor. unfold bind at 1 2.
  rewrite (run_bind _ _ _ _ _
             (run_theBytes (withCursor d (cursor_ d + 8)) bs Hbs)).
  cbn [seq List.map fold_left fixedStep].
  change (Z.of_nat 0) with 0. change (Z.of_nat 1) with 1.
  change (Z.of_nat 2) with 2. change (Z.of_nat 3) with 3.
  change (Z.of_nat 4) with 4. change (Z.of_nat 5) with 5.
  change (Z.of_nat 6) with 6. change (Z.of_nat 7) with 7.
  unfold bytesFrom, littleEndian. cbn [seq List.map fold_right].
  change (Z.of_nat 0) with 0. change (Z.of_nat 1) with 1.
  change (Z.of_nat 2) with 2. change (Z.of_nat 3) with 3.
  set (c := cursor_ d).
  replace (c + 7 - 0) with (c + 7) by lia.
  replace (c + 7 - 1) with (c + 6) by lia.
  replace (c + 7 - 2) with (c + 5) by lia.
  replace (c + 7 - 3) with (c + 4) by lia.
  replace (c + 7 - 4) with (c + 3) by lia.
  replace (c + 7 - 5) with (c + 2) by lia.
  replace (c + 7 - 6) with (c + 1) by lia.
  replace (c + 7 - 7) with (c + 0) by lia.
  replace (c + 7 + 4) with (c + 11) by lia.
  replace (c + 6 + 4) with (c + 10) by lia.
  replace (c + 5 + 4) with (c + 9) by lia.
  replace (c + 4 + 4) with (c + 8) by lia.
  replace (c + 3 + 4) with (c + 7) by lia.
  replace (c + 2 + 4) with (c + 6) by lia.
  replace (c + 1 + 4) with (c + 5) by lia.
  replace (c + 0 + 4) with (c + 4) by lia.
  replace (c + 4 + 0) with (c + 4) by lia.
  replace (c + 4 + 1) with (c + 5) by lia.
  replace (c + 4 + 2) with (c + 6) by lia.
  replace (c + 4 + 3) with (c + 7) by lia.
  fold (byteAt bs (c + 0)) (byteAt bs (c + 1)) (byteAt bs (c + 2))
       (byteAt bs (c + 3)) (byteAt bs (c + 4)) (byteAt bs (c + 5))
       (byteAt bs (c + 6)) (byteAt bs (c + 7)) (byteAt bs (c + 8))
       (byteAt bs (c + 9)) (byteAt bs (c + 10)) (byteAt bs (c + 11)).
  pose proof (byteAt_range bs (c + 0) Hu). pose proof (byteAt_range bs (c + 1) Hu).
  pose proof (byteAt_range bs (c + 2) Hu). pose proof (byteAt_range bs (c + 3) Hu).
  pose proof (byteAt_range bs (c + 4) Hu). pose proof (byteAt_range bs (c + 5) Hu).
  pose proof (byteAt_range bs (c + 6) Hu). pose proof (byteAt_range bs (c + 7) Hu).
  pose proof (byteAt_range bs (c + 8) Hu). pose proof (byteAt_range bs (c + 9) Hu).
  pose proof (byteAt_range bs (c + 10) Hu).
  pose proof (byteAt_range bs (c + 11) Hu).
  generalize dependent (byteAt bs (c + 0)). intros g0 ?.
  generalize dependent (byteAt bs (c + 1)). intros g1 ?.
  generalize dependent (byteAt bs (c + 2)). intros g2 ?.
  generalize dependent (byteAt bs (c + 3)). intros g3 ?.
  generalize dependent (byteAt bs (c + 4)). intros g4 ?.
  generalize dependent (byteAt bs (c + 5)). intros g5 ?.
  generalize dependent (byteAt bs (c + 6)). intros g6 ?.
  generalize dependent (byteAt bs (c + 7)). intros g7 ?.
  generalize dependent (byteAt bs (c + 8)). intros g8 ?.
  generalize dependent (byteAt bs (c + 9)). intros g9 ?.
  generalize dependent (byteAt bs (c + 10)). intros g10 ?.
  generalize dependent (byteAt bs (c + 11)). intros g11 ?.
  rewrite !shl_or_byte by lia.
  rewrite <- !ToInt32_signed by lia.
  unfold ret. do 3 f_equal.
  all: repeat match goal with
       | |- JS.ToInt32 ?L = _ =>
           match L with
           | context [JS.ToInt32 ?y] =>
               let k := fresh "k" in
               destruct (ToInt32_decomp y) as [k ->]
           end
       end.
  all: apply ToInt32_congr; Z.div_mod_to_equations; lia.
Qed.

End FixedWidth.

(** X6.  [readUint8], [readUint16] and [readUint32] move the cursor by
    one, two and four bytes and return the bytes at the cursor as a
    little-endian unsigned number ([readUint8] the byte itself,
    [undefined] outside the buffer; the wider ones take a byte outside
    the buffer for 0).  The only check is the assertion, made after the
    cursor has moved, that it has not passed the end of the block. *)
Theorem fixed_width_unsigned `{Asserts} (d : BinaryDecoder.Decoder)
    (bs : list Z) :
  BinaryDecoder.bytes_ d = Some bs → BinaryDecoder.uint8s bs →
  let c := BinaryDecoder.cursor_ d in
  let checked k := (c + k <=? BinaryDecoder.end_ d) || negb assert_throws in
  BinaryDecoder.readUint8 d
  = (if checked 1 then Ret (BinaryDecoder.index bs c)
     else Throw (AssertionError "Assertion failed"),
     BinaryDecoder.withCursor d (c + 1))
  ∧ BinaryDecoder.readUint16 d
    = (if checked 2
       then Ret (BinaryDecoder.littleEndian (BinaryDecoder.bytesFrom bs c 2))
       else Throw (AssertionError "Assertion failed"),
       BinaryDecoder.withCursor d (c + 2))
  ∧ BinaryDecoder.readUint32 d
    = (if checked 4
       then Ret (BinaryDecoder.littleEndian (BinaryDecoder.bytesFrom bs c 4))
       else Throw (AssertionError "Assertion failed"),
       BinaryDecoder.withCursor d (c + 4)).
Proof. intros Hbs Hu. exact (fixed_unsigned d bs Hbs Hu). Qed.

Lemma fixed_width_unsigned_witness :
  (BinaryDecoder.readUint32 (H := Examples.assertsOn)
     (BinaryDecoder.new (Some Examples.eightBytes) None None)).1
  = Ret 67305985.
Proof.
  destruct (fixed_width_unsigned (H := Examples.assertsOn)
              (BinaryDecoder.new (Some Examples.eightBytes) None None)
              Examples.eightBytes eq_refl eightBytes_uint8s)
    as (_ & _ & H32).
  rewrite H32. reflexivity.
Defined.

(** X7.  [readInt8], [readInt16] and [readInt32] return the two's
    complement reading of the same little-endian numbers, of 8, 16 and 32
    bits, and move the cursor and assert as their unsigned twins. *)
Theorem fixed_width_signed `{Asserts} (d : BinaryDecoder.Decoder)
    (bs : list Z) :
  BinaryDecoder.bytes_ d = Some bs → BinaryDecoder.uint8s bs →
  let c := BinaryDecoder.cursor_ d in
  let checked k := (c + k <=? BinaryDecoder.end_ d) || negb assert_throws in
  let value n w :=
    BinaryDecoder.signed w
      (BinaryDecoder.littleEndian (BinaryDecoder.bytesFrom bs c n)) in
  BinaryDecoder.readInt8 d
  = (if checked 1 then Ret (value 1%nat 8)
     else Throw (AssertionError "Assertion failed"),
     BinaryDecoder.withCursor d (c + 1))
  ∧ BinaryDecoder.readInt16 d
    = (if checked 2 then Ret (value 2%nat 16)
       else Throw (AssertionError "Assertion failed"),
       BinaryDecoder.withCursor d (c + 2))
  ∧ BinaryDecoder.readInt32 d
    = (if checked 4 then Ret (value 4%nat 32)
       else Throw (AssertionError "Assertion failed"),
       BinaryDecoder.withCursor d (c + 4)).
Proof. intros Hbs Hu. exact (fixed_signed d bs Hbs Hu). Qed.

Lemma fixed_width_signed_witness :
  (BinaryDecoder.readInt16 (H := Examples.assertsOn)
     (BinaryDecoder.setCursor 4
        (BinaryDecoder.new (Some Examples.eightBytes) None None))).1
  = Ret (-2).
Proof.
  destruct (fixed_width_signed (H := Examples.assertsOn)
              (BinaryDecoder.setCursor 4
                 (BinaryDecoder.new (Some Examples.eightBytes) None None))
              Examples.eightBytes eq_refl eightBytes_uint8s)
    as (_ & H16 & _).
  rewrite H16. reflexivity.
Defined.

(** X8.  [readSplitFixed64] moves the cursor by eight bytes and hands
    [convert] the two little-endian 32-bit halves at the cursor as signed
    numbers (not unsigned ones, as [readSplitVarint64] does); the four
    bytes its loop reads beyond the eighth do not reach the result, and
    nothing is asserted. *)
Theorem readSplitFixed64_halves {T} (convert : Z → Z → T)
    (d : BinaryDecoder.Decoder) (bs : list Z) :
  BinaryDecoder.bytes_ d = Some bs → BinaryDecoder.uint8s bs →
  let c := BinaryDecoder.cursor_ d in
  BinaryDecoder.readSplitFixed64 convert d
  = (Ret (convert
            (BinaryDecoder.signed 32
               (BinaryDecoder.littleEndian (BinaryDecoder.bytesFrom bs c 4)))
            (BinaryDecoder.signed 32
               (BinaryDecoder.littleEndian
                  (BinaryDecoder.bytesFrom bs (c + 4) 4)))),
     BinaryDecoder.withCursor d (c + 8)).
Proof. intros Hbs Hu. exact (readSplitFixed64_value convert d bs Hbs Hu). Qed.

Lemma readSplitFixed64_halves_witness :
  (BinaryDecoder.readSplitFixed64 pair
     (BinaryDecoder.new (Some Examples.eightBytes) None None)).1
  = Ret (67305985, -2).
Proof.
  rewrite (readSplitFixed64_halves pair
             (BinaryDecoder.new (Some Examples.eightBytes) None None)
             Examples.eightBytes eq_refl eightBytes_uint8s).
  reflexivity.
Defined.

Section EnumNames.
Import EnumCodec.

Lemma fromInt_string (values : list IR.EnumValue) (s : string) :
  _fromInt values (VStr s) = VStr s.
Proof. induction values; simpl; auto. Qed.

(** A name is mapped to the number of the first enumerator that bears
    it; any other string is returned as it is. *)
Lemma toInt_string (values : list IR.EnumValue) (s : string) :
  _toInt values (VStr s) = VStr s
  ∨ ∃ i, _toInt values (VStr s) = VNum i ∧ IR.mkEnumValue s i ∈ values.
Proof.
  induction values as [|v rest IH]; simpl; [by left|].
  destruct (String.eqb_spec s (IR.ev_name v)) as [->|Hne].
  - right. exists (IR.ev_value v). split; [done|]. destruct v. by left.
  - destruct IH as [?|(i & ? & ?)]; [by left|].
    right. exists i. split; [done | by right].
Qed.

Lemma fromInt_unique (values : list IR.EnumValue) (s : string) (i : Z) :
  NoDup (declaredValues values) →
  IR.mkEnumValue s i ∈ values →
  _fromInt values (VNum i) = VStr s.
Proof.
  induction values as [|v rest IH]; simpl; intros Hnd Hin.
  - by apply elem_of_nil in Hin.
  - apply NoDup_cons in Hnd as [Hfresh Hnd].
    destruct (Z.eqb_spec i (IR.ev_value v)) as [Heq|Hne].
    + apply elem_of_cons in Hin as [<-|Hin]; [done|].
      exfalso. apply Hfresh. rewrite <- Heq.
      change i with (IR.ev_value (IR.mkEnumValue s i)).
      by apply list_elem_of_fmap_2.
    + apply elem_of_cons in Hin as [<-|Hin]; [done | auto].
Qed.

Lemma names_round_trip (values : list IR.EnumValue) (s : string) :
  NoDup (declaredValues values) →
  _fromInt values (_toInt values (VStr s)) = VStr s.
Proof.
  intros Hnd. destruct (toInt_string values s) as [->|(i & -> & Hin)].
  - apply fromInt_string.
  - by apply fromInt_unique.
Qed.

End EnumNames.

Section ReadBytesTwice.
Import BinaryDecoder.
Context `{Asserts}.

Lemma readBytes_inside (d : Decoder) (bs : list Z) (len : Z) :
  bytes_ d = Some bs → 0 <= cursor_ d → 0 <= len →
  cursor_ d + len <= Z.of_nat (length bs) → cursor_ d + len <= end_ d →
  readBytes len d
  = (Ret (take (Z.to_nat len) (drop (Z.to_nat (cursor_ d)) bs)),
     withCursor d (cursor_ d + len)).
Proof.
  intros Hbs Hc Hlen Hfits Hend.
  rewrite (readBytes_valid d bs len Hbs Hlen Hfits).
  apply Z.leb_le in Hend. rewrite Hend. simpl.
  by rewrite (proj1 (subarray_inside bs (cursor_ d) len Hc Hlen Hfits)).
Qed.

Lemma readBytes_twice (d : Decoder) (bs : list Z) (a b : Z) :
  bytes_ d = Some bs → 0 <= cursor_ d → 0 <= a → 0 <= b →
  cursor_ d + a + b <= Z.of_nat (length bs) → cursor_ d + a + b <= end_ d →
  ∃ s1 s2 d1 d2,
    readBytes a d = (Ret s1, d1)
    ∧ readBytes b d1 = (Ret s2, d2)
    ∧ readBytes (a + b) d = (Ret (s1 ++ s2), d2).
Proof.
  intros Hbs Hc Ha Hb Hfits Hend.
  eexists _, _, _, _. split; [|split].
  - apply (readBytes_inside d bs a); [done|lia..].
  - apply (readBytes_inside _ bs b); simpl; [done|lia..].
  - rewrite (readBytes_inside d bs (a + b)) by (done || lia).
    rewrite withCursor_twice. simpl cursor_. f_equal.
    + f_equal. rewrite Z2Nat.inj_add, <- take_take_drop by lia.
      f_equal. rewrite drop_drop. f_equal. f_equal. lia.
    + f_equal. lia.
Qed.

End ReadBytesTwice.

Section Heading.
Import Print.
Local Open Scope string_scope.

Lemma length_append (s1 s2 : string) :
  String.length (s1 ++ s2) = (String.length s1 + String.length s2)%nat.
Proof.
  induction s1 as [|c s1 IH]; [done|].
  change (String c s1 ++ s2) with (String c (s1 ++ s2)). simpl. by rewrite IH.
Qed.

Lemma append_assoc (s1 s2 s3 : string) : (s1 ++ s2) ++ s3 = s1 ++ s2 ++ s3.
Proof.
  induction s1 as [|c s1 IH]; [done|].
  change ((String c s1 ++ s2) ++ s3) with (String c ((s1 ++ s2) ++ s3)).
  change (String c s1 ++ s2 ++ s3) with (String c (s1 ++ s2 ++ s3)).
  by rewrite IH.
Qed.

Lemma length_repeat (c : ascii) (n : Z) :
  String.length (repeat c n) = Z.to_nat n.
Proof.
  unfold repeat. induction (Z.to_nat n) as [|k IH]; simpl; [done|].
  by rewrite IH.
Qed.

Lemma printHeading_box (heading : string) :
  let len := Z.of_nat (String.length heading) in
  let width := Z.max 40 (len + 2) in
  ∃ left right : Z,
    printHeading heading
    = ("  //" ++ repeat "="%char width ++ "//") ++ nl
      ++ ("  //" ++ repeat " "%char left ++ heading ++ repeat " "%char right
          ++ "//") ++ nl
      ++ ("  //" ++ repeat "="%char width ++ "//") ++ nl
      ++ "  " ++ nl ++ "  "
    ∧ 1 <= left <= right ∧ right <= left + 1
    ∧ String.length ("  //" ++ repeat " "%char left ++ heading
                     ++ repeat " "%char right ++ "//")
      = String.length ("  //" ++ repeat "="%char width ++ "//").
Proof.
  intros len width.
  exists ((width - len) / 2), ((width - len + 1) / 2).
  split.
  { unfold printHeading. fold len. fold width.
    rewrite !append_assoc. done. }
  split; [Z.div_mod_to_equations; lia|].
  split; [Z.div_mod_to_equations; lia|].
  rewrite !length_append, !length_repeat. simpl String.length.
  assert (Z.to_nat ((width - len) / 2) + Z.to_nat ((width - len + 1) / 2)
          = Z.to_nat width - String.length heading)%nat
    by (Z.div_mod_to_equations; lia).
  lia.
Qed.

End Heading.

(** X19.  Inside the buffer and the block, two [readBytes] calls in a
    row return adjacent views: their concatenation is what one call with
    the sum of the lengths returns, and both ways leave the decoder in
    the same state. *)
Theorem readBytes_composes `{Asserts} (d : BinaryDecoder.Decoder)
    (bs : list Z) (a b : Z) :
  BinaryDecoder.bytes_ d = Some bs →
  0 <= BinaryDecoder.cursor_ d → 0 <= a → 0 <= b →
  BinaryDecoder.cursor_ d + a + b <= Z.of_nat (length bs) →
  BinaryDecoder.cursor_ d + a + b <= BinaryDecoder.end_ d →
  ∃ s1 s2 d1 d2,
    BinaryDecoder.readBytes a d = (Ret s1, d1)
    ∧ BinaryDecoder.readBytes b d1 = (Ret s2, d2)
    ∧ BinaryDecoder.readBytes (a + b) d = (Ret (s1 ++ s2), d2).
Proof. apply readBytes_twice. Qed.

Lemma readBytes_composes_witness :
  ∃ s1 s2 d1 d2,
    BinaryDecoder.readBytes (H := Examples.assertsOn) 3
      (BinaryDecoder.new (Some Examples.eightBytes) None None) = (Ret s1, d1)
    ∧ BinaryDecoder.readBytes (H := Examples.assertsOn) 2 d1 = (Ret s2, d2)
    ∧ BinaryDecoder.readBytes (H := Examples.assertsOn) (3 + 2)
        (BinaryDecoder.new (Some Examples.eightBytes) None None)
      = (Ret (s1 ++ s2), d2).
Proof.
  apply (readBytes_composes (H := Examples.assertsOn)
           (BinaryDecoder.new (Some Examples.eightBytes) None None)
           Examples.eightBytes 3 2 eq_refl); simpl; lia.
Defined.

Section ReadStringBounds.
Import BinaryDecoder.
Context `{Asserts}.

(** The loop ends at or after [end], at most three bytes after it. *)
Lemma readStringLoop_cursor (fuel : nat) (bytes : list Z) (end' cursor : Z)
    (codeUnits result : list Z) :
  cursor <= end' + 3 → end' - cursor <= Z.of_nat fuel →
  let c' := (readStringLoop fuel bytes end' cursor codeUnits result).1.1 in
  Z.max cursor end' <= c' <= end' + 3.
Proof.
  revert cursor codeUnits result.
  induction fuel as [|fuel IH]; intros cursor codeUnits result Hc Hfuel.
  - simpl. lia.
  - simpl readStringLoop. destruct (Z.ltb_spec cursor end') as [Hlt|Hge];
      [|simpl; lia].
    assert (Hnext : ∀ j cu,
              1 <= j <= 4 →
              let c' := (if 8192 <=? Z.of_nat (length cu)
                         then readStringLoop fuel bytes end' (cursor + j) []
                                (result ++ fromCharCode cu)
                         else readStringLoop fuel bytes end' (cursor + j) cu
                                result).1.1 in
              Z.max cursor end' <= c' <= end' + 3).
    { intros j cu Hj.
      destruct (8192 <=? Z.of_nat (length cu));
        (cbv zeta; match goal with
         | |- context [readStringLoop fuel bytes end' (cursor + j) ?cu' ?res'] =>
             pose proof (IH (cursor + j) cu' res' ltac:(lia) ltac:(lia))
         end; simpl in *; lia). }
    repeat match goal with
    | |- context [if JS.lt ?c ?k then _ else _] => destruct (JS.lt c k)
    end.
    all: try (apply Hnext; lia).
    pose proof (IH (cursor + 1) codeUnits result ltac:(lia) ltac:(lia)).
    simpl in *. lia.
Qed.

Lemma readString_returns (length : Z) (d : Decoder) (bs : list Z) :
  bytes_ d = Some bs → 0 <= length →
  ∃ s c', readString length d = (Ret s, withCursor d c')
          ∧ cursor_ d + length <= c' <= cursor_ d + length + 3.
Proof.
  intros Hbs Hlen. unfold readString.
  unfold get at 1. unfold bind at 1.
  assert (Hb : (if cursor_ d <? cursor_ d + length then theBytes else ret []) d
               = (Ret (if cursor_ d <? cursor_ d + length then bs else []), d)).
  { destruct (_ <? _); [by apply run_theBytes|done]. }
  rewrite (run_bind _ _ _ _ _ Hb).
  match goal with
  | |- context [readStringLoop ?f ?b ?e ?c ?cu ?r] =>
      pose proof (readStringLoop_cursor f b e c cu r ltac:(lia) ltac:(lia)) as Hc;
      destruct (readStringLoop f b e c cu r) as [[c' cu'] res']
  end.
  simpl in Hc. unfold set_cursor, bind, ret.
  eexists _, c'. split; [done|lia].
Qed.

Lemma readString_nothing (length : Z) (d : Decoder) :
  length <= 0 → readString length d = (Ret [], d).
Proof.
  intros Hlen. unfold readString, bind, get, set_cursor, ret.
  destruct (Z.ltb_spec (cursor_ d) (cursor_ d + length)); [lia|].
  assert (Hloop : ∀ fuel bytes,
            readStringLoop fuel bytes (cursor_ d + length) (cursor_ d) [] []
            = (cursor_ d, [], [])).
  { intros [|fuel] bytes; [done|]. simpl.
    by destruct (Z.ltb_spec (cursor_ d) (cursor_ d + length)); [lia|]. }
  rewrite Hloop. by rewrite withCursor_same.
Qed.

End ReadStringBounds.

Section Utf8Bits.

(** [(q << k) | r] when [r] lies below bit [k] and nothing overflows. *)
Lemma shl_or_small (q r k : Z) :
  0 <= k < 32 → 0 <= r < 2 ^ k → 0 <= q → q * 2 ^ k + r < 2 ^ 31 →
  JS.or (JS.shl q k) r = q * 2 ^ k + r.
Proof.
  intros Hk Hr Hq Hsum. unfold JS.or at 1. rewrite Z.lor_comm.
  fold (JS.or r (JS.shl q k)).
  assert (0 < 2 ^ k) by (apply Z.pow_pos_nonneg; lia).
  assert (r < 2 ^ 31) by nia.
  rewrite or_shl_small by lia. lia.
Qed.

Lemma shl_small (q k : Z) :
  0 <= k < 32 → 0 <= q → q * 2 ^ k < 2 ^ 31 → JS.shl q k = q * 2 ^ k.
Proof.
  intros Hk Hq Hsum. unfold JS.shl.
  assert (0 < 2 ^ k) by (apply Z.pow_pos_nonneg; lia).
  rewrite Z.mod_small by lia. rewrite (ToInt32_small q) by nia.
  rewrite Z.shiftl_mul_pow2 by lia. apply ToInt32_small. lia.
Qed.

Lemma shr_small (x k : Z) :
  0 <= k < 32 → 0 <= x < 2 ^ 31 → JS.shr x k = x / 2 ^ k.
Proof.
  intros Hk Hx. unfold JS.shr. rewrite Z.mod_small by lia.
  rewrite (ToInt32_small x) by lia. by rewrite Z.shiftr_div_pow2 by lia.
Qed.

Lemma and_31 (t : Z) : 0 <= t < 2 ^ 31 → JS.and t 31 = t mod 32.
Proof. intros. apply (and_mask t 5); lia. Qed.
Lemma and_63 (t : Z) : 0 <= t < 2 ^ 31 → JS.and t 63 = t mod 64.
Proof. intros. apply (and_mask t 6); lia. Qed.
Lemma and_15' (t : Z) : 0 <= t < 2 ^ 31 → JS.and t 15 = t mod 16.
Proof. intros. apply (and_mask t 4); lia. Qed.
Lemma and_7 (t : Z) : 0 <= t < 2 ^ 31 → JS.and t 7 = t mod 8.
Proof. intros. apply (and_mask t 3); lia. Qed.
Lemma and_1023 (t : Z) : 0 <= t < 2 ^ 31 → JS.and t 1023 = t mod 1024.
Proof. intros. apply (and_mask t 10); lia. Qed.

(** [h | l] when [h] is a multiple of 2^k and [l] lies below bit [k]. *)
Lemma or_high_low (h l k : Z) :
  0 <= k → 0 <= l < 2 ^ k → 0 <= h → h * 2 ^ k + l < 2 ^ 31 →
  JS.or (h * 2 ^ k) l = h * 2 ^ k + l.
Proof.
  intros Hk Hl Hh Hsum. unfold JS.or.
  assert (0 < 2 ^ k) by (apply Z.pow_pos_nonneg; lia).
  rewrite (ToInt32_small (h * 2 ^ k)), (ToInt32_small l) by nia.
  rewrite Z.lor_comm, lor_low_high by lia.
  rewrite ToInt32_small by lia. lia.
Qed.

(** The code unit of a two-byte sequence. *)
Lemma decode2 (cp : Z) :
  128 <= cp < 2048 →
  JS.or (JS.shl (JS.and (192 + cp / 64) 31) 6) (JS.and (128 + cp mod 64) 63)
  = cp.
Proof.
  intros Hcp.
  assert (0 <= cp / 64 < 32) by (Z.div_mod_to_equations; lia).
  pose proof (Z.mod_pos_bound cp 64 ltac:(lia)).
  rewrite and_31, and_63 by lia.
  replace ((192 + cp / 64) mod 32) with (cp / 64)
    by (Z.div_mod_to_equations; lia).
  replace ((128 + cp mod 64) mod 64) with (cp mod 64)
    by (Z.div_mod_to_equations; lia).
  rewrite shl_small by lia. rewrite or_high_low by lia.
  Z.div_mod_to_equations. lia.
Qed.

(** The code unit of a three-byte sequence. *)
Lemma decode3 (cp : Z) :
  2048 <= cp < 65536 →
  JS.or (JS.or (JS.shl (JS.and (224 + cp / 4096) 15) 12)
               (JS.shl (JS.and (128 + cp / 64 mod 64) 63) 6))
        (JS.and (128 + cp mod 64) 63)
  = cp.
Proof.
  intros Hcp.
  assert (0 <= cp / 4096 < 16) by (Z.div_mod_to_equations; lia).
  pose proof (Z.mod_pos_bound (cp / 64) 64 ltac:(lia)).
  pose proof (Z.mod_pos_bound cp 64 ltac:(lia)).
  rewrite and_15', !and_63 by lia.
  replace ((224 + cp / 4096) mod 16) with (cp / 4096)
    by (Z.div_mod_to_equations; lia).
  replace ((128 + cp / 64 mod 64) mod 64) with (cp / 64 mod 64)
    by (Z.div_mod_to_equations; lia).
  replace ((128 + cp mod 64) mod 64) with (cp mod 64)
    by (Z.div_mod_to_equations; lia).
  rewrite !shl_small by lia.
  rewrite (or_high_low (cp / 4096) _ 12) by lia.
  replace (cp / 4096 * 2 ^ 12 + cp / 64 mod 64 * 2 ^ 6)
    with ((cp / 4096 * 64 + cp / 64 mod 64) * 2 ^ 6) by lia.
  rewrite or_high_low by lia.
  Z.div_mod_to_equations. lia.
Qed.

(** The code point of a four-byte sequence. *)
Lemma decode4 (cp : Z) :
  65536 <= cp < 1114112 →
  JS.or (JS.or (JS.or (JS.shl (JS.and (240 + cp / 262144) 7) 18)
                      (JS.shl (JS.and (128 + cp / 4096 mod 64) 63) 12))
               (JS.shl (JS.and (128 + cp / 64 mod 64) 63) 6))
        (JS.and (128 + cp mod 64) 63)
  = cp.
Proof.
  intros Hcp.
  assert (0 <= cp / 262144 < 8) by (Z.div_mod_to_equations; lia).
  pose proof (Z.mod_pos_bound (cp / 4096) 64 ltac:(lia)).
  pose proof (Z.mod_pos_bound (cp / 64) 64 ltac:(lia)).
  pose proof (Z.mod_pos_bound cp 64 ltac:(lia)).
  rewrite and_7, !and_63 by lia.
  replace ((240 + cp / 262144) mod 8) with (cp / 262144)
    by (Z.div_mod_to_equations; lia).
  replace ((128 + cp / 4096 mod 64) mod 64) with (cp / 4096 mod 64)
    by (Z.div_mod_to_equations; lia).
  replace ((128 + cp / 64 mod 64) mod 64) with (cp / 64 mod 64)
    by (Z.div_mod_to_equations; lia).
  replace ((128 + cp mod 64) mod 64) with (cp mod 64)
    by (Z.div_mod_to_equations; lia).
  rewrite !shl_small by lia.
  rewrite (or_high_low (cp / 262144) _ 18) by lia.
  replace (cp / 262144 * 2 ^ 18 + cp / 4096 mod 64 * 2 ^ 12)
    with ((cp / 262144 * 64 + cp / 4096 mod 64) * 2 ^ 12) by lia.
  rewrite (or_high_low _ _ 12) by lia.
  replace ((cp / 262144 * 64 + cp / 4096 mod 64) * 2 ^ 12
           + cp / 64 mod 64 * 2 ^ 6)
    with (((cp / 262144 * 64 + cp / 4096 mod 64) * 64 + cp / 64 mod 64)
          * 2 ^ 6) by lia.
  rewrite or_high_low by lia.
  Z.div_mod_to_equations. lia.
Qed.

(** The surrogate pair of a code point from U+10000 on. *)
Lemma surrogates (cp : Z) :
  65536 <= cp < 1114112 →
  JS.and (JS.shr (cp - 65536) 10) 1023 + 55296 = 55296 + (cp - 65536) / 1024
  ∧ JS.and (cp - 65536) 1023 + 56320 = 56320 + (cp - 65536) mod 1024.
Proof.
  intros Hcp.
  assert (0 <= (cp - 65536) / 1024 < 1024) by (Z.div_mod_to_equations; lia).
  rewrite shr_small by lia. change (2 ^ 10) with 1024.
  rewrite !and_1023 by lia.
  rewrite (Z.mod_small ((cp - 65536) / 1024)) by lia. lia.
Qed.

End Utf8Bits.

Section ReadStringUtf8.
Import BinaryDecoder.
Context `{Asserts}.

Lemma bytesAt_app (bs : list Z) (c : Z) (x y : list Z) :
  bytesAt bs c (x ++ y) →
  bytesAt bs c x ∧ bytesAt bs (c + Z.of_nat (length x)) y.
Proof.
  intros Hat. split.
  - intros j b Hj. apply Hat. by apply lookup_app_l_Some.
  - intros j b Hj.
    replace (c + Z.of_nat (length x) + Z.of_nat j)
      with (c + Z.of_nat (length x + j)) by lia.
    apply Hat. rewrite lookup_app_r by lia.
    by replace (length x + j - length x)%nat with j by lia.
Qed.

Lemma bytesAt_index (bs : list Z) (c : Z) (enc : list Z) (j : nat) (b : Z) :
  bytesAt bs c enc → enc !! j = Some b → index bs (c + Z.of_nat j) = Some b.
Proof. intros Hat Hj. by apply Hat. Qed.

Lemma fromCharCode_snoc (cu : list Z) (us : list Z) :
  Forall (λ u, 0 <= u < 65536) us →
  fromCharCode (cu ++ us) = fromCharCode cu ++ us.
Proof.
  intros Hus. unfold fromCharCode. rewrite map_app. f_equal.
  induction Hus as [|u us Hu _ IH]; [done|]. simpl.
  by rewrite Z.mod_small, IH.
Qed.


Lemma readStringLoop_utf8 (cps : list Z) :
  ∀ (fuel : nat) (bs : list Z) (end' cursor : Z) (cu res : list Z),
  Utf8.codePoints cps →
  bytesAt bs cursor (Utf8.encodeAll cps) →
  end' = cursor + Z.of_nat (length (Utf8.encodeAll cps)) →
  (length cps <= fuel)%nat →
  ∃ cu' res',
    readStringLoop fuel bs end' cursor cu res = (end', cu', res')
    ∧ res' ++ fromCharCode cu' = res ++ fromCharCode cu ++ Utf8.utf16All cps.
Proof.
  induction cps as [|cp cps IH]; intros fuel bs end' cursor cu res Hcps Hat Hend Hfuel.
  - exists cu, res. simpl in Hend. rewrite Z.add_0_r in Hend. subst end'.
    split; [|by rewrite app_nil_r].
    destruct fuel; [done|]. simpl.
    by destruct (Z.ltb_spec cursor cursor); [lia|].
  - destruct fuel as [|fuel]; [simpl in Hfuel; lia|].
    apply Forall_cons in Hcps as [Hcp Hcps].
    unfold Utf8.encodeAll in Hat, Hend. simpl in Hat, Hend.
    fold (Utf8.encodeAll cps) in Hat, Hend.
    rewrite length_app in Hend.
    apply bytesAt_app in Hat as [Hcpat Hat].
    assert (Hpos : (0 < length (Utf8.encode cp))%nat).
    { unfold Utf8.encode. repeat destruct (_ <? _); simpl; lia. }
    (* what is accumulated after the turn, whichever way the test of the
       length goes *)
    assert (Hnext : ∀ us,
      Forall (λ u, 0 <= u < 65536) us → us = Utf8.utf16 cp →
      ∃ cu' res',
        (if 8192 <=? Z.of_nat (length (cu ++ us))
         then readStringLoop fuel bs end'
                (cursor + Z.of_nat (length (Utf8.encode cp))) []
                (res ++ fromCharCode (cu ++ us))
         else readStringLoop fuel bs end'
                (cursor + Z.of_nat (length (Utf8.encode cp))) (cu ++ us) res)
        = (end', cu', res')
        ∧ res' ++ fromCharCode cu'
          = res ++ fromCharCode cu ++ Utf8.utf16All (cp :: cps)).
    { intros us Hus ->.
      unfold Utf8.utf16All. simpl. fold (Utf8.utf16All cps).
      destruct (8192 <=? _).
      - destruct (IH fuel bs end' _ [] (res ++ fromCharCode (cu ++ Utf8.utf16 cp))
                    Hcps Hat ltac:(lia) ltac:(simpl in Hfuel; lia))
          as (cu' & res' & -> & Hres).
        exists cu', res'. split; [done|]. rewrite Hres.
        rewrite fromCharCode_snoc by done. simpl.
        by rewrite <- !app_assoc.
      - destruct (IH fuel bs end' _ (cu ++ Utf8.utf16 cp) res
                    Hcps Hat ltac:(lia) ltac:(simpl in Hfuel; lia))
          as (cu' & res' & -> & Hres).
        exists cu', res'. split; [done|]. rewrite Hres.
        rewrite fromCharCode_snoc by done.
        by rewrite <- !app_assoc. }
    simpl readStringLoop.
    destruct (Z.ltb_spec cursor end') as [_|?]; [|lia].
    revert Hcpat Hnext. unfold Utf8.encode, Utf8.utf16.
    destruct (Z.ltb_spec cp 128) as [H1|H1].
    { (* one byte *)
      intros Hcpat Hnext.
      destruct (Z.ltb_spec cp 65536); [|lia].
      pose proof (bytesAt_index _ _ _ 0%nat _ Hcpat eq_refl) as G0.
      rewrite Z.add_0_r in G0. rewrite G0.
      replace (JS.lt (Some cp) 128) with true by (symmetry; apply Z.ltb_lt; lia).
      change (JS.num (Some cp)) with cp.
      apply (Hnext [cp]); [|done]. repeat constructor; lia. }
    destruct (Z.ltb_spec cp 2048) as [H2|H2].
    { (* two bytes *)
      intros Hcpat Hnext.
      destruct (Z.ltb_spec cp 65536); [|lia].
      pose proof (bytesAt_index _ _ _ 0%nat _ Hcpat eq_refl) as G0.
      pose proof (bytesAt_index _ _ _ 1%nat _ Hcpat eq_refl) as G1.
      rewrite Z.add_0_r in G0. change (Z.of_nat 1) with 1 in G1.
      rewrite G0, G1.
      assert (2 <= cp / 64 < 32) by (Z.div_mod_to_equations; lia).
      replace (JS.lt (Some (192 + cp / 64)) 128) with false
        by (symmetry; apply Z.ltb_ge; lia).
      replace (JS.lt (Some (192 + cp / 64)) 192) with false
        by (symmetry; apply Z.ltb_ge; lia).
      replace (JS.lt (Some (192 + cp / 64)) 224) with true
        by (symmetry; apply Z.ltb_lt; lia).
      change (JS.num (Some ?x)) with x.
      rewrite decode2 by lia.
      apply (Hnext [cp]); [|done]. repeat constructor; lia. }
    destruct (Z.ltb_spec cp 65536) as [H3|H3].
    { (* three bytes *)
      intros Hcpat Hnext.
      pose proof (bytesAt_index _ _ _ 0%nat _ Hcpat eq_refl) as G0.
      pose proof (bytesAt_index _ _ _ 1%nat _ Hcpat eq_refl) as G1.
      pose proof (bytesAt_index _ _ _ 2%nat _ Hcpat eq_refl) as G2.
      rewrite Z.add_0_r in G0. change (Z.of_nat 1) with 1 in G1.
      change (Z.of_nat 2) with 2 in G2.
      rewrite G0, G1, G2.
      assert (0 <= cp / 4096 < 16) by (Z.div_mod_to_equations; lia).
      replace (JS.lt (Some (224 + cp / 4096)) 128) with false
        by (symmetry; apply Z.ltb_ge; lia).
      replace (JS.lt (Some (224 + cp / 4096)) 192) with false
        by (symmetry; apply Z.ltb_ge; lia).
      replace (JS.lt (Some (224 + cp / 4096)) 224) with false
        by (symmetry; apply Z.ltb_ge; lia).
      replace (JS.lt (Some (224 + cp / 4096)) 240) with true
        by (symmetry; apply Z.ltb_lt; lia).
      change (JS.num (Some ?x)) with x.
      rewrite decode3 by lia.
      apply (Hnext [cp]); [|done]. repeat constructor; lia. }
    (* four bytes *)
    intros Hcpat Hnext.
    pose proof (bytesAt_index _ _ _ 0%nat _ Hcpat eq_refl) as G0.
    pose proof (bytesAt_index _ _ _ 1%nat _ Hcpat eq_refl) as G1.
    pose proof (bytesAt_index _ _ _ 2%nat _ Hcpat eq_refl) as G2.
    pose proof (bytesAt_index _ _ _ 3%nat _ Hcpat eq_refl) as G3.
    rewrite Z.add_0_r in G0. change (Z.of_nat 1) with 1 in G1.
    change (Z.of_nat 2) with 2 in G2. change (Z.of_nat 3) with 3 in G3.
    rewrite G0, G1, G2, G3.
    assert (0 <= cp / 262144 < 8) by (Z.div_mod_to_equations; lia).
    replace (JS.lt (Some (240 + cp / 262144)) 128) with false
      by (symmetry; apply Z.ltb_ge; lia).
    replace (JS.lt (Some (240 + cp / 262144)) 192) with false
      by (symmetry; apply Z.ltb_ge; lia).
    replace (JS.lt (Some (240 + cp / 262144)) 224) with false
      by (symmetry; apply Z.ltb_ge; lia).
    replace (JS.lt (Some (240 + cp / 262144)) 240) with false
      by (symmetry; apply Z.ltb_ge; lia).
    replace (JS.lt (Some (240 + cp / 262144)) 248) with true
      by (symmetry; apply Z.ltb_lt; lia).
    change (JS.num (Some ?x)) with x.
    rewrite decode4 by lia.
    destruct (surrogates cp ltac:(lia)) as [-> ->].
    apply Hnext; [|done].
    assert (0 <= (cp - 65536) / 1024 < 1024) by (Z.div_mod_to_equations; lia).
    pose proof (Z.mod_pos_bound (cp - 65536) 1024 ltac:(lia)).
    repeat constructor; lia.
Qed.

Lemma length_encodeAll (cps : list Z) :
  (length cps <= length (Utf8.encodeAll cps))%nat.
Proof.
  induction cps as [|cp cps IH]; [done|].
  unfold Utf8.encodeAll in *. simpl. rewrite length_app.
  assert (0 < length (Utf8.encode cp))%nat; [|simpl; lia].
  unfold Utf8.encode. repeat destruct (_ <? _); simpl; lia.
Qed.

Lemma readString_utf8 (cps : list Z) (d : Decoder) (bs : list Z) :
  Utf8.codePoints cps →
  bytes_ d = Some bs →
  bytesAt bs (cursor_ d) (Utf8.encodeAll cps) →
  readString (Z.of_nat (length (Utf8.encodeAll cps))) d
  = (Ret (Utf8.utf16All cps),
     withCursor d (cursor_ d + Z.of_nat (length (Utf8.encodeAll cps)))).
Proof.
  intros Hcps Hbs Hat. unfold readString.
  set (len := length (Utf8.encodeAll cps)).
  set (bytes := if cursor_ d <? cursor_ d + Z.of_nat len then bs else []).
  unfold get at 1. unfold bind at 1.
  assert (Hbytes :
    (if cursor_ d <? cursor_ d + Z.of_nat len then theBytes else ret []) d
    = (Ret bytes, d)).
  { subst bytes. destruct (_ <? _); [by apply run_theBytes|done]. }
  rewrite (run_bind _ _ _ _ _ Hbytes).
  assert (Hat' : bytesAt bytes (cursor_ d) (Utf8.encodeAll cps)).
  { subst bytes. destruct (Z.ltb_spec (cursor_ d) (cursor_ d + Z.of_nat len));
      [done|].
    assert (Utf8.encodeAll cps = []) as ->; [|by intros j b ?].
    apply length_zero_iff_nil. fold len. lia. }
  rewrite Nat2Z.id.
  destruct (readStringLoop_utf8 cps len bytes (cursor_ d + Z.of_nat len)
              (cursor_ d) [] [] Hcps Hat' eq_refl (length_encodeAll cps))
    as (cu' & res' & -> & Hres).
  unfold byteArrayToString, set_cursor, bind, ret. by rewrite Hres.
Qed.

End ReadStringUtf8.

(** X9.  [readString(length)] checks neither the buffer nor the block: on
    a decoder with a buffer and a length that is not negative it always
    returns a string, and leaves the cursor at [cursor + length] or up to
    three bytes after it (a multi-byte sequence that starts before
    [cursor + length] is read to its end); the error flag is left alone.
    With a length that is not positive it returns the empty string and
    changes nothing, even on a cleared decoder. *)
Theorem readString_always_returns (length : Z)
    (d : BinaryDecoder.Decoder) :
  (0 <= length → ∀ bs, BinaryDecoder.bytes_ d = Some bs →
     ∃ s c', BinaryDecoder.readString length d
             = (Ret s, BinaryDecoder.withCursor d c')
             ∧ BinaryDecoder.cursor_ d + length <= c'
                 <= BinaryDecoder.cursor_ d + length + 3)
  ∧ (length <= 0 → BinaryDecoder.readString length d = (Ret [], d)).
Proof.
  split.
  - intros Hlen bs Hbs. by apply (readString_returns length d bs).
  - apply readString_nothing.
Qed.

Lemma readString_always_returns_witness :
  (∃ s c',
     BinaryDecoder.readString 1
       (BinaryDecoder.new (Some [240; 159; 152; 128; 65]) None None)
     = (Ret s,
        BinaryDecoder.withCursor
          (BinaryDecoder.new (Some [240; 159; 152; 128; 65]) None None) c')
     ∧ 0 + 1 <= c' <= 0 + 1 + 3)
  ∧ BinaryDecoder.readString 0 BinaryDecoder.empty
    = (Ret [], BinaryDecoder.empty).
Proof.
  destruct (readString_always_returns 1
              (BinaryDecoder.new (Some [240; 159; 152; 128; 65]) None None))
    as [Hreturns _].
  destruct (readString_always_returns 0 BinaryDecoder.empty)
    as [_ Hnothing].
  split.
  - apply (Hreturns ltac:(lia) [240; 159; 152; 128; 65] eq_refl).
  - apply Hnothing. lia.
Defined.

(** A lead byte of a four-byte sequence as the last byte asked for: the
    cursor ends three bytes after [cursor + length]. *)
Example readString_overruns :
  BinaryDecoder.readString 1
    (BinaryDecoder.new (Some [240; 159; 152; 128; 65]) None None)
  = (Ret [55357; 56832],
     BinaryDecoder.mkDecoder (Some [240; 159; 152; 128; 65]) 0 5 4 false).
Proof. by vm_compute. Qed.

(** X10.  [readString] decodes UTF-8: on the UTF-8 bytes of any sequence
    of code points (U+0000 to U+10FFFF), with their number of bytes as
    length, it returns the UTF-16 code units of the sequence, a surrogate
    pair for each code point from U+10000 on, and leaves the cursor after
    the bytes. *)
Theorem readString_decodes_utf8 (cps : list Z)
    (d : BinaryDecoder.Decoder) (bs : list Z) :
  Utf8.codePoints cps →
  BinaryDecoder.bytes_ d = Some bs →
  BinaryDecoder.bytesAt bs (BinaryDecoder.cursor_ d) (Utf8.encodeAll cps) →
  let length := Z.of_nat (List.length (Utf8.encodeAll cps)) in
  BinaryDecoder.readString length d
  = (Ret (Utf8.utf16All cps),
     BinaryDecoder.withCursor d (BinaryDecoder.cursor_ d + length)).
Proof. intros Hcps Hbs Hat. exact (readString_utf8 cps d bs Hcps Hbs Hat). Qed.

Lemma readString_decodes_utf8_witness :
  Utf8.encodeAll Examples.codePoints
  = [72; 195; 169; 226; 130; 172; 240; 159; 152; 128]
  ∧ (BinaryDecoder.readString
       (Z.of_nat (length (Utf8.encodeAll Examples.codePoints)))
       (BinaryDecoder.new (Some (Utf8.encodeAll Examples.codePoints))
                          None None)).1
    = Ret [72; 233; 8364; 55357; 56832].
Proof.
  split; [reflexivity|].
  rewrite (readString_decodes_utf8
             Examples.codePoints
             (BinaryDecoder.new (Some (Utf8.encodeAll Examples.codePoints))
                                None None)
             (Utf8.encodeAll Examples.codePoints)
             codePoints_valid eq_refl (bytesAt_whole _)).
  reflexivity.
Defined.

Section CacheDiscipline.
Import BinaryDecoder.

(** [alloc] with a decoder in the cache, and without. *)
Lemma alloc_pop (opt_bytes : option (list Z)) (opt_start opt_length : option Z)
    (w : World) (cache : list nat) (r : nat) :
  instanceCache_ w = cache ++ [r] →
  alloc opt_bytes opt_start opt_length w
  = (r, mkWorld (match opt_bytes with
                 | Some data =>
                     alter (setBlock data opt_start opt_length) r (heap w)
                 | None => heap w
                 end) cache (next w)).
Proof.
  intros Hc. unfold alloc. rewrite Hc, last_snoc.
  rewrite length_app. simpl.
  replace (length cache + 1 - 1)%nat with (length cache) by lia.
  by rewrite take_app_length.
Qed.

Lemma alloc_new (opt_bytes : option (list Z)) (opt_start opt_length : option Z)
    (w : World) :
  instanceCache_ w = [] →
  alloc opt_bytes opt_start opt_length w
  = (next w,
     mkWorld (<[next w := new opt_bytes opt_start opt_length]> (heap w))
             [] (S (next w))).
Proof. intros Hc. unfold alloc. by rewrite Hc. Qed.

Lemma cache_cases (cache : list nat) :
  cache = [] ∨ ∃ cache' r, cache = cache' ++ [r].
Proof.
  destruct (last cache) as [r|] eqn:Hl.
  - right. apply last_Some in Hl as [cache' ->]. by exists cache', r.
  - left. by apply last_None.
Qed.

(** What [alloc] hands out in a pristine world. *)
Lemma alloc_pristine (opt_bytes : option (list Z))
    (opt_start opt_length : option Z) (w : World) :
  pristine w →
  let '(r, w') := alloc opt_bytes opt_start opt_length w in
  heap w' !! r = Some (new opt_bytes opt_start opt_length)
  ∧ ¬ live w r
  ∧ live w' r
  ∧ (∀ r', r' ≠ r → heap w' !! r' = heap w !! r')
  ∧ pristine w'.
Proof.
  intros (Hnd & Hcleared & Hnext).
  destruct (cache_cases (instanceCache_ w)) as [Hc|(cache & r & Hc)].
  - rewrite (alloc_new _ _ _ w Hc). simpl.
    assert (Hfresh : heap w !! next w = None).
    { destruct (heap w !! next w) eqn:Hl; [|done].
      pose proof (Hnext (next w) ltac:(by rewrite Hl)). lia. }
    split; [by rewrite lookup_insert_eq|].
    split; [intros [[? Hl] _]; by rewrite Hfresh in Hl|].
    split.
    { split; simpl; [by rewrite lookup_insert_eq | by apply not_elem_of_nil]. }
    split; [intros r' Hne; by rewrite lookup_insert_ne|].
    split; [simpl; constructor|]. simpl.
    split; [intros r' Hin; by apply elem_of_nil in Hin|].
    intros r' [x Hl]. destruct (decide (r' = next w)) as [->|Hne]; [lia|].
    rewrite lookup_insert_ne in Hl by done.
    pose proof (Hnext r' ltac:(by rewrite Hl)). lia.
  - rewrite (alloc_pop _ _ _ w cache r Hc). simpl.
    rewrite Hc in Hnd, Hcleared.
    apply NoDup_app in Hnd as (Hnd & Hdisj & _).
    assert (Hr : heap w !! r = Some empty) by (apply Hcleared; set_solver).
    assert (Hnot : r ∉ cache) by (intros Hin; apply (Hdisj r Hin); set_solver).
    split.
    { destruct opt_bytes as [data|]; [|done].
      rewrite lookup_alter_eq, Hr. done. }
    split; [intros [_ Hout]; apply Hout; rewrite Hc; set_solver|].
    split.
    { split; simpl; [|done].
      destruct opt_bytes; [rewrite lookup_alter_eq, Hr|rewrite Hr]; done. }
    split.
    { intros r' Hne. destruct opt_bytes; [|done]. by rewrite lookup_alter_ne. }
    split; [done|]. simpl. split.
    + intros r' Hin. assert (r' ≠ r) by (intros ->; done).
      destruct opt_bytes; [rewrite lookup_alter_ne by done|];
        apply Hcleared; set_solver.
    + intros r' Hl. apply Hnext.
      destruct opt_bytes; [|done].
      destruct (decide (r' = r)) as [->|Hne]; [by rewrite Hr|].
      by rewrite lookup_alter_ne in Hl.
Qed.

Lemma call_pristine (w : World) (c : Call) :
  pristine w →
  match c with
  | CallAlloc _ _ _ => True
  | CallFree r | CallMethod r _ => live w r
  end →
  pristine (call w c).
Proof.
  intros Hp Hc. destruct c as [b s l|r|r method]; simpl.
  - pose proof (alloc_pristine b s l w Hp) as Ha.
    destruct (alloc b s l w) as [r w']. simpl. tauto.
  - destruct Hp as (Hnd & Hcleared & Hnext). destruct Hc as [[x Hx] Hout].
    assert (Hother : ∀ r', r' ∈ instanceCache_ w →
              alter clear r (heap w) !! r' = Some empty).
    { intros r' Hin. rewrite lookup_alter_ne by (intros ->; done).
      by apply Hcleared. }
    assert (Hdom : ∀ r', is_Some (alter clear r (heap w) !! r') →
              (r' < next w)%nat).
    { intros r' Hl. apply Hnext.
      destruct (decide (r' = r)) as [->|Hne]; [by rewrite Hx|].
      by rewrite lookup_alter_ne in Hl. }
    unfold free. destruct (_ <? _)%nat; (split; [|split]); simpl; try done.
    + apply NoDup_app. split; [done|]. split; [|apply NoDup_singleton].
      intros r' Hin ->%list_elem_of_singleton. done.
    + intros r' [Hin| ->%list_elem_of_singleton]%elem_of_app; [by apply Hother|].
      rewrite lookup_alter_eq, Hx. done.
  - destruct Hp as (Hnd & Hcleared & Hnext). destruct Hc as [[x Hx] Hout].
    split; [done|]. simpl. split.
    + intros r' Hin. rewrite lookup_alter_ne by (intros ->; done).
      by apply Hcleared.
    + intros r' Hl. apply Hnext.
      destruct (decide (r' = r)) as [->|Hne]; [by rewrite Hx|].
      by rewrite lookup_alter_ne in Hl.
Qed.

Lemma disciplined_pristine (calls : list Call) (w : World) :
  pristine w → disciplined calls w → pristine (fold_left call calls w).
Proof.
  revert w. induction calls as [|c calls IH]; intros w Hp Hd; [done|].
  destruct Hd as [Hc Hd]. simpl. apply IH; [|done]. by apply call_pristine.
Qed.

Lemma initial_pristine : pristine initial.
Proof.
  split; [constructor|]. split.
  - intros r Hin. by apply elem_of_nil in Hin.
  - intros r [x Hl]. simpl in Hl. by rewrite lookup_empty in Hl.
Qed.


(** Freeing a decoder twice caches it twice: the next two [alloc]s return
    the same object. *)
Lemma double_free_aliases (this : nat) (w : World)
    (b b' : option (list Z)) (s l s' l' : option Z) :
  (length (instanceCache_ w) < 99)%nat →
  let w2 := free this (free this w) in
  let '(r1, w3) := alloc b s l w2 in
  let '(r2, _) := alloc b' s' l' w3 in
  r1 = this ∧ r2 = this.
Proof.
  intros Hlen. unfold free at 2.
  destruct (Nat.ltb_spec (length (instanceCache_ w)) 100); [|lia].
  unfold free. simpl instanceCache_.
  rewrite length_app. simpl length.
  destruct (Nat.ltb_spec (length (instanceCache_ w) + 1) 100); [|lia].
  simpl heap. simpl next.
  rewrite (alloc_pop b s l _ (instanceCache_ w ++ [this]) this) by done.
  rewrite (alloc_pop b' s' l' _ (instanceCache_ w) this) by done.
  done.
Qed.

(** [clone] in a pristine world: a second decoder over the same buffer and
    block, with the cursor at the start of the block and the error flag
    clear; the original is left as it is. *)
Lemma clone_pristine (this : nat) (w : World) (d : Decoder) :
  pristine w → heap w !! this = Some d → this ∉ instanceCache_ w →
  ∃ r w', clone this w = Some (r, w')
    ∧ r ≠ this
    ∧ heap w' !! this = Some d
    ∧ heap w' !! r
      = Some (match bytes_ d with
              | Some data => mkDecoder (Some data) (start_ d) (end_ d)
                                       (start_ d) false
              | None => empty
              end).
Proof.
  intros Hp Hd Hout. unfold clone. rewrite Hd. simpl.
  pose proof (alloc_pristine (bytes_ d) (Some (start_ d))
                (Some (end_ d - start_ d)) w Hp) as Ha.
  destruct (alloc _ _ _ w) as [r w'].
  destruct Ha as (Hr & Hdead & _ & Hother & _).
  exists r, w'. split; [done|].
  assert (Hne : r ≠ this).
  { intros ->. apply Hdead. split; [by rewrite Hd | done]. }
  split; [done|]. split; [by rewrite Hother|].
  rewrite Hr. f_equal. unfold new.
  destruct (bytes_ d); [|done]. unfold setBlock. simpl. f_equal. lia.
Qed.

End CacheDiscipline.

(** X11.  As long as the client calls methods, [free] included, only on
    decoders it still holds (never on a freed one), the decoder [alloc]
    hands out is in the state a newly constructed decoder has, was not in
    use before the call, and no other decoder is touched: recycling
    through the cache cannot be observed. *)
Theorem alloc_hands_out_new_decoder (calls : list BinaryDecoder.Call)
    (opt_bytes : option (list Z)) (opt_start opt_length : option Z) :
  BinaryDecoder.disciplined calls BinaryDecoder.initial →
  let w := fold_left BinaryDecoder.call calls BinaryDecoder.initial in
  let '(r, w') := BinaryDecoder.alloc opt_bytes opt_start opt_length w in
  BinaryDecoder.heap w' !! r
  = Some (BinaryDecoder.new opt_bytes opt_start opt_length)
  ∧ ¬ BinaryDecoder.live w r
  ∧ BinaryDecoder.live w' r
  ∧ ∀ r', r' ≠ r → BinaryDecoder.heap w' !! r' = BinaryDecoder.heap w !! r'.
Proof.
  intros Hd w.
  pose proof (alloc_pristine opt_bytes opt_start opt_length w
                (disciplined_pristine calls _ initial_pristine Hd)) as Ha.
  destruct (BinaryDecoder.alloc _ _ _ w) as [r w']. tauto.
Qed.

Lemma alloc_hands_out_new_decoder_witness :
  let w := fold_left BinaryDecoder.call Examples.calls BinaryDecoder.initial in
  let '(r, w') := BinaryDecoder.alloc (Some [7]) None None w in
  BinaryDecoder.heap w' !! r = Some (BinaryDecoder.new (Some [7]) None None).
Proof.
  pose proof (alloc_hands_out_new_decoder Examples.calls (Some [7]) None None
                calls_disciplined) as Hnew.
  cbv zeta in *.
  destruct (BinaryDecoder.alloc _ _ _ _) as [r w']. apply Hnew.
Defined.

(** X12.  [free] does not look whether the decoder is in the cache
    already: after a decoder has been freed twice (the cache holding fewer
    than 99 decoders), the next two [alloc] calls return that same
    decoder. *)
Theorem double_free_shares_decoder (this : nat) (w : BinaryDecoder.World)
    (b b' : option (list Z)) (s l s' l' : option Z) :
  (length (BinaryDecoder.instanceCache_ w) < 99)%nat →
  let w2 := BinaryDecoder.free this (BinaryDecoder.free this w) in
  let '(r1, w3) := BinaryDecoder.alloc b s l w2 in
  let '(r2, _) := BinaryDecoder.alloc b' s' l' w3 in
  r1 = this ∧ r2 = this.
Proof. apply double_free_aliases. Qed.

Lemma double_free_shares_decoder_witness :
  let w2 := BinaryDecoder.free 0 (BinaryDecoder.free 0 Examples.oneDecoder) in
  let '(r1, w3) := BinaryDecoder.alloc (Some [1]) None None w2 in
  let '(r2, _) := BinaryDecoder.alloc (Some [2]) None None w3 in
  r1 = 0%nat ∧ r2 = 0%nat.
Proof.
  apply (double_free_shares_decoder 0 Examples.oneDecoder (Some [1]) (Some [2])
           None None None None).
  simpl. lia.
Defined.

(** X13.  [clone], called on a decoder in use while the cached decoders
    are cleared ones, yields another decoder over the same buffer and
    block; the cursor of the copy is at the start of the block and its
    error flag is clear, whatever they are in the original, which is left
    as it is.  The copy of a decoder without buffer is a cleared
    decoder. *)
Theorem clone_copies_block (this : nat) (w : BinaryDecoder.World)
    (d : BinaryDecoder.Decoder) :
  BinaryDecoder.pristine w →
  BinaryDecoder.heap w !! this = Some d →
  this ∉ BinaryDecoder.instanceCache_ w →
  ∃ r w', BinaryDecoder.clone this w = Some (r, w')
    ∧ r ≠ this
    ∧ BinaryDecoder.heap w' !! this = Some d
    ∧ BinaryDecoder.heap w' !! r
      = Some (match BinaryDecoder.bytes_ d with
              | Some data =>
                  BinaryDecoder.mkDecoder (Some data) (BinaryDecoder.start_ d)
                    (BinaryDecoder.end_ d) (BinaryDecoder.start_ d) false
              | None => BinaryDecoder.empty
              end).
Proof. apply clone_pristine. Qed.

Lemma clone_copies_block_witness :
  ∃ r w', BinaryDecoder.clone 0 Examples.oneDecoder = Some (r, w')
    ∧ BinaryDecoder.heap w' !! r
      = Some (BinaryDecoder.mkDecoder (Some [1; 2; 3; 4]) 1 3 1 false).
Proof.
  destruct (clone_copies_block 0 Examples.oneDecoder
              (BinaryDecoder.mkDecoder (Some [1; 2; 3; 4]) 1 3 2 true)
              oneDecoder_pristine eq_refl ltac:(apply not_elem_of_nil))
    as (r & w' & Hclone & _ & _ & Hcopy).
  exists r, w'. split; [exact Hclone | exact Hcopy].
Defined.

Section EscapeComment.
Import Print.
Local Open Scope string_scope.

Lemma closes_occurrence (s : string) :
  closes s = true ↔ ∃ s1 s2, s = s1 ++ "*/" ++ s2.
Proof.
  split.
  - induction s as [|c rest IH]; [done|]. simpl.
    destruct rest as [|c' rest']; [done|].
    intros [[Hc Hc']%andb_prop|Hrest]%orb_prop.
    + apply Ascii.eqb_eq in Hc as ->. apply Ascii.eqb_eq in Hc' as ->.
      by exists "", rest'.
    + destruct (IH Hrest) as (s1 & s2 & ->). by exists (String c s1), s2.
  - intros (s1 & s2 & ->). induction s1 as [|c s1 IH]; [done|].
    change (String c s1 ++ "*/" ++ s2) with (String c (s1 ++ "*/" ++ s2)).
    remember (s1 ++ "*/" ++ s2) as t eqn:E. clear E.
    destruct t as [|c' t]; [done|].
    change (closes (String c (String c' t)))
      with ((Ascii.eqb c "*"%char && Ascii.eqb c' "/"%char)
            || closes (String c' t)).
    rewrite IH. apply orb_true_r.
Qed.

(** The first character is kept. *)
Lemma escapeComment_head (c : ascii) (rest : string) :
  ∃ rest', escapeComment (String c rest) = String c rest'.
Proof.
  simpl. destruct rest as [|c' rest']; [by eexists|].
  destruct (Ascii.eqb_spec c "*"%char) as [->|?]; simpl; [|by eexists].
  destruct (Ascii.eqb c' "/"%char); by eexists.
Qed.

Lemma escapeComment_open (n : nat) :
  ∀ comment, (String.length comment <= n)%nat →
             closes (escapeComment comment) = false.
Proof.
  induction n as [|n IH]; intros comment Hlen.
  - destruct comment; [done|simpl in Hlen; lia].
  - destruct comment as [|c rest]; [done|].
    destruct rest as [|c' rest']; [done|].
    simpl in Hlen.
    change (escapeComment (String c (String c' rest')))
      with (if Ascii.eqb c "*"%char && Ascii.eqb c' "/"%char
            then String "*" (String "\" (String "/" (escapeComment rest')))
            else String c (escapeComment (String c' rest'))).
    destruct (Ascii.eqb c "*"%char && Ascii.eqb c' "/"%char) eqn:Hm.
    + pose proof (IH rest' ltac:(lia)) as Hrest.
      destruct rest' as [|c'' rest'']; [done|].
      destruct (escapeComment_head c'' rest'') as [r Hr].
      rewrite Hr in *. simpl. simpl in Hrest. done.
    + pose proof (IH (String c' rest') ltac:(simpl; lia)) as Hrest.
      destruct (escapeComment_head c' rest') as [r Hr].
      rewrite Hr in *.
      change (closes (String c (String c' r)))
        with ((Ascii.eqb c "*"%char && Ascii.eqb c' "/"%char)
              || closes (String c' r)).
      by rewrite Hm, Hrest.
Qed.

Lemma escapeComment_never_closes (comment s1 s2 : string) :
  escapeComment comment ≠ s1 ++ "*/" ++ s2.
Proof.
  intros Heq.
  assert (Hc : closes (escapeComment comment) = true)
    by (apply closes_occurrence; by exists s1, s2).
  by rewrite (escapeComment_open _ comment (le_n _)) in Hc.
Qed.

End EscapeComment.

(** X14.  The text [escapeComment] returns never contains the two
    characters that end a block comment, whatever the comment is. *)
Theorem escapeComment_never_ends_comment (comment s1 s2 : string) :
  Print.escapeComment comment ≠ (s1 ++ "*/" ++ s2)%string
  ∧ Print.closes (Print.escapeComment comment) = false.
Proof.
  split; [apply escapeComment_never_closes|].
  apply (escapeComment_open _ comment (le_n _)).
Qed.

(** Each match is replaced, an unmatched star or slash is kept. *)
Example escapeComment_examples :
  Print.escapeComment "a */ b **/ /* c *"%string
  = "a *\/ b **\/ /* c *"%string.
Proof. reflexivity. Qed.

(** X15.  [printHeading] prints a box of three lines of equal length, 46
    characters with the indentation, or eight more than the heading if
    that is more: two rules,
    and between them the heading with at least one space on each side,
    the space on the right at most one longer than the space on the
    left. *)
Theorem printHeading_is_a_box (heading : string) :
  let len := Z.of_nat (String.length heading) in
  let width := Z.max 40 (len + 2) in
  let rule := ("  //" ++ Print.repeat "="%char width ++ "//")%string in
  ∃ left right : Z,
    let title :=
      ("  //" ++ Print.repeat " "%char left ++ heading
       ++ Print.repeat " "%char right ++ "//")%string in
    Print.printHeading heading
    = (rule ++ Print.nl ++ title ++ Print.nl ++ rule ++ Print.nl
       ++ "  " ++ Print.nl ++ "  ")%string
    ∧ 1 <= left <= right ∧ right <= left + 1
    ∧ String.length title = String.length rule
    ∧ Z.of_nat (String.length rule) = Z.max 46 (len + 8).
Proof.
  intros len width rule.
  destruct (printHeading_box heading) as (left & right & Heq & Hl & Hr & Hlen).
  exists left, right. cbv zeta.
  split; [rewrite Heq; subst rule; by rewrite !append_assoc|].
  split; [exact Hl|]. split; [exact Hr|]. split; [exact Hlen|].
  subst rule width len. rewrite !length_append, length_repeat.
  simpl String.length. lia.
Qed.

Section JsonKeys.
Context `{JSON.Runtime}.

(** Decoding looks at the keys the fields accept and at nothing else. *)
Lemma readMessage_accepted_keys (fields : list IR.Field) (msg : Obj)
    (o o' : Obj) :
  (∀ field k, field ∈ fields → k ∈ JSON.getFieldKeys field →
              alike (prop o k) (prop o' k)) →
  JSON._readMessage fields msg (VObj o) = JSON._readMessage fields msg (VObj o').
Proof.
  revert msg. induction fields as [|field fields IH]; intros msg Hkeys; [done|].
  simpl.
  rewrite (readField_alike field o o').
  - destruct (JSON.readField field (VObj o') msg); [|done]. simpl.
    apply IH. intros g k Hg. apply (Hkeys g k). by right.
  - apply chain_alike, Forall2_fmap, Forall_Forall2_diag, Forall_forall.
    intros k Hk. apply (Hkeys field k); [by left | done].
Qed.

(** The key [_writeMessage] uses is one of the keys [_readMessage]
    accepts. *)
Lemma setField_accepted (field : IR.Field) :
  JSON.setField field ∈ JSON.getFieldKeys field.
Proof.
  unfold JSON.setField, JSON.getFieldKeys.
  destruct JSON.useProtoFieldName; [|set_solver].
  destruct (String.eqb_spec (IR.name field) (IR.jsonName field)) as [Hnj|?];
    destruct (String.eqb_spec (IR.protoName field) (IR.name field)) as [Hpn|?];
    simpl; rewrite ?Hpn, ?Hnj; set_solver.
Qed.

End JsonKeys.

Section JsonRoundTrip.
Context `{JSON.Runtime}.

(** Assignments [o[key f] = val f], made in order for the fields that
    satisfy [c]. *)
Lemma fold_insert_lookup (c : IR.Field → bool) (key : IR.Field → string)
    (val : IR.Field → Val) (fields : list IR.Field) (o : Obj) (k : string)
    (v : Val) :
  prop o k = v ∨ (∃ f, f ∈ fields ∧ c f = true ∧ key f = k) →
  (∀ f, f ∈ fields → c f = true → key f = k → val f = v) →
  prop (fold_left (λ o f, if c f then <[key f := val f]> o else o) fields o) k
  = v.
Proof.
  revert o. induction fields as [|f fields IH]; intros o Hsome Hall.
  - destruct Hsome as [Ho|(f & Hf & _)]; [done|]. by apply elem_of_nil in Hf.
  - simpl. apply IH; [|intros g Hg; apply Hall; by right].
    destruct (c f) eqn:Hc.
    + rewrite prop_insert. destruct (decide (key f = k)) as [Hk|Hk].
      * left. apply Hall; [by left | done | done].
      * destruct Hsome as [Ho|(g & [->|Hg]%elem_of_cons & Hcg & Hkg)];
          [by left | done | right; by exists g].
    + destruct Hsome as [Ho|(g & [->|Hg]%elem_of_cons & Hcg & Hkg)];
        [by left | congruence | right; by exists g].
Qed.

Lemma names_distinct (fields : list IR.Field) (f g : IR.Field) :
  NoDup (List.map IR.name fields) → f ∈ fields → g ∈ fields →
  IR.name f = IR.name g → f = g.
Proof.
  intros Hnd Hf Hg Hname.
  apply list_elem_of_lookup in Hf as [i Hi].
  apply list_elem_of_lookup in Hg as [j Hj].
  assert (i = j); [|congruence].
  apply (NoDup_lookup (List.map IR.name fields) i j (IR.name f)); [done| |].
  - change (List.map IR.name fields) with (IR.name <$> fields).
    by rewrite list_lookup_fmap, Hi.
  - change (List.map IR.name fields) with (IR.name <$> fields).
    by rewrite list_lookup_fmap, Hj, Hname.
Qed.

(** What [_writeMessage] builds for plain fields. *)
Lemma writeFields_plain (fields : list IR.Field) (msg json : Obj) :
  Forall (λ f, plainField f = true) fields →
  JSON.writeFields fields msg json
  = Ret (fold_left (λ o f, if emitted f msg
                           then <[JSON.setField f := prop msg (IR.name f)]> o
                           else o) fields json).
Proof.
  intros Hplain. revert json.
  induction Hplain as [|f fields Hf _ IH]; intros json; [done|].
  assert (Hemit : ∀ v, JSON.emitValue f v json
                       = Ret (<[JSON.setField f := v]> json)).
  { intros v. unfold JSON.emitValue. unfold plainField in Hf.
    apply andb_prop in Hf as [[Hm Hb]%andb_prop Hy].
    apply negb_true_iff in Hm, Hb, Hy. by rewrite Hm, Hb, Hy. }
  assert (Hw : JSON.writeField f msg json
               = Ret (if emitted f msg
                      then <[JSON.setField f := prop msg (IR.name f)]> json
                      else json)).
  { unfold JSON.writeField, emitted.
    destruct JSON.emitFieldsWithDefaultValues; simpl; [apply Hemit|].
    destruct (JSON.holds _ _); [apply Hemit | done]. }
  simpl. rewrite Hw. simpl. apply IH.
Qed.

Lemma nullish_chain (vs : list Val) :
  Forall (λ x, nullish x = true) vs → nullish (JSON.chain vs) = true.
Proof.
  intros [|a ws Ha Hvs]; [done|]. simpl. revert a Ha.
  induction Hvs as [|b ws Hb _ IH]; intros a Ha; [done|].
  simpl. apply IH. unfold coalesce. by rewrite Ha.
Qed.

(** A chain over values that are all [v] or [undefined], [v] among
    them. *)
Lemma chain_single (vs : list Val) (v : Val) :
  Forall (λ x, x = v ∨ x = VUndefined) vs → v ∈ vs →
  alike (JSON.chain vs) v.
Proof.
  intros Hvs Hin. destruct (nullish v) eqn:Hv.
  - right. split; [|done]. apply nullish_chain.
    eapply Forall_impl; [exact Hvs|]. by intros x [->| ->].
  - left. destruct vs as [|a vs]; [by apply elem_of_nil in Hin|]. simpl.
    apply Forall_cons in Hvs as [Ha Hvs].
    assert (Hfold : ∀ a, a = v ∨ (a = VUndefined ∧ v ∈ vs) →
                         fold_left coalesce vs a = v).
    { clear Ha Hin a. induction Hvs as [|b vs Hb _ IH]; intros a Ha.
      - destruct Ha as [->|[_ Hin]]; [done|]. by apply elem_of_nil in Hin.
      - simpl. apply IH. destruct Ha as [->|[-> Hin]].
        + left. unfold coalesce. by rewrite Hv.
        + unfold coalesce. simpl.
          apply elem_of_cons in Hin as [<-|Hin]; [by left|].
          destruct Hb as [->| ->]; [by left | right; done]. }
    apply Hfold. destruct Ha as [->| ->]; [by left|].
    apply elem_of_cons in Hin as [->|Hin]; [by left | by right].
Qed.

Lemma chain_undefined (vs : list Val) :
  Forall (λ x, x = VUndefined) vs → alike (JSON.chain vs) VUndefined.
Proof.
  intros Hvs. right. split; [|done]. apply nullish_chain.
  eapply Forall_impl; [exact Hvs|]. by intros x ->.
Qed.

Lemma assign_plain (f : IR.Field) (v : Val) (msg : Obj) :
  plainField f = true → JSON.assign f v msg = Ret (<[IR.name f := v]> msg).
Proof.
  intros Hf. unfold JSON.assign, plainField in *.
  apply andb_prop in Hf as [[Hm Hb]%andb_prop Hy].
  apply negb_true_iff in Hm, Hb, Hy. by rewrite Hm, Hb, Hy.
Qed.

Lemma json_round_trip_fold (fields : list IR.Field) (msg msg0 : Obj) :
  Forall (λ f, plainField f = true) fields →
  ownKeys fields →
  NoDup (List.map IR.name fields) →
  (∀ f g, f ∈ fields → g ∈ fields → IR.name f ≠ IR.name g →
          JSON.setField f ∉ JSON.getFieldKeys g) →
  ∃ json,
    JSON._writeMessage fields msg = Ret json
    ∧ JSON._readMessage fields msg0 (VObj json)
      = Ret (fold_left (λ o f, if restored f msg
                               then <[IR.name f := prop msg (IR.name f)]> o
                               else o) fields msg0).
Proof.
  intros Hplain Hown Hnd Hkeys. unfold JSON._writeMessage.
  rewrite writeFields_plain by done. eexists. split; [done|].
  set (json := fold_left _ fields ∅).
  assert (Hempty : ∀ g k, g ∈ fields → k ∈ JSON.getFieldKeys g →
            prop ∅ k = VUndefined).
  { intros g k Hg Hk. unfold prop. rewrite lookup_empty.
    by apply inherited_none, (Hown g k). }
  assert (Hjson : ∀ g k, g ∈ fields → k ∈ JSON.getFieldKeys g →
            prop json k = if decide (k = JSON.setField g)
                          then if emitted g msg then prop msg (IR.name g)
                               else VUndefined
                          else VUndefined).
  { intros g k Hg Hk. subst json.
    assert (Hsame : ∀ f, f ∈ fields → JSON.setField f = k → f = g).
    { intros f Hf Hfk. apply (names_distinct fields); [done..|].
      destruct (decide (IR.name f = IR.name g)) as [|Hne]; [done|].
      destruct (Hkeys f g Hf Hg Hne). by rewrite Hfk. }
    apply fold_insert_lookup.
    - destruct (decide (k = JSON.setField g)) as [->|Hne].
      + destruct (emitted g msg) eqn:He; [right; by exists g | left; eauto].
      + left; eauto.
    - intros f Hf He Hfk. pose proof (Hsame f Hf Hfk) as ->.
      rewrite decide_True by done. by rewrite He. }
  clearbody json.
  assert (Hread : ∀ g m, g ∈ fields →
            JSON.readField g (VObj json) m
            = Ret (if restored g msg
                   then <[IR.name g := prop msg (IR.name g)]> m else m)).
  { intros g m Hg. rewrite readField_object. cbv zeta.
    assert (Hplain_g : plainField g = true)
      by (by apply (proj1 (Forall_forall _ _) Hplain)).
    assert (Halike : alike (JSON.chain (List.map (prop json) (JSON.getFieldKeys g)))
                           (if emitted g msg then prop msg (IR.name g)
                            else VUndefined)).
    { destruct (emitted g msg) eqn:He.
      - apply chain_single.
        + apply Forall_fmap, Forall_forall. intros k Hk. simpl.
          rewrite (Hjson g k Hg Hk), He. destruct (decide _); [by left|by right].
        + apply (list_elem_of_fmap_2' _ _ (JSON.setField g));
            [apply setField_accepted|].
          rewrite (Hjson g _ Hg (setField_accepted g)), He.
          by rewrite decide_True.
      - apply chain_undefined, Forall_fmap, Forall_forall. intros k Hk. simpl.
        rewrite (Hjson g k Hg Hk), He. by destruct (decide _). }
    apply alike_truthy in Halike as [Ht Heq]. unfold restored.
    destruct (emitted g msg) eqn:He; cbn [andb].
    - rewrite Ht. destruct (truthy (prop msg (IR.name g))) eqn:Hv; [|done].
      rewrite Heq by (by rewrite Ht). by apply assign_plain.
    - by rewrite Ht. }
  clear Hjson.
  assert (Hsub : ∀ g, g ∈ fields → g ∈ fields) by done.
  revert Hsub. generalize fields at 1 3 4 as fields'. intros fields'.
  revert msg0. induction fields' as [|g fields' IH]; intros msg0 Hsub; [done|].
  simpl. rewrite Hread by (apply Hsub; by left). simpl.
  apply IH. intros g' Hg'. apply Hsub. by right.
Qed.

End JsonRoundTrip.

(** X16.  The generated JSON [_readMessage] looks at the keys its fields
    accept (JSON name, field name, proto name) and at nothing else: two
    objects on which the lookup of each of those keys gives the same,
    [null] and [undefined] counting as the same, decode to the same
    message or the same exception.  So a key that no field accepts is
    ignored.  A lookup finds an own property or one inherited from
    [Object.prototype]; the names of the fields stand for themselves
    between the double quotes they are printed in. *)
Theorem json_decode_reads_accepted_keys `{JSON.Runtime}
    (fields : list IR.Field) (msg : Obj) (o o' : Obj) :
  Forall (λ field, JSON.literalKeys field = true) fields →
  (∀ field k, field ∈ fields → k ∈ JSON.getFieldKeys field →
              alike (prop o k) (prop o' k)) →
  JSON._readMessage fields msg (VObj o) = JSON._readMessage fields msg (VObj o').
Proof. intros _. apply readMessage_accepted_keys. Qed.

Lemma json_decode_reads_accepted_keys_witness :
  JSON._readMessage (H := Examples.json) [Examples.foo_bar] Examples.initialF
    (VObj (<["other" := VNum 1]> Examples.jsonProtoKey))
  = JSON._readMessage (H := Examples.json) [Examples.foo_bar] Examples.initialF
      (VObj Examples.jsonProtoKey).
Proof.
  apply (json_decode_reads_accepted_keys (H := Examples.json));
    [by repeat constructor|].
  intros field k ->%list_elem_of_singleton Hk. left.
  rewrite prop_insert. destruct (decide ("other"%string = k)) as [<-|]; [|done].
  exfalso. apply list_elem_of_In in Hk. vm_compute in Hk.
  intuition discriminate.
Defined.

(** X17.  Writing and reading back with the generated JSON codec, for
    fields whose JSON value is the value itself (numbers below 64 bits,
    booleans, strings, enums), with distinct names, with keys that no
    other field accepts and that are not names [Object.prototype]
    defines, the names standing for themselves between the double quotes
    they are printed in: [_writeMessage] returns an object, and
    [_readMessage] on it assigns a field the value it had in the written
    message when that value was written and is truthy, and keeps what
    the field had before otherwise.  A value that is written but falsy
    (an optional field set to 0, to the empty string or to false) is not
    read back. *)
Theorem json_plain_round_trip `{JSON.Runtime} (fields : list IR.Field)
    (msg msg0 : Obj) :
  Forall (λ f, plainField f = true) fields →
  Forall (λ f, JSON.literalKeys f = true) fields →
  ownKeys fields →
  NoDup (List.map IR.name fields) →
  (∀ f g, f ∈ fields → g ∈ fields → IR.name f ≠ IR.name g →
          JSON.setField f ∉ JSON.getFieldKeys g) →
  ∃ json msg',
    JSON._writeMessage fields msg = Ret json
    ∧ JSON._readMessage fields msg0 (VObj json) = Ret msg'
    ∧ (∀ f, f ∈ fields →
         prop msg' (IR.name f)
         = if restored f msg then prop msg (IR.name f)
           else prop msg0 (IR.name f))
    ∧ (∀ k, k ∉ List.map IR.name fields → prop msg' k = prop msg0 k).
Proof.
  intros Hplain _ Hown Hnd Hkeys.
  destruct (json_round_trip_fold fields msg msg0 Hplain Hown Hnd Hkeys)
    as (json & Hw & Hr).
  eexists json, _. split; [exact Hw|]. split; [exact Hr|]. split.
  - intros f Hf. apply fold_insert_lookup.
    + destruct (restored f msg) eqn:Hres; [right; by exists f | by left].
    + intros g Hg Hres Hname.
      rewrite (names_distinct fields g f Hnd Hg Hf Hname) in *.
      by rewrite Hres.
  - intros k Hk. apply fold_insert_lookup; [by left|].
    intros g Hg _ Hname. destruct Hk. rewrite <- Hname.
    by apply (list_elem_of_fmap_2 IR.name).
Qed.

Lemma json_plain_round_trip_witness :
  ∃ json msg',
    JSON._writeMessage (H := Examples.json) Examples.W Examples.w = Ret json
    ∧ JSON._readMessage (H := Examples.json) Examples.W ∅ (VObj json)
      = Ret msg'
    ∧ prop msg' "e" = VStr "B"
    ∧ prop msg' "opt" = VUndefined.
Proof.
  destruct (json_plain_round_trip (H := Examples.json) Examples.W Examples.w ∅
              W_plain W_literal W_own W_names W_keys)
    as (json & msg' & Hw & Hr & Hfields & _).
  exists json, msg'. split; [exact Hw|]. split; [exact Hr|]. split.
  - exact (Hfields Examples.e ltac:(cbv [Examples.W]; set_solver)).
  - exact (Hfields Examples.opt ltac:(cbv [Examples.W]; set_solver)).
Defined.

(** A name [Object.prototype] defines is outside that round trip: for
    the string field named [toString] the empty message writes the
    inherited method, and reading an object without the key assigns it
    over the value the target had. *)
Example json_round_trip_inherited_name :
  JSON._writeMessage (H := Examples.json) [Examples.fieldToString] ∅
  = Ret (<["toString"%string := VBuiltin "toString"]> ∅)
  ∧ JSON._readMessage (H := Examples.json) [Examples.fieldToString]
      (<["toString"%string := VStr "x"]> ∅) (VObj ∅)
    = Ret (<["toString"%string := VBuiltin "toString"]> ∅).
Proof. by vm_compute. Qed.

(** X18.  For an enum in which no two enumerators share a number,
    [_fromInt] undoes [_toInt] on every string: the name of an enumerator
    is mapped to its number and back to the name, and a string that is
    not a name passes through both unchanged. *)
Theorem enum_names_round_trip (values : list IR.EnumValue) (s : string) :
  NoDup (EnumCodec.declaredValues values) →
  EnumCodec._fromInt values (EnumCodec._toInt values (VStr s)) = VStr s.
Proof. apply names_round_trip. Qed.

Lemma enum_names_round_trip_witness :
  EnumCodec._fromInt Examples.E (EnumCodec._toInt Examples.E (VStr "B"))
  = VStr "B".
Proof.
  apply (enum_names_round_trip Examples.E "B").
  cbv [EnumCodec.declaredValues Examples.E List.map IR.ev_value].
  compute_done.
Defined.

(** With an aliased number the round trip ends at the first name. *)
Example enum_alias_first_name :
  let values := [IR.mkEnumValue "A" 0; IR.mkEnumValue "B" 1;
                 IR.mkEnumValue "C" 1] in
  EnumCodec._fromInt values (EnumCodec._toInt values (VStr "C")) = VStr "B".
Proof. reflexivity. Qed.

Section Compositions.
Import BinaryDecoder.
Context `{Asserts}.

Lemma encode32_length (n : Z) :
  0 <= n < 2 ^ 32 →
  Z.of_nat (length (Varint.encode32 n))
  = if n <? 2 ^ 7 then 1 else if n <? 2 ^ 14 then 2
    else if n <? 2 ^ 21 then 3 else if n <? 2 ^ 28 then 4 else 5.
Proof.
  intros Hn. unfold Varint.encode32. cbn [Varint.encode].
  destruct (Z.ltb_spec n (2 ^ 7)), (Z.ltb_spec n 128); try lia; [done|].
  destruct (Z.ltb_spec n (2 ^ 14)), (Z.ltb_spec (n / 128) 128);
    try (exfalso; Z.div_mod_to_equations; lia); [done|].
  destruct (Z.ltb_spec n (2 ^ 21)), (Z.ltb_spec (n / 128 / 128) 128);
    try (exfalso; Z.div_mod_to_equations; lia); [done|].
  destruct (Z.ltb_spec n (2 ^ 28)), (Z.ltb_spec (n / 128 / 128 / 128) 128);
    try (exfalso; Z.div_mod_to_equations; lia); [done|].
  destruct (Z.ltb_spec (n / 128 / 128 / 128 / 128) 128); [done|].
  exfalso; Z.div_mod_to_equations; lia.
Qed.

Lemma read_unskip (n : Z) (d : Decoder) (bs : list Z) :
  0 <= n < 2 ^ 32 →
  bytes_ d = Some bs →
  bytesAt bs (cursor_ d) (Varint.encode32 n) →
  cursor_ d + Z.of_nat (length (Varint.encode32 n)) <= end_ d →
  bind readUnsignedVarint32 unskipVarint d
  = (Ret tt,
     withCursor d
       (cursor_ d + Z.of_nat (length (Varint.encode32 n)) - unskipped n)).
Proof.
  intros Hn Hbs Hat Hend.
  rewrite (run_bind _ _ _ _ _ (readUnsignedVarint32_encode n d bs Hn Hbs Hat Hend)).
  rewrite unskipVarint_steps by done.
  by rewrite withCursor_twice.
Qed.

Lemma readStringWithLength_utf8 (cps : list Z) (d : Decoder) (bs : list Z) :
  let len := Z.of_nat (length (Utf8.encodeAll cps)) in
  let prefix := Varint.encode32 len in
  Utf8.codePoints cps → len < 2 ^ 32 →
  bytes_ d = Some bs →
  bytesAt bs (cursor_ d) (prefix ++ Utf8.encodeAll cps) →
  cursor_ d + Z.of_nat (length prefix) <= end_ d →
  readStringWithLength d
  = (Ret (Utf8.utf16All cps),
     withCursor d (cursor_ d + Z.of_nat (length prefix) + len)).
Proof.
  intros len prefix Hcps Hlen Hbs Hat Hend. subst len prefix.
  apply bytesAt_app in Hat as [Hprefix Hstring].
  unfold readStringWithLength.
  assert (Hrange : 0 <= Z.of_nat (length (Utf8.encodeAll cps)) < 2 ^ 32) by lia.
  rewrite (run_bind _ _ _ _ _
             (readUnsignedVarint32_encode _ d bs Hrange Hbs Hprefix Hend)).
  rewrite (readString_utf8 cps (withCursor d _) bs Hcps Hbs Hstring).
  by rewrite withCursor_twice.
Qed.

End Compositions.

(** X20.  [readStringWithLength] on a string as it is written, the
    varint of the number of UTF-8 bytes and then the bytes: it returns
    the UTF-16 code units of the code points and leaves the cursor after
    the last byte.  Only the varint has to lie inside the block: the end
    of the string is not checked against it. *)
Theorem readStringWithLength_decodes `{Asserts} (cps : list Z)
    (d : BinaryDecoder.Decoder) (bs : list Z) :
  let len := Z.of_nat (length (Utf8.encodeAll cps)) in
  let prefix := Varint.encode32 len in
  Utf8.codePoints cps → len < 2 ^ 32 →
  BinaryDecoder.bytes_ d = Some bs →
  BinaryDecoder.bytesAt bs (BinaryDecoder.cursor_ d)
    (prefix ++ Utf8.encodeAll cps) →
  BinaryDecoder.cursor_ d + Z.of_nat (length prefix) <= BinaryDecoder.end_ d →
  BinaryDecoder.readStringWithLength d
  = (Ret (Utf8.utf16All cps),
     BinaryDecoder.withCursor d
       (BinaryDecoder.cursor_ d + Z.of_nat (length prefix) + len)).
Proof. apply readStringWithLength_utf8. Qed.

Lemma readStringWithLength_decodes_witness :
  BinaryDecoder.readStringWithLength (H := Examples.assertsOn)
    (BinaryDecoder.new (Some Examples.prefixed) None (Some 1))
  = (Ret [72; 233; 8364; 55357; 56832],
     BinaryDecoder.mkDecoder (Some Examples.prefixed) 0 1 11 false).
Proof.
  rewrite (readStringWithLength_decodes (H := Examples.assertsOn)
             Examples.codePoints
             (BinaryDecoder.new (Some Examples.prefixed) None (Some 1))
             Examples.prefixed codePoints_valid);
    [reflexivity | by vm_compute | reflexivity | apply bytesAt_whole
    | by vm_compute].
Defined.

(** X21.  Reading an unsigned 32-bit varint in its shortest encoding and
    then calling [unskipVarint] with the value read puts the decoder back
    in the state it had before the read, unless the value is one the test
    [value > 128] gets wrong (128, or one from 2^14, 2^21 or 2^28 up to
    the next multiple-of-129 threshold): then the cursor ends one byte
    after the place it started from. *)
Theorem read_then_unskip `{Asserts} (n : Z) (d : BinaryDecoder.Decoder)
    (bs : list Z) :
  0 <= n < 2 ^ 32 →
  BinaryDecoder.bytes_ d = Some bs →
  BinaryDecoder.bytesAt bs (BinaryDecoder.cursor_ d) (Varint.encode32 n) →
  BinaryDecoder.cursor_ d + Z.of_nat (length (Varint.encode32 n))
    <= BinaryDecoder.end_ d →
  let boundary :=
    (n =? 128) || (2 ^ 14 <=? n) && (n <? 129 * 2 ^ 7)
    || (2 ^ 21 <=? n) && (n <? 129 * 2 ^ 14)
    || (2 ^ 28 <=? n) && (n <? 129 * 2 ^ 21) in
  BinaryDecoder.bind BinaryDecoder.readUnsignedVarint32
                     BinaryDecoder.unskipVarint d
  = (Ret tt,
     if boundary then BinaryDecoder.withCursor d (BinaryDecoder.cursor_ d + 1)
     else d).
Proof.
  intros Hn Hbs Hat Hend boundary.
  rewrite (read_unskip n d bs Hn Hbs Hat Hend), (encode32_length n Hn).
  match goal with
  | |- context [BinaryDecoder.cursor_ d + ?L - ?U] =>
      replace (BinaryDecoder.cursor_ d + L - U)
        with (BinaryDecoder.cursor_ d + (if boundary then 1 else 0))
  end.
  - destruct boundary; [done|]. by rewrite Z.add_0_r, withCursor_same.
  - subst boundary. unfold BinaryDecoder.unskipped.
    destruct (Z.eqb_spec n 128), (Z.leb_spec n 128), (Z.ltb_spec n (2 ^ 7)),
      (Z.ltb_spec n (2 ^ 14)), (Z.leb_spec (2 ^ 14) n),
      (Z.ltb_spec n (129 * 2 ^ 7)), (Z.ltb_spec n (2 ^ 21)),
      (Z.leb_spec (2 ^ 21) n), (Z.ltb_spec n (129 * 2 ^ 14)),
      (Z.ltb_spec n (2 ^ 28)), (Z.leb_spec (2 ^ 28) n),
      (Z.ltb_spec n (129 * 2 ^ 21)); cbn [orb andb]; lia.
Qed.

Lemma read_then_unskip_witness :
  BinaryDecoder.bind (BinaryDecoder.readUnsignedVarint32 (H := Examples.assertsOn))
    BinaryDecoder.unskipVarint (BinaryDecoder.new (Some [172; 2]) None None)
  = (Ret tt, BinaryDecoder.new (Some [172; 2]) None None).
Proof.
  rewrite (read_then_unskip (H := Examples.assertsOn) 300
             (BinaryDecoder.new (Some [172; 2]) None None) [172; 2]);
    [reflexivity | lia | reflexivity | apply bytesAt_whole | by vm_compute].
Defined.

(** After the varint of 128 has been read, [unskipVarint(128)] leaves the
    cursor on its second byte. *)
Example read_then_unskip_128 :
  BinaryDecoder.bind (BinaryDecoder.readUnsignedVarint32 (H := Examples.assertsOn))
    BinaryDecoder.unskipVarint (BinaryDecoder.new (Some [128; 1]) None None)
  = (Ret tt, BinaryDecoder.mkDecoder (Some [128; 1]) 0 2 1 false).
Proof. by vm_compute. Qed.
